(** * pyro/ops/studentt.py: the Gamma and GaussianGamma density algebra

    A shallow embedding of [pyro.ops.studentt] together with the part of the
    tensor runtime it calls.

    Conventions of the model.
    - Tensor entries are real numbers: arithmetic is the exact arithmetic that
      the floating-point runtime approximates.
    - Every operation of the source addresses axes from the end ([-1], [-2],
      [size(-1)], [[..., :n]], [sum(-1)]) and broadcasting aligns trailing
      axes, so a tensor stores its sizes innermost axis first: [rshape] is
      torch's [shape] reversed, and an entry index lists the innermost
      coordinate first ([P[b, i, j]] is [elt P [j; i; b]]).
    - A Python exception is an error value; an [AssertionError] carries the
      source line of the [assert] that raised it.  The [isinstance]
      assertions are the types of the arguments.
    - Of the runtime, what the source calls is modelled: broadcasting
      arithmetic, [matmul], [cholesky], [triangular_solve], slicing with
      integers and step-1 slices, [pad], [expand], [reshape], [cat] (without
      its legacy rule for empty 1-dimensional parts), indexing by an integer
      tensor.  Element types, devices, strides and gradients are not. *)

From Stdlib Require Import Reals Lra Lia ZArith List Bool Arith.
From Stdlib Require Import Permutation.
Import ListNotations.

Set Implicit Arguments.

(** ** Exceptions *)

Inductive exn : Type :=
| AssertionError (line : nat)
| NotImplementedError
| TypeError
| IndexError
| ValueError
| RuntimeError.

Inductive result (A : Type) : Type :=
| Ok (a : A)
| Raise (e : exn).

Arguments Ok {A} a.
Arguments Raise {A} e.

Definition bind {A B : Type} (m : result A) (k : A -> result B) : result B :=
  match m with
  | Ok a => k a
  | Raise e => Raise e
  end.

Notation "x <- m ;; k" := (bind m (fun x => k))
  (at level 61, m at next level, right associativity).

Notation "'assert_' b 'line' l ;; k" := (if b then k else Raise (AssertionError l))
  (at level 61, b at next level, l at next level, right associativity).

(** ** Tensors *)

Record Tensor : Type := mkTensor {
  rshape : list nat;
  elt : list nat -> R
}.

(** An integer ([torch.long]) tensor, used as an index. *)
Record LongTensor : Type := mkLongTensor {
  lrshape : list nat;
  lelt : list nat -> Z
}.

Definition shape (t : Tensor) : list nat := rev (rshape t).
Definition lshape (p : LongTensor) : list nat := rev (lrshape p).
Definition ndim (t : Tensor) : nat := length (rshape t).

(** [t.size(-1)] *)
Definition size_last (t : Tensor) : result nat :=
  match rshape t with
  | d :: _ => Ok d
  | [] => Raise IndexError
  end.

(** A 0-dimensional tensor and literals for vectors and matrices. *)
Definition scalar (x : R) : Tensor := mkTensor [] (fun _ => x).

Definition vector (xs : list R) : Tensor :=
  mkTensor [length xs] (fun idx => nth (hd 0%nat idx) xs 0%R).

Definition matrix (rows cols : nat) (xss : list (list R)) : Tensor :=
  mkTensor [cols; rows]
    (fun idx => nth (hd 0%nat idx) (nth (hd 0%nat (tl idx)) xss []) 0%R).

(** In-range indices of a shape, and pointwise equality of tensors. *)
Definition in_range (s idx : list nat) : Prop := Forall2 lt idx s.

Definition tensor_eq (a b : Tensor) : Prop :=
  rshape a = rshape b /\ forall idx, in_range (rshape a) idx -> elt a idx = elt b idx.

Fixpoint shape_eqb (a b : list nat) : bool :=
  match a, b with
  | [], [] => true
  | x :: a', y :: b' => (x =? y) && shape_eqb a' b'
  | _, _ => false
  end.

(** ** Broadcasting *)

Definition bdim (x y : nat) : option nat :=
  if x =? y then Some x
  else if x =? 1 then Some y
  else if y =? 1 then Some x
  else None.

Fixpoint bshape (a b : list nat) : option (list nat) :=
  match a, b with
  | [], _ => Some b
  | _, [] => Some a
  | x :: a', y :: b' =>
      match bdim x y, bshape a' b' with
      | Some d, Some r => Some (d :: r)
      | _, _ => None
      end
  end.

(** The entry of an operand of shape [s] that a result index reads. *)
Fixpoint bidx (s idx : list nat) : list nat :=
  match s, idx with
  | d :: s', i :: idx' => (if d =? 1 then 0 else i) :: bidx s' idx'
  | _, _ => []
  end.

(** Modelled from the spec: [pyro.distributions.util.broadcast_shape], which
    the spec takes as a pure function [broadcast_shape(shapes...) -> shape];
    shapes are given innermost axis first and a mismatch raises. *)
Fixpoint broadcast_shape (shapes : list (list nat)) : result (list nat) :=
  match shapes with
  | [] => Ok []
  | s :: rest =>
      r <- broadcast_shape rest ;;
      match bshape s r with
      | Some t => Ok t
      | None => Raise ValueError
      end
  end.

Definition broadcast_binop (f : R -> R -> R) (a b : Tensor) : result Tensor :=
  match bshape (rshape a) (rshape b) with
  | Some s =>
      Ok (mkTensor s (fun idx =>
            f (elt a (bidx (rshape a) idx)) (elt b (bidx (rshape b) idx))))
  | None => Raise RuntimeError
  end.

Definition tadd : Tensor -> Tensor -> result Tensor := broadcast_binop Rplus.
Definition tsub : Tensor -> Tensor -> result Tensor := broadcast_binop Rminus.
Definition tmul : Tensor -> Tensor -> result Tensor := broadcast_binop Rmult.

Definition tmap (f : R -> R) (t : Tensor) : Tensor :=
  mkTensor (rshape t) (fun idx => f (elt t idx)).

(** [c * t], [t + c], [t - c] for a Python number [c]; [t.log()]; [t.pow(2)].
    [tlog] is the logarithm of the positive entries: where an entry is zero
    or negative the runtime gives [-inf] or [nan], which are no real numbers,
    and statements about [tlog s] are made for positive [s]. *)
Definition smul (c : R) (t : Tensor) : Tensor := tmap (Rmult c) t.
Definition sadd (t : Tensor) (c : R) : Tensor := tmap (fun x => x + c)%R t.
Definition ssub (t : Tensor) (c : R) : Tensor := tmap (fun x => x - c)%R t.
Definition tlog (t : Tensor) : Tensor := tmap ln t.
Definition tpow2 (t : Tensor) : Tensor := tmap (fun x => x * x)%R t.

(** ** Reductions and axis manipulation *)

Fixpoint rsum (n : nat) (f : nat -> R) : R :=
  match n with
  | O => 0%R
  | S k => (rsum k f + f k)%R
  end.

(** [t.sum(-1)] *)
Definition sum_last (t : Tensor) : Tensor :=
  match rshape t with
  | d :: ds => mkTensor ds (fun idx => rsum d (fun k => elt t (k :: idx)))
  | [] => t
  end.

(** [t.unsqueeze(-1)] *)
Definition unsqueeze_last (t : Tensor) : Tensor :=
  mkTensor (1 :: rshape t) (fun idx => elt t (tl idx)).

(** [t.squeeze(-1)]: drops the last axis when its size is 1. *)
Definition squeeze_last (t : Tensor) : Tensor :=
  match rshape t with
  | 1 :: ds => mkTensor ds (fun idx => elt t (0 :: idx))
  | _ => t
  end.

(** [t.transpose(-1, -2)] *)
Definition transpose_last2 (t : Tensor) : result Tensor :=
  match rshape t with
  | c :: r :: bs =>
      Ok (mkTensor (r :: c :: bs)
            (fun idx => elt t (hd 0 (tl idx) :: hd 0 idx :: tl (tl idx))))
  | _ => Raise IndexError
  end.

(** [t.diagonal(dim1=-2, dim2=-1)] *)
Definition diagonal_last2 (t : Tensor) : result Tensor :=
  match rshape t with
  | c :: r :: bs =>
      Ok (mkTensor (Nat.min r c :: bs)
            (fun idx => elt t (hd 0 idx :: hd 0 idx :: tl idx)))
  | _ => Raise IndexError
  end.

(** [a.matmul(b)]: a batched matrix product; the batch axes broadcast.  A
    1-dimensional operand is promoted to a matrix and the added axis is
    removed from the result, as [torch.matmul] does. *)
Definition matmul_batched (a b : Tensor) : result Tensor :=
  match rshape a, rshape b with
  | k :: m :: ba, p :: k' :: bb =>
      if k =? k' then
        match bshape ba bb with
        | Some bs =>
            Ok (mkTensor (p :: m :: bs) (fun idx =>
                  let j := hd 0 idx in
                  let i := hd 0 (tl idx) in
                  let b_idx := tl (tl idx) in
                  rsum k (fun l =>
                    elt a (l :: i :: bidx ba b_idx) * elt b (j :: l :: bidx bb b_idx))%R))
        | None => Raise RuntimeError
        end
      else Raise RuntimeError
  | _, _ => Raise RuntimeError
  end.

Definition matmul (a b : Tensor) : result Tensor :=
  match rshape a, rshape b with
  | [], _ | _, [] => Raise RuntimeError
  | [k], [k'] =>
      r <- matmul_batched (mkTensor [k; 1] (fun idx => elt a [hd 0 idx]))
                          (unsqueeze_last b) ;;
      Ok (mkTensor [] (fun _ => elt r [0; 0]))
  | [k], _ =>
      r <- matmul_batched (mkTensor [k; 1] (fun idx => elt a [hd 0 idx])) b ;;
      Ok (mkTensor (hd 0 (rshape r) :: tl (tl (rshape r)))
            (fun idx => elt r (hd 0 idx :: 0 :: tl idx)))
  | _, [k'] =>
      r <- matmul_batched a (unsqueeze_last b) ;;
      Ok (squeeze_last r)
  | _, _ => matmul_batched a b
  end.

(** ** Slicing, padding and indexing *)

(** Python's [slice(start, stop).indices(d)] for step 1, as (first, length). *)
Definition clamp_index (d : nat) (z : Z) : Z :=
  if (z <? 0)%Z then Z.max (z + Z.of_nat d) 0 else Z.min z (Z.of_nat d).

Definition slice_bounds (start stop : option Z) (d : nat) : nat * nat :=
  let lo := match start with Some z => clamp_index d z | None => 0%Z end in
  let hi := match stop with Some z => clamp_index d z | None => Z.of_nat d end in
  (Z.to_nat lo, Z.to_nat (hi - lo)).

Record slice : Type := mkSlice { slice_start : option Z; slice_stop : option Z }.

(** [slice(None)], [slice(None, n)] and [slice(n, None)] *)
Definition slice_all : slice := mkSlice None None.
Definition slice_to (n : Z) : slice := mkSlice None (Some n).
Definition slice_from (n : Z) : slice := mkSlice (Some n) None.

Definition slice_lo (a : slice) (d : nat) : nat :=
  fst (slice_bounds (slice_start a) (slice_stop a) d).
Definition slice_len (a : slice) (d : nat) : nat :=
  snd (slice_bounds (slice_start a) (slice_stop a) d).

(** [t[..., a]] *)
Definition slice_last (t : Tensor) (a : slice) : result Tensor :=
  match rshape t with
  | d :: ds =>
      Ok (mkTensor (slice_len a d :: ds)
            (fun idx => elt t ((slice_lo a d + hd 0 idx) :: tl idx)))
  | [] => Raise IndexError
  end.

(** [t[..., a, b]]: [a] cuts the rows (axis -2), [b] the columns (axis -1). *)
Definition slice_last2 (t : Tensor) (a b : slice) : result Tensor :=
  match rshape t with
  | c :: r :: ds =>
      Ok (mkTensor (slice_len b c :: slice_len a r :: ds)
            (fun idx => elt t ((slice_lo b c + hd 0 idx)
                               :: (slice_lo a r + hd 0 (tl idx)) :: tl (tl idx))))
  | _ => Raise IndexError
  end.

(** One padded coordinate: the source coordinate it reads, if any. *)
Definition unpad (left : Z) (d i : nat) : option nat :=
  let j := (Z.of_nat i - left)%Z in
  if ((0 <=? j) && (j <? Z.of_nat d))%Z then Some (Z.to_nat j) else None.

(** Whether the negative amounts of a padding crop more than an axis of
    size [d] holds: the runtime first narrows the axis by the negative
    amounts, and fails when a narrowed length is negative. *)
Definition overcropped (d : nat) (left right : Z) : bool :=
  (Z.of_nat d + Z.min left 0 + Z.min right 0 <? 0)%Z.

(** [pad(t, (left, right))]: constant zero padding of the last axis.  A
    negative amount crops; cropping more than the axis holds fails. *)
Definition pad1 (t : Tensor) (left right : Z) : result Tensor :=
  match rshape t with
  | d :: ds =>
      if overcropped d left right then Raise RuntimeError
      else
        Ok (mkTensor (Z.to_nat (Z.of_nat d + left + right) :: ds) (fun idx =>
              match unpad left d (hd 0 idx) with
              | Some j => elt t (j :: tl idx)
              | None => 0%R
              end))
  | [] => Raise RuntimeError
  end.

(** [pad(t, lr + lr)] for [lr = (left, right)]: the same padding of the two
    last axes, as [event_pad] applies it to [precision]. *)
Definition pad2 (t : Tensor) (left right : Z) : result Tensor :=
  match rshape t with
  | c :: r :: ds =>
      if overcropped c left right || overcropped r left right then Raise RuntimeError
      else
        Ok (mkTensor (Z.to_nat (Z.of_nat c + left + right)
                      :: Z.to_nat (Z.of_nat r + left + right) :: ds) (fun idx =>
              match unpad left c (hd 0 idx), unpad left r (hd 0 (tl idx)) with
              | Some j, Some i => elt t (j :: i :: tl (tl idx))
              | _, _ => 0%R
              end))
  | _ => Raise RuntimeError
  end.

(** Every in-range index of a shape. *)
Fixpoint all_indices (s : list nat) : list (list nat) :=
  match s with
  | [] => [[]]
  | d :: ds => flat_map (fun idx => map (fun i => i :: idx) (seq 0 d)) (all_indices ds)
  end.

(** An entry of an index tensor resolved against an axis of size [d]
    (negative entries count from the end). *)
Definition wrap_index (d : nat) (z : Z) : option nat :=
  let z' := if (z <? 0)%Z then (z + Z.of_nat d)%Z else z in
  if ((0 <=? z') && (z' <? Z.of_nat d))%Z then Some (Z.to_nat z') else None.

Definition index_ok (d : nat) (p : LongTensor) : bool :=
  forallb (fun idx => match wrap_index d (lelt p idx) with Some _ => true | None => false end)
          (all_indices (lrshape p)).

Definition wrapped (d : nat) (z : Z) : nat :=
  match wrap_index d z with Some i => i | None => 0 end.

(** [t[..., p]] for an integer tensor [p]. *)
Definition index_last (t : Tensor) (p : LongTensor) : result Tensor :=
  match rshape t with
  | d :: ds =>
      if index_ok d p then
        let k := length (lrshape p) in
        Ok (mkTensor (lrshape p ++ ds) (fun idx =>
              elt t (wrapped d (lelt p (firstn k idx)) :: skipn k idx)))
      else Raise IndexError
  | [] => Raise IndexError
  end.

(** [t[..., p, :]] for an integer tensor [p]. *)
Definition index_last_but_one (t : Tensor) (p : LongTensor) : result Tensor :=
  match rshape t with
  | c :: d :: ds =>
      if index_ok d p then
        let k := length (lrshape p) in
        Ok (mkTensor (c :: lrshape p ++ ds) (fun idx =>
              elt t (hd 0 idx :: wrapped d (lelt p (firstn k (tl idx)))
                     :: skipn k (tl idx))))
      else Raise IndexError
  | _ => Raise IndexError
  end.

(** ** Expanding, reshaping, batch indexing and concatenation *)

(** [t.expand(sizes)]: the sizes are aligned with the trailing axes; [-1]
    keeps an axis, an axis of size 1 stretches, new leading axes need a
    non-negative size. *)
Fixpoint expand_shape (s : list nat) (rsizes : list Z) : option (list nat) :=
  match s, rsizes with
  | [], [] => Some []
  | [], z :: zs =>
      if (z <? 0)%Z then None
      else option_map (cons (Z.to_nat z)) (expand_shape [] zs)
  | d :: s', z :: zs =>
      if ((z =? -1) || (z =? Z.of_nat d))%Z then option_map (cons d) (expand_shape s' zs)
      else if ((d =? 1) && (0 <=? z)%Z)%bool
           then option_map (cons (Z.to_nat z)) (expand_shape s' zs)
           else None
  | _ :: _, [] => None
  end.

Definition texpand (t : Tensor) (sizes : list Z) : result Tensor :=
  match expand_shape (rshape t) (rev sizes) with
  | Some s => Ok (mkTensor s (fun idx => elt t (bidx (rshape t) idx)))
  | None => Raise RuntimeError
  end.

Definition numel (s : list nat) : nat := fold_right Nat.mul 1 s.

(** Row-major position of an index, and back. *)
Fixpoint ravel (s idx : list nat) : nat :=
  match s, idx with
  | d :: s', i :: idx' => i + d * ravel s' idx'
  | _, _ => 0
  end.

Fixpoint unravel (s : list nat) (k : nat) : list nat :=
  match s with
  | d :: s' => (k mod d) :: unravel s' (k / d)
  | [] => []
  end.

(** The sizes of [t.reshape(sizes)]: at most one [-1], which is inferred. *)
Definition reshape_shape (n : nat) (rsizes : list Z) : option (list nat) :=
  let known := filter (fun z => negb (z =? -1)%Z) rsizes in
  if existsb (fun z => (z <? 0)%Z) known then None
  else
    let k := numel (map Z.to_nat known) in
    match length rsizes - length known with
    | 0 => if k =? n then Some (map Z.to_nat rsizes) else None
    | 1 =>
        if (k =? 0) || negb (n mod k =? 0) then None
        else Some (map (fun z => if (z =? -1)%Z then n / k else Z.to_nat z) rsizes)
    | _ => None
    end.

Definition treshape (t : Tensor) (sizes : list Z) : result Tensor :=
  match reshape_shape (numel (rshape t)) (rev sizes) with
  | Some s => Ok (mkTensor s (fun idx => elt t (unravel (rshape t) (ravel s idx))))
  | None => Raise RuntimeError
  end.

(** An item of an index tuple: an integer or a slice. *)
Inductive index_item : Type :=
| Int (z : Z)
| Slice (a : slice).

(** Applies an index tuple to the leading axes of a shape given outermost
    axis first: the resulting shape, and the source index of a result index. *)
Fixpoint index_axes (items : list index_item) (s : list nat)
  : result (list nat * (list nat -> list nat)) :=
  match items, s with
  | [], _ => Ok (s, fun idx => idx)
  | _ :: _, [] => Raise IndexError
  | Int z :: items', d :: s' =>
      match wrap_index d z with
      | Some i =>
          r <- index_axes items' s' ;;
          Ok (fst r, fun idx => i :: snd r idx)
      | None => Raise IndexError
      end
  | Slice a :: items', d :: s' =>
      r <- index_axes items' s' ;;
      Ok (slice_len a d :: fst r,
          fun idx => (slice_lo a d + hd 0 idx) :: snd r (tl idx))
  end.

(** [t[index]] for a tuple [index]. *)
Definition tgetitem (t : Tensor) (index : list index_item) : result Tensor :=
  r <- index_axes index (rev (rshape t)) ;;
  Ok (mkTensor (rev (fst r)) (fun idx => elt t (rev (snd r (rev idx))))).

Fixpoint set_nth (p : nat) (v : nat) (l : list nat) : list nat :=
  match p, l with
  | _, [] => []
  | O, _ :: l' => v :: l'
  | S p', x :: l' => x :: set_nth p' v l'
  end.

(** The part holding coordinate [i] of the concatenated axis, and the
    coordinate inside it. *)
Fixpoint locate (p : nat) (t0 : Tensor) (ts : list Tensor) (i : nat) : Tensor * nat :=
  match ts with
  | [] => (t0, i)
  | t :: ts' =>
      let d := nth p (rshape t0) 0 in
      if i <? d then (t0, i) else locate p t ts' (i - d)
  end.

(** The parts that [torch.cat] leaves out: the 1-dimensional empty tensors,
    of shape [(0,)]. *)
Definition cat_skipped (t : Tensor) : bool := shape_eqb (rshape t) [0].

(** The concatenation of the parts that are not left out, [t0] being the first
    of them: [dim] is resolved against [t0], and the parts agree with [t0] on
    every axis but [dim]. *)
Definition tcat_kept (t0 : Tensor) (ts' : list Tensor) (dim : Z) : result Tensor :=
  let nd := ndim t0 in
  let dim' := if (dim <? 0)%Z then (dim + Z.of_nat nd)%Z else dim in
  if negb ((0 <=? dim') && (dim' <? Z.of_nat nd))%Z then Raise IndexError
  else
    let p := nd - 1 - Z.to_nat dim' in
    if forallb (fun t => shape_eqb (set_nth p 0 (rshape t))
                                   (set_nth p 0 (rshape t0))) ts'
    then
      Ok (mkTensor
            (set_nth p (fold_right (fun t acc => nth p (rshape t) 0 + acc) 0 (t0 :: ts'))
                     (rshape t0))
            (fun idx =>
               let r := locate p t0 ts' (nth p idx 0) in
               elt (fst r) (set_nth p (snd r) idx)))
    else Raise RuntimeError.

(** [torch.cat(ts, dim=dim)]: an empty list and a 0-dimensional part are
    refused; parts of shape [(0,)] are left out, and when every part is, the
    result is the empty tensor of shape [(0,)]. *)
Definition tcat (ts : list Tensor) (dim : Z) : result Tensor :=
  match ts with
  | [] => Raise RuntimeError
  | _ :: _ =>
      if existsb (fun t => ndim t =? 0) ts then Raise RuntimeError
      else
        match filter (fun t => negb (cat_skipped t)) ts with
        | [] => Ok (mkTensor [0] (fun _ => 0%R))
        | t0 :: ts' => tcat_kept t0 ts' dim
        end
  end.

(** ** Cholesky factorisation and triangular solves *)

Definition Rpositive (x : R) : bool := if Rlt_dec 0 x then true else false.

(** The matrix at batch index [b] as a function of row and column. *)
Definition mat_at (t : Tensor) (b : list nat) (i j : nat) : R := elt t (j :: i :: b).

(** [schur A k]: what remains of [A] once the first [k] columns of its
    factor have been eliminated; [schur A j j j] is the [j]th pivot. *)
Fixpoint schur (A : nat -> nat -> R) (k : nat) : nat -> nat -> R :=
  match k with
  | O => A
  | S k' =>
      let B := schur A k' in
      fun i j => (B i j - B i k' * B j k' / B k' k')%R
  end.

(** Column [k] of the factor is column [k] of what remains, scaled by the
    root of the pivot. *)
Definition chol_col (A : nat -> nat -> R) (i k : nat) : R :=
  (schur A k i k / sqrt (schur A k k k))%R.

(** The lower-triangular factor; only the lower triangle of [A] is read. *)
Definition chol (A : nat -> nat -> R) (i j : nat) : R :=
  if i <? j then 0%R else chol_col A i j.

(** [t.cholesky()]: fails unless every pivot of every matrix is positive. *)
Definition cholesky (t : Tensor) : result Tensor :=
  match rshape t with
  | c :: r :: bs =>
      if c =? r then
        if forallb (fun b => forallb (fun j => Rpositive (schur (mat_at t b) j j j)) (seq 0 c))
                   (all_indices bs)
        then
          Ok (mkTensor (c :: r :: bs) (fun idx =>
                chol (mat_at t (tl (tl idx))) (hd 0 (tl idx)) (hd 0 idx)))
        else Raise RuntimeError
      else Raise RuntimeError
  | _ => Raise RuntimeError
  end.

(** Forward substitution: [fwd_rhs L b k] is the right-hand side once the
    first [k] unknowns have been eliminated. *)
Fixpoint fwd_rhs (L : nat -> nat -> R) (b : nat -> R) (k : nat) : nat -> R :=
  match k with
  | O => b
  | S k' =>
      let c := fwd_rhs L b k' in
      fun i => (c i - L i k' * (c k' / L k' k'))%R
  end.

Definition fwd_solve (L : nat -> nat -> R) (b : nat -> R) (i : nat) : R :=
  (fwd_rhs L b i i / L i i)%R.

(** [b.triangular_solve(A, upper=False).solution]: solves [A x = b] column
    by column, reading the lower triangle of [A]; the batch axes broadcast. *)
Definition triangular_solve (b A : Tensor) : result Tensor :=
  match rshape b, rshape A with
  | k :: n :: bb, c :: r :: ba =>
      if ((c =? r) && (r =? n))%bool then
        match bshape bb ba with
        | Some bs =>
            Ok (mkTensor (k :: n :: bs) (fun idx =>
                  let b_idx := tl (tl idx) in
                  fwd_solve (mat_at A (bidx ba b_idx))
                            (fun i => elt b (hd 0 idx :: i :: bidx bb b_idx))
                            (hd 0 (tl idx))))
        | None => Raise RuntimeError
        end
      else Raise RuntimeError
  | _, _ => Raise RuntimeError
  end.

(** [c - t] for a Python number [c]. *)
Definition rsub (c : R) (t : Tensor) : Tensor := tmap (fun x => c - x)%R t.

(** ** class Gamma *)

Module Gamma.

Record t : Type := mk {
  log_normalizer : Tensor;
  alpha : Tensor;
  beta : Tensor
}.

(** [self.log_normalizer + (self.alpha - 1) * s.log() - self.beta * s] *)
Definition log_density (self : t) (s : Tensor) : result Tensor :=
  a <- tmul (ssub (alpha self) 1) (tlog s) ;;
  b <- tadd (log_normalizer self) a ;;
  c <- tmul (beta self) s ;;
  tsub b c.

(** [self.log_normalizer + torch.lgamma(self.alpha) - self.alpha * self.beta.log()],
    for the runtime's log-gamma function [lgamma]. *)
Definition logsumexp (lgamma : R -> R) (self : t) : result Tensor :=
  a <- tadd (log_normalizer self) (tmap lgamma (alpha self)) ;;
  b <- tmul (alpha self) (tlog (beta self)) ;;
  tsub a b.

End Gamma.

(** ** class GaussianGamma *)

Module GaussianGamma.

Record t : Type := mk {
  log_normalizer : Tensor;
  info_vec : Tensor;
  precision : Tensor;
  alpha : Tensor;
  beta : Tensor
}.

(** [__init__] *)
Definition init (log_normalizer info_vec precision alpha beta : Tensor) : result t :=
  assert_ (1 <=? ndim info_vec) line 69 ;;
  assert_ (2 <=? ndim precision) line 70 ;;
  assert_ (shape_eqb (firstn 2 (rshape precision))
                     (firstn 1 (rshape info_vec) ++ firstn 1 (rshape info_vec))) line 71 ;;
  Ok (mk log_normalizer info_vec precision alpha beta).

Definition dim (self : t) : result nat := size_last (info_vec self).

Definition batch_shape (self : t) : result (list nat) :=
  broadcast_shape [rshape (log_normalizer self);
                   tl (rshape (info_vec self));
                   skipn 2 (rshape (precision self));
                   rshape (alpha self);
                   rshape (beta self)].

Definition expand (self : t) (batch_shape : list Z) : result t :=
  n <- dim self ;;
  let n := Z.of_nat n in
  log_normalizer <- texpand (log_normalizer self) batch_shape ;;
  info_vec <- texpand (info_vec self) (batch_shape ++ [n]) ;;
  precision <- texpand (precision self) (batch_shape ++ [n; n]) ;;
  alpha <- texpand (alpha self) batch_shape ;;
  beta <- texpand (beta self) batch_shape ;;
  init log_normalizer info_vec precision alpha beta.

Definition reshape (self : t) (batch_shape : list Z) : result t :=
  n <- dim self ;;
  let n := Z.of_nat n in
  log_normalizer <- treshape (log_normalizer self) batch_shape ;;
  info_vec <- treshape (info_vec self) (batch_shape ++ [n]) ;;
  precision <- treshape (precision self) (batch_shape ++ [n; n]) ;;
  alpha <- treshape (alpha self) batch_shape ;;
  beta <- treshape (beta self) batch_shape ;;
  init log_normalizer info_vec precision alpha beta.

(** [__getitem__] *)
Definition getitem (self : t) (index : list index_item) : result t :=
  log_normalizer <- tgetitem (log_normalizer self) index ;;
  info_vec <- tgetitem (info_vec self) (index ++ [Slice slice_all]) ;;
  precision <- tgetitem (precision self) (index ++ [Slice slice_all; Slice slice_all]) ;;
  alpha <- tgetitem (alpha self) index ;;
  beta <- tgetitem (beta self) index ;;
  init log_normalizer info_vec precision alpha beta.

Definition cat (parts : list t) (dim : Z) : result t :=
  dim <- (if (dim <? 0)%Z then
            match parts with
            | [] => Raise IndexError
            | g :: _ => bs <- batch_shape g ;; Ok (dim + Z.of_nat (length bs))%Z
            end
          else Ok dim) ;;
  log_normalizer <- tcat (map log_normalizer parts) dim ;;
  info_vec <- tcat (map info_vec parts) dim ;;
  precision <- tcat (map precision parts) dim ;;
  alpha <- tcat (map alpha parts) dim ;;
  beta <- tcat (map beta parts) dim ;;
  init log_normalizer info_vec precision alpha beta.

Definition event_pad (self : t) (left right : Z) : result t :=
  info_vec <- pad1 (info_vec self) left right ;;
  precision <- pad2 (precision self) left right ;;
  init (log_normalizer self) info_vec precision (alpha self) (beta self).

Definition event_permute (self : t) (perm : LongTensor) : result t :=
  n <- dim self ;;
  assert_ (shape_eqb (lshape perm) [n]) line 145 ;;
  info_vec <- index_last (info_vec self) perm ;;
  p <- index_last (precision self) perm ;;
  precision <- index_last_but_one p perm ;;
  init (log_normalizer self) info_vec precision (alpha self) (beta self).

(** [__add__] *)
Definition add (self other : t) : result t :=
  n <- dim self ;;
  m <- dim other ;;
  assert_ (n =? m) line 155 ;;
  log_normalizer <- tadd (log_normalizer self) (log_normalizer other) ;;
  info_vec <- tadd (info_vec self) (info_vec other) ;;
  precision <- tadd (precision self) (precision other) ;;
  alpha <- tadd (alpha self) (alpha other) ;;
  beta <- tadd (beta self) (beta other) ;;
  init log_normalizer info_vec precision alpha beta.

Definition log_density (self : t) (value s : Tensor) : result Tensor :=
  m <- size_last value ;;
  if m =? 0 then
    bs <- batch_shape self ;;
    batch_shape <- broadcast_shape [tl (rshape value); bs] ;;
    a <- tmul (alpha self) (tlog s) ;;
    b <- tmul (beta self) s ;;
    c <- tsub a b ;;
    l <- texpand (log_normalizer self) (map Z.of_nat (rev batch_shape)) ;;
    tadd c l
  else
    r <- matmul (precision self) (unsqueeze_last value) ;;
    let result := smul (-0.5) (squeeze_last r) in
    result <- tadd result (info_vec self) ;;
    vr <- tmul value result ;;
    let result := sum_last vr in
    a <- tmul (alpha self) (tlog s) ;;
    b <- tsub result (beta self) ;;
    c <- tmul b s ;;
    d <- tadd a c ;;
    tadd d (log_normalizer self).

Definition condition (self : t) (value : Tensor) : result t :=
  k <- size_last value ;;
  d <- size_last (info_vec self) ;;
  assert_ (k <=? d) line 194 ;;
  n <- dim self ;;
  let n := (Z.of_nat n - Z.of_nat k)%Z in
  info_a <- slice_last (info_vec self) (slice_to n) ;;
  info_b <- slice_last (info_vec self) (slice_from n) ;;
  P_aa <- slice_last2 (precision self) (slice_to n) (slice_to n) ;;
  P_ab <- slice_last2 (precision self) (slice_to n) (slice_from n) ;;
  P_bb <- slice_last2 (precision self) (slice_from n) (slice_from n) ;;
  let b := value in
  pb <- matmul P_ab (unsqueeze_last b) ;;
  info_vec <- tsub info_a (squeeze_last pb) ;;
  let precision := P_aa in
  let log_normalizer := log_normalizer self in
  let alpha := alpha self in
  qb <- matmul P_bb (unsqueeze_last b) ;;
  qbb <- tmul (squeeze_last qb) b ;;
  beta1 <- tsub (beta self) (smul 0.5 (sum_last qbb)) ;;
  bi <- tmul b info_b ;;
  beta <- tadd beta1 (sum_last bi) ;;
  init log_normalizer info_vec precision alpha beta.

Definition marginalize (self : t) (left right : Z) : result t :=
  if ((left =? 0) && (right =? 0))%Z then Ok self
  else if ((left >? 0) && (right >? 0))%Z then Raise NotImplementedError
  else
    n <- dim self ;;
    let n := Z.of_nat n in
    let n_b := (left + right)%Z in
    let a := mkSlice (Some left) (Some (n - right)%Z) in
    let b := if (left =? 0)%Z then slice_from (n - right) else slice_to left in
    P_aa <- slice_last2 (precision self) a a ;;
    P_ba <- slice_last2 (precision self) b a ;;
    P_bb <- slice_last2 (precision self) b b ;;
    P_b <- cholesky P_bb ;;
    P_a <- triangular_solve P_ba P_b ;;
    P_at <- transpose_last2 P_a ;;
    PtP <- matmul P_at P_a ;;
    precision <- tsub P_aa PtP ;;
    info_a <- slice_last (info_vec self) a ;;
    info_b <- slice_last (info_vec self) b ;;
    b_tmp <- triangular_solve (unsqueeze_last info_b) P_b ;;
    Pb <- matmul P_at b_tmp ;;
    info_vec <- tsub info_a (squeeze_last Pb) ;;
    diag <- diagonal_last2 P_b ;;
    l1 <- tsub (sadd (log_normalizer self) (0.5 * IZR n_b * ln (2 * PI)))
               (sum_last (tlog diag)) ;;
    log_normalizer <- tadd l1 (smul 0.5 (sum_last (tpow2 (squeeze_last b_tmp)))) ;;
    (* GaussianGamma(log_normalizer, info_vec, precision): the constructor is
       called without its required arguments alpha and beta *)
    Raise TypeError.

Definition event_logsumexp (self : t) : result Gamma.t :=
  n <- dim self ;;
  chol_P <- cholesky (precision self) ;;
  sol <- triangular_solve (unsqueeze_last (info_vec self)) chol_P ;;
  let chol_P_u := squeeze_last sol in
  let u_P_u := sum_last (tpow2 chol_P_u) in
  let alpha := sadd (ssub (alpha self) (0.5 * INR n)) 1 in
  beta <- tsub (beta self) (smul 0.5 u_P_u) ;;
  diag <- diagonal_last2 chol_P ;;
  let log_normalizer_tmp := rsub (0.5 * INR n * ln (2 * PI)) (sum_last (tlog diag)) in
  log_normalizer <- tadd (log_normalizer self) log_normalizer_tmp ;;
  Ok (Gamma.mk log_normalizer alpha beta).

End GaussianGamma.

Import GaussianGamma.

(** ** The shape invariant and the inputs of the examples *)

(** [info_vec] has at least one axis, [precision] at least two, and the two
    trailing sizes of [precision] equal the trailing size of [info_vec]. *)
Definition shape_invariant (info_vec precision : Tensor) : Prop :=
  exists n bi bp, rshape info_vec = n :: bi /\ rshape precision = n :: n :: bp.

Definition valid (g : GaussianGamma.t) : Prop :=
  shape_invariant (info_vec g) (precision g).

(** Whether an error is an assertion of the constructor. *)
Definition constructor_assertion (e : exn) : Prop :=
  e = AssertionError 69 \/ e = AssertionError 70 \/ e = AssertionError 71.

(** The instance of the spec's concrete scenario: [n = 1],
    [precision = [[2.0]]], [info_vec = [0.0]], [alpha = 1.5], [beta = 0.5],
    [log_normalizer = 0.0]. *)
Definition scenario : GaussianGamma.t :=
  GaussianGamma.mk (scalar 0) (vector [0%R]) (matrix 1 1 [[2%R]]) (scalar 1.5) (scalar 0.5).

(** A second instance, of event dimension 2, with [precision = diag(1, 2)]
    and [info_vec = [0, 0]]. *)
Definition scenario2 : GaussianGamma.t :=
  GaussianGamma.mk (scalar 0) (vector [0%R; 0%R]) (matrix 2 2 [[1%R; 0%R]; [0%R; 2%R]])
                   (scalar 0) (scalar 0).

(** [t'] is [t] with [l] zeros put before and [r] zeros after its last axis. *)
Definition zero_padded1 (l r : nat) (t t' : Tensor) : Prop :=
  exists n bs,
    rshape t = n :: bs /\ rshape t' = (l + n + r) :: bs /\
    forall i idx,
      elt t' (i :: idx) =
      if (l <=? i) && (i <? l + n) then elt t ((i - l) :: idx) else 0%R.

(** The same on both trailing axes. *)
Definition zero_padded2 (l r : nat) (t t' : Tensor) : Prop :=
  exists n m bs,
    rshape t = n :: m :: bs /\ rshape t' = (l + n + r) :: (l + m + r) :: bs /\
    forall j i idx,
      elt t' (j :: i :: idx) =
      if ((l <=? j) && (j <? l + n)) && ((l <=? i) && (i <? l + m))
      then elt t ((j - l) :: (i - l) :: idx) else 0%R.

(** [s] broadcasts to [t]: aligned on the trailing axes, every size of [s] is
    the size of [t] or 1. *)
Fixpoint bc (s t : list nat) : Prop :=
  match s, t with
  | [], _ => True
  | _ :: _, [] => False
  | d :: s', e :: t' => (d = e \/ d = 1) /\ bc s' t'
  end.

(** [r] is [r'] expanded to a larger shape. *)
Definition expands_to (r' r : Tensor) : Prop :=
  bc (rshape r') (rshape r) /\
  forall idx, elt r idx = elt r' (bidx (rshape r') idx).

(** The instance with no event dimension ([info_vec] of shape [(0,)],
    [precision] of shape [(0, 0)]), [alpha = 1], [beta = 0] and
    [log_normalizer = 0]. *)
Definition degenerate : GaussianGamma.t :=
  GaussianGamma.mk (scalar 0) (vector []) (matrix 0 0 []) (scalar 1) (scalar 0).

(** [L] is a Cholesky factor of the matrices of [P]: lower triangular with a
    positive diagonal, and [L L^T = P], for every matrix of the batch. *)
Definition is_cholesky_factor (n : nat) (P L : Tensor) : Prop :=
  rshape L = rshape P /\
  forall b, in_range (skipn 2 (rshape P)) b ->
    (forall i j, i < j -> elt L (j :: i :: b) = 0%R) /\
    (forall i, i < n -> (0 < elt L (i :: i :: b))%R) /\
    (forall i j, i < n -> j < n ->
       rsum n (fun k => elt L (k :: i :: b) * elt L (k :: j :: b))%R = elt P (j :: i :: b)).

(** [w] solves [L w = v], the batch axes of [L] (of shape [bl]) and of [v]
    (of shape [bv]) broadcasting to those of [w]. *)
Definition solves (n : nat) (L w v : Tensor) (bl bv : list nat) : Prop :=
  forall idx, in_range (tl (rshape w)) idx ->
  forall i, i < n ->
    rsum n (fun j => elt L (j :: i :: bidx bl idx) * elt w (j :: idx))%R
    = elt v (i :: bidx bv idx).

(** Every matrix of the batch is symmetric. *)
Definition symmetric (P : Tensor) : Prop :=
  forall b i j, elt P (j :: i :: b) = elt P (i :: j :: b).

(** An error other than a failed assertion. *)
Definition not_assertion (e : exn) : Prop := forall l, e <> AssertionError l.

(** The outcome of an operation that builds an instance keeps the shape
    invariant: a returned instance satisfies it, and an error is not an
    assertion of the constructor. *)
Definition preserves_invariant (r : result GaussianGamma.t) : Prop :=
  match r with
  | Ok g' => valid g'
  | Raise e => ~ constructor_assertion e
  end.

(** An instance of batch shape [(3,)] whose [info_vec] and [precision] carry
    no batch axis: [log_normalizer], [alpha] and [beta] have shape [(3,)],
    [info_vec] shape [(2,)] and [precision] shape [(2, 2)]. *)
Definition unexpanded : GaussianGamma.t :=
  GaussianGamma.mk (vector [0; 0; 0]%R) (vector [0; 0]%R)
                   (matrix 2 2 [[1; 0]; [0; 1]]%R)
                   (vector [1; 1; 1]%R) (vector [1; 1; 1]%R).

(** The batch shapes that meet in [g.log_density(value, s)]. *)
Definition batch_shapes (g : GaussianGamma.t) (value s : Tensor) : list (list nat) :=
  [rshape (log_normalizer g); tl (rshape (info_vec g)); skipn 2 (rshape (precision g));
   rshape (alpha g); rshape (beta g); tl (rshape value); rshape s].

(** The entry at [idx] of
    [alpha * log(s) + s * (-0.5 * value^T precision value + value^T info_vec - beta)
     + log_normalizer]. *)
Definition log_density_formula (g : GaussianGamma.t) (value s : Tensor) (idx : list nat) : R :=
  let n := hd 0 (rshape (info_vec g)) in
  let bi := tl (rshape (info_vec g)) in
  let bp := skipn 2 (rshape (precision g)) in
  let bv := tl (rshape value) in
  let quadratic :=
    rsum n (fun i =>
      elt value (i :: bidx bv idx)
      * (-0.5 * rsum n (fun j => elt (precision g) (j :: i :: bidx bp idx)
                                 * elt value (j :: bidx bv idx))
         + elt (info_vec g) (i :: bidx bi idx)))%R in
  (elt (alpha g) (bidx (rshape (alpha g)) idx) * ln (elt s (bidx (rshape s) idx))
   + (quadratic - elt (beta g) (bidx (rshape (beta g)) idx)) * elt s (bidx (rshape s) idx)
   + elt (log_normalizer g) (bidx (rshape (log_normalizer g)) idx))%R.

(** [c] is [a + b] entry by entry, the operands broadcasting against each
    other. *)
Definition elementwise_sum (a b c : Tensor) : Prop :=
  bshape (rshape a) (rshape b) = Some (rshape c) /\
  forall idx,
    elt c idx = (elt a (bidx (rshape a) idx) + elt b (bidx (rshape b) idx))%R.

(** Two instances whose five fields have the same shapes and entries. *)
Definition same_fields (g g' : GaussianGamma.t) : Prop :=
  tensor_eq (log_normalizer g) (log_normalizer g') /\
  tensor_eq (info_vec g) (info_vec g') /\
  tensor_eq (precision g) (precision g') /\
  tensor_eq (alpha g) (alpha g') /\
  tensor_eq (beta g) (beta g').

(** The entries of the index tensor [perm], of shape [(n,)], are a
    rearrangement of [0, ..., n - 1]. *)
Definition permutation_of (n : nat) (perm : LongTensor) : Prop :=
  lrshape perm = [n] /\
  Permutation (map (fun i => lelt perm [i]) (seq 0 n)) (map Z.of_nat (seq 0 n)).

(** An index tensor of one axis. *)
Definition long_vector (zs : list Z) : LongTensor :=
  mkLongTensor [length zs] (fun idx => nth (hd 0 idx) zs 0%Z).

(** A batch of two instances of event dimension 1, every field with the
    batch shape [(2,)]: [precision = [[[1]], [[2]]]], [info_vec = [[1], [0]]]. *)
Definition batched : GaussianGamma.t :=
  GaussianGamma.mk (vector [0; 1]%R)
                   (matrix 2 1 [[1]; [0]]%R)
                   (mkTensor [1; 1; 2] (fun idx => INR (S (hd 0 (tl (tl idx))))))
                   (vector [1; 2]%R) (vector [1; 3]%R).

(** Every field of [g], [value] and [s] carry the same batch shape [B], in
    front of the event axes of size [n] (as after [expand]). *)
Definition same_batch (g : GaussianGamma.t) (value s : Tensor) (n : nat) (B : list nat) : Prop :=
  rshape (log_normalizer g) = B /\
  rshape (info_vec g) = n :: B /\
  rshape (precision g) = n :: n :: B /\
  rshape (alpha g) = B /\
  rshape (beta g) = B /\
  rshape value = n :: B /\
  rshape s = B.

(** The part that holds coordinate [i] of a concatenation, and the coordinate
    inside it, from the sizes of the parts; [locate] on the parts of any one
    field. *)
Fixpoint locate_part {A : Type} (size : A -> nat) (a0 : A) (rest : list A) (i : nat) : A * nat :=
  match rest with
  | [] => (a0, i)
  | a :: rest' =>
      if i <? size a0 then (a0, i) else locate_part size a rest' (i - size a0)
  end.

Definition total_size {A : Type} (size : A -> nat) (l : list A) : nat :=
  fold_right (fun a acc => size a + acc) 0 l.

(** The density of an instance at a point [(value, s)], when it is defined. *)
Definition density_of (x : GaussianGamma.t * Tensor * Tensor) : Tensor :=
  match log_density (fst (fst x)) (snd (fst x)) (snd x) with
  | Ok r => r
  | Raise _ => scalar 0
  end.

(** Every entry of [s] is positive: a scale [s > 0]. *)
Definition positive (s : Tensor) : Prop :=
  forall idx, in_range (rshape s) idx -> (0 < elt s idx)%R.

(** A third instance of event dimension 1, with no batch axis and a nonzero
    [info_vec]: [precision = [[3]]], [info_vec = [2]], [alpha = 4],
    [beta = 5], [log_normalizer = 1]. *)
Definition scenario3 : GaussianGamma.t :=
  GaussianGamma.mk (scalar 1) (vector [2%R]) (matrix 1 1 [[3%R]]) (scalar 4) (scalar 5).

(** ** Facts about the constructor *)

Lemma shape_eqb_eq (a b : list nat) : shape_eqb a b = true <-> a = b.
Proof.
  revert b. induction a as [| x a IH]; intros [| y b]; simpl; split; try easy.
  - intros H. apply andb_prop in H as [Hx Ha].
    apply Nat.eqb_eq in Hx. apply IH in Ha. now subst.
  - intros H. injection H as -> ->. rewrite Nat.eqb_refl. now apply IH.
Qed.

Lemma shape_eqb_refl (a : list nat) : shape_eqb a a = true.
Proof. now apply shape_eqb_eq. Qed.

Lemma init_ok (ln iv P a b : Tensor) :
  shape_invariant iv P -> init ln iv P a b = Ok (GaussianGamma.mk ln iv P a b).
Proof.
  intros (n & bi & bp & Hiv & HP). unfold init, ndim.
  rewrite Hiv, HP. simpl. now rewrite !Nat.eqb_refl.
Qed.

Lemma init_inv (ln iv P a b : Tensor) (g : GaussianGamma.t) :
  init ln iv P a b = Ok g -> g = GaussianGamma.mk ln iv P a b /\ shape_invariant iv P.
Proof.
  unfold init, ndim. intros H.
  destruct (rshape iv) as [| n bi] eqn:Hiv; simpl in H; [discriminate |].
  destruct (rshape P) as [| c [| r bp]] eqn:HP; simpl in H; try discriminate.
  destruct (Nat.eqb_spec c n) as [-> |]; [| discriminate].
  destruct (Nat.eqb_spec r n) as [-> |]; [| discriminate].
  injection H as <-.
  split; [reflexivity |]. exists n, bi, bp. now rewrite Hiv, HP.
Qed.

Lemma init_raises (ln iv P a b : Tensor) :
  ~ shape_invariant iv P ->
  exists e, init ln iv P a b = Raise e /\ constructor_assertion e.
Proof.
  intros Hn. unfold init, ndim, constructor_assertion.
  destruct (rshape iv) as [| n bi] eqn:Hiv; simpl; [eauto |].
  destruct (rshape P) as [| c [| r bp]] eqn:HP; simpl; eauto.
  destruct (Nat.eqb_spec c n) as [-> |]; simpl; [| eauto 6].
  destruct (Nat.eqb_spec r n) as [-> |]; simpl; [| eauto 6].
  elim Hn. exists n, bi, bp. now rewrite Hiv, HP.
Qed.

Lemma valid_dim (g : GaussianGamma.t) :
  valid g -> exists n, dim g = Ok n.
Proof.
  intros (n & bi & bp & Hiv & _). exists n. unfold dim, size_last. now rewrite Hiv.
Qed.

(** ** marginalize *)

(** C4: [marginalize(left, right)] with both [left > 0] and [right > 0]
    raises [NotImplementedError], whatever the instance. *)
Theorem marginalize_both_sides_not_implemented (g : GaussianGamma.t) (left right : Z) :
  (left > 0)%Z -> (right > 0)%Z ->
  marginalize g left right = Raise NotImplementedError.
Proof.
  intros Hl Hr. unfold marginalize.
  replace (left =? 0)%Z with false by (symmetry; apply Z.eqb_neq; lia).
  replace (left >? 0)%Z with true by (symmetry; apply Z.gtb_gt; lia).
  replace (right >? 0)%Z with true by (symmetry; apply Z.gtb_gt; lia).
  reflexivity.
Qed.

Lemma marginalize_both_sides_not_implemented_witness :
  marginalize scenario 1 2 = Raise NotImplementedError.
Proof.
  apply (@marginalize_both_sides_not_implemented scenario 1 2); lia.
Defined.

(** C9: [marginalize(0, 0)], which is also [marginalize()] with its default
    arguments, returns the instance itself, so all five fields are those of
    [g]. *)
Theorem marginalize_nothing_is_identity (g : GaussianGamma.t) :
  marginalize g 0 0 = Ok g.
Proof. reflexivity. Qed.

(** Evaluation of the model on concrete tensors. *)
Ltac norm_pos :=
  repeat match goal with
  | |- context [Pos.to_nat ?p] =>
      let v := eval vm_compute in (Pos.to_nat p) in change (Pos.to_nat p) with v
  end.

Ltac evaluate := repeat (progress (cbn; norm_pos)).

Lemma Rpositive_true (x : R) : (0 < x)%R -> Rpositive x = true.
Proof.
  intros H. unfold Rpositive. destruct (Rlt_dec 0 x); [reflexivity | contradiction].
Qed.

Lemma Rpositive_pos (x : R) : Rpositive x = true -> (0 < x)%R.
Proof.
  unfold Rpositive. destruct (Rlt_dec 0 x); [trivial | discriminate].
Qed.

Lemma bind_Ok {A B : Type} (m : result A) (k : A -> result B) (b : B) :
  bind m k = Ok b -> exists a, m = Ok a /\ k a = Ok b.
Proof. destruct m as [a | e]; simpl; [eauto | discriminate]. Qed.

(** Splits a successful run of a sequence of operations into its steps. *)
Ltac invert_run H :=
  repeat match type of H with
  | bind _ _ = Ok _ =>
      let x := fresh "x" in
      let Hx := fresh "Hx" in
      apply bind_Ok in H as (x & Hx & H)
  end.

(** C3: [marginalize] with exactly one of [left], [right] positive does not
    return an instance carrying [g.alpha] and [g.beta]: the constructor call
    that ends it omits [alpha] and [beta], so it raises [TypeError] on the
    scenario instance with [left = 1], and the only call of
    [marginalize] that returns at all is [marginalize(0, 0)]. *)
Theorem marginalize_one_sided_raises :
  marginalize scenario 1 0 = Raise TypeError /\
  marginalize scenario 0 1 = Raise TypeError /\
  forall (g g' : GaussianGamma.t) (left right : Z),
    marginalize g left right = Ok g' -> left = 0%Z /\ right = 0%Z /\ g' = g.
Proof.
  split; [| split].
  - unfold marginalize, scenario. evaluate.
    unfold cholesky. evaluate. unfold mat_at; cbn.
    rewrite Rpositive_true by lra. now evaluate.
  - unfold marginalize, scenario. evaluate.
    unfold cholesky. evaluate. unfold mat_at; cbn.
    rewrite Rpositive_true by lra. now evaluate.
  - intros g g' l r H. unfold marginalize in H.
    destruct (Z.eqb_spec l 0) as [El | Hl]; simpl in H.
    + destruct (Z.eqb_spec r 0) as [Er | Hr]; simpl in H.
      * now injection H as <-.
      * subst l. simpl in H. invert_run H. discriminate.
    + destruct ((l >? 0)%Z && (r >? 0)%Z); [discriminate |].
      invert_run H. discriminate.
Qed.

(** ** Shape contracts *)

(** C7: a violated shape contract raises an [AssertionError] instead of
    returning: the constructor when [info_vec] has no axis, [precision] has
    fewer than two, or the trailing sizes do not agree; [__add__] when the two
    [dim()] differ; [condition] when the value is longer than [dim()];
    [event_permute] when [perm.shape] is not [(dim(),)]. *)
Theorem shape_contract_violations_raise :
  (forall ln iv P a b,
      ndim iv < 1 \/ ndim P < 2 \/ ~ shape_invariant iv P ->
      exists e, init ln iv P a b = Raise e /\ constructor_assertion e) /\
  (forall g1 g2 n m,
      dim g1 = Ok n -> dim g2 = Ok m -> n <> m ->
      add g1 g2 = Raise (AssertionError 155)) /\
  (forall g value n k,
      dim g = Ok n -> size_last value = Ok k -> n < k ->
      condition g value = Raise (AssertionError 194)) /\
  (forall g perm n,
      dim g = Ok n -> lshape perm <> [n] ->
      event_permute g perm = Raise (AssertionError 145)).
Proof.
  repeat split.
  - intros ln iv P a b H. apply init_raises. intros (n & bi & bp & Hiv & HP).
    unfold ndim in H. rewrite Hiv, HP in H. simpl in H.
    destruct H as [H | [H | H]]; try lia. apply H. now exists n, bi, bp.
  - intros g1 g2 n m H1 H2 Hne. unfold add. rewrite H1, H2. simpl.
    now destruct (Nat.eqb_spec n m).
  - intros g value n k Hn Hk Hlt. unfold condition. unfold dim in Hn.
    rewrite Hk, Hn. simpl.
    now destruct (Nat.leb_spec k n); [lia |].
  - intros g perm n Hn Hne. unfold event_permute. rewrite Hn. simpl.
    destruct (shape_eqb (lshape perm) [n]) eqn:E; [| reflexivity].
    now apply shape_eqb_eq in E.
Qed.

Lemma shape_contract_violations_raise_witness :
  (exists e, init (scalar 0) (scalar 0) (matrix 1 1 [[2%R]]) (scalar 0) (scalar 0) = Raise e
             /\ constructor_assertion e) /\
  add scenario scenario2 = Raise (AssertionError 155) /\
  condition scenario (vector [1%R; 1%R]) = Raise (AssertionError 194) /\
  event_permute scenario (mkLongTensor [2] (fun _ => 0%Z)) = Raise (AssertionError 145).
Proof.
  destruct shape_contract_violations_raise as (Hinit & Hadd & Hcond & Hperm).
  split; [| split; [| split]].
  - apply Hinit. left. unfold ndim. simpl. lia.
  - apply (Hadd scenario scenario2 1 2); [reflexivity | reflexivity | lia].
  - apply (Hcond scenario (vector [1%R; 1%R]) 1 2); [reflexivity | reflexivity | lia].
  - apply (Hperm scenario (mkLongTensor [2] (fun _ => 0%Z)) 1); [reflexivity |].
    simpl. discriminate.
Defined.

(** ** event_pad *)

Lemma unpad_spec (l : nat) (d i : nat) :
  unpad (Z.of_nat l) d i = if (l <=? i) && (i <? l + d) then Some (i - l) else None.
Proof.
  unfold unpad.
  destruct (Nat.leb_spec l i); destruct (Nat.ltb_spec i (l + d)); simpl.
  - replace (0 <=? Z.of_nat i - Z.of_nat l)%Z with true by (symmetry; apply Z.leb_le; lia).
    replace (Z.of_nat i - Z.of_nat l <? Z.of_nat d)%Z with true
      by (symmetry; apply Z.ltb_lt; lia).
    simpl. f_equal. lia.
  - replace (Z.of_nat i - Z.of_nat l <? Z.of_nat d)%Z with false
      by (symmetry; apply Z.ltb_ge; lia).
    now rewrite andb_false_r.
  - now replace (0 <=? Z.of_nat i - Z.of_nat l)%Z with false
      by (symmetry; apply Z.leb_gt; lia).
  - now replace (0 <=? Z.of_nat i - Z.of_nat l)%Z with false
      by (symmetry; apply Z.leb_gt; lia).
Qed.

Lemma overcropped_of_nat (d l r : nat) : overcropped d (Z.of_nat l) (Z.of_nat r) = false.
Proof. unfold overcropped. apply Z.ltb_ge. lia. Qed.

(** C8: for non-negative [left] and [right], [event_pad(left, right)] returns
    an instance whose [log_normalizer], [alpha] and [beta] are those of [g];
    [info_vec] is zero-padded by [left] and [right] entries and [precision]
    by the same amounts on both trailing axes. *)
Theorem event_pad_changes_only_info_vec_and_precision
    (g : GaussianGamma.t) (left right : Z) :
  valid g -> (0 <= left)%Z -> (0 <= right)%Z ->
  exists g',
    event_pad g left right = Ok g' /\
    log_normalizer g' = log_normalizer g /\
    alpha g' = alpha g /\
    beta g' = beta g /\
    zero_padded1 (Z.to_nat left) (Z.to_nat right) (info_vec g) (info_vec g') /\
    zero_padded2 (Z.to_nat left) (Z.to_nat right) (precision g) (precision g').
Proof.
  intros (n & bi & bp & Hiv & HP) Hl Hr.
  rewrite <- (Z2Nat.id left Hl), <- (Z2Nat.id right Hr), !Nat2Z.id.
  generalize (Z.to_nat left) (Z.to_nat right). clear left right Hl Hr. intros l r.
  unfold event_pad, pad1, pad2. rewrite Hiv, HP, overcropped_of_nat.
  simpl.
  replace (Z.to_nat (Z.of_nat n + Z.of_nat l + Z.of_nat r)) with (l + n + r) by lia.
  rewrite init_ok by (eexists _, _, _; simpl; split; reflexivity).
  eexists. split; [reflexivity |]. simpl. repeat split.
  - exists n, bi. repeat split; [assumption |]. intros i idx. simpl.
    rewrite unpad_spec. now destruct ((l <=? i) && (i <? l + n)).
  - exists n, n, bp. repeat split; [assumption |]. intros j i idx. simpl.
    rewrite !unpad_spec.
    destruct ((l <=? j) && (j <? l + n)); destruct ((l <=? i) && (i <? l + n)); reflexivity.
Qed.

Lemma event_pad_changes_only_info_vec_and_precision_witness :
  exists g',
    event_pad scenario 1 2 = Ok g' /\
    log_normalizer g' = log_normalizer scenario /\
    alpha g' = alpha scenario /\
    beta g' = beta scenario /\
    zero_padded1 1 2 (info_vec scenario) (info_vec g') /\
    zero_padded2 1 2 (precision scenario) (precision g').
Proof.
  apply (@event_pad_changes_only_info_vec_and_precision scenario 1 2); [| lia | lia].
  exists 1, [], []. split; reflexivity.
Defined.

(** ** condition *)

(** C2: conditioning on a trailing suffix does not preserve the log-density.
    On the instance with [precision = diag(1, 2)], [info_vec = [0, 0]],
    [alpha = beta = log_normalizer = 0], at [x = [1, 1]] split into
    [left = [1]] and [right = [1]] and at [s = 1], [g.log_density(x, s)]
    is [-1.5] while [g.condition(right).log_density(left, s)] is [0.5]: the
    terms that [condition] moves into [beta] carry the wrong sign. *)
Theorem condition_changes_log_density :
  exists r1 r2,
    log_density scenario2 (vector [1; 1]%R) (scalar 1) = Ok r1 /\
    (c <- condition scenario2 (vector [1%R]) ;;
     log_density c (vector [1%R]) (scalar 1)) = Ok r2 /\
    rshape r1 = [] /\ rshape r2 = [] /\
    elt r1 [] = (-1.5)%R /\ elt r2 [] = 0.5%R.
Proof.
  eexists. eexists. split; [| split].
  - unfold log_density, scenario2. evaluate. reflexivity.
  - unfold condition, log_density, scenario2. evaluate. reflexivity.
  - evaluate. repeat split; rewrite ?ln_1; lra.
Qed.

(** ** Broadcasting algebra *)

Lemma bc_refl (s : list nat) : bc s s.
Proof. induction s; simpl; auto. Qed.

Lemma bc_trans (s t u : list nat) : bc s t -> bc t u -> bc s u.
Proof.
  revert t u. induction s as [| d s IH]; intros [| e t] [| f u]; simpl; try tauto.
  intros [Hd Hs] [He Ht]. split; [| eauto].
  destruct Hd as [-> | ->]; auto.
Qed.

Lemma bc_antisym (s t : list nat) : bc s t -> bc t s -> s = t.
Proof.
  revert t. induction s as [| d s IH]; intros [| e t]; simpl; try tauto.
  intros [Hd Hs] [He Ht]. f_equal; [| auto].
  destruct Hd as [-> | ->]; destruct He as [He | He]; congruence.
Qed.

Lemma bc_length (s t : list nat) : bc s t -> length s <= length t.
Proof.
  revert t. induction s as [| d s IH]; intros [| e t]; simpl; try tauto; try lia.
  intros [_ Hs]. apply IH in Hs. lia.
Qed.

Lemma bdim_Some (x y d : nat) :
  bdim x y = Some d -> (x = d \/ x = 1) /\ (y = d \/ y = 1) /\ (d = x \/ d = y).
Proof.
  unfold bdim.
  destruct (Nat.eqb_spec x y); [intros [= <-]; subst; auto |].
  destruct (Nat.eqb_spec x 1); [intros [= <-]; subst; auto |].
  destruct (Nat.eqb_spec y 1); [intros [= <-]; subst; auto | discriminate].
Qed.

Lemma bdim_exists (x y e : nat) :
  (x = e \/ x = 1) -> (y = e \/ y = 1) ->
  exists d, bdim x y = Some d /\ (d = e \/ d = 1).
Proof.
  intros Hx Hy. unfold bdim.
  destruct (Nat.eqb_spec x y); [exists x; auto |].
  destruct (Nat.eqb_spec x 1); [exists y; auto |].
  destruct (Nat.eqb_spec y 1); [exists x; auto |].
  destruct Hx, Hy; congruence.
Qed.

Lemma bshape_nil_r (a : list nat) : bshape a [] = Some a.
Proof. now destruct a. Qed.

Lemma bshape_bc (a b t : list nat) :
  bshape a b = Some t -> bc a t /\ bc b t.
Proof.
  revert b t. induction a as [| x a IH]; intros b t; simpl.
  - intros [= <-]. split; [exact I | apply bc_refl].
  - destruct b as [| y b].
    + intros [= <-]. split; [apply (bc_refl (x :: a)) | exact I].
    + destruct (bdim x y) as [d |] eqn:Hd; [| discriminate].
      destruct (bshape a b) as [r |] eqn:Hr; [| discriminate].
      intros [= <-]. apply bdim_Some in Hd as (Hx & Hy & _).
      apply IH in Hr as [Ha Hb]. simpl. tauto.
Qed.

Lemma bshape_least (a b t u : list nat) :
  bshape a b = Some t -> bc a u -> bc b u -> bc t u.
Proof.
  revert b t u. induction a as [| x a IH]; intros b t u; simpl.
  - now intros [= <-].
  - destruct b as [| y b].
    + now intros [= <-].
    + destruct (bdim x y) as [d |] eqn:Hd; [| discriminate].
      destruct (bshape a b) as [r |] eqn:Hr; [| discriminate].
      intros [= <-]. destruct u as [| e u]; simpl; [tauto |].
      intros [Hx Ha] [Hy Hb]. split; [| eauto].
      apply bdim_Some in Hd as (_ & _ & [-> | ->]); assumption.
Qed.

Lemma bshape_exists (a b u : list nat) :
  bc a u -> bc b u -> exists t, bshape a b = Some t.
Proof.
  revert b u. induction a as [| x a IH]; intros b u; simpl; [eauto |].
  destruct b as [| y b]; [eauto |].
  destruct u as [| e u]; simpl; [tauto |].
  intros [Hx Ha] [Hy Hb].
  destruct (bdim_exists Hx Hy) as (d & -> & _).
  destruct (IH b u Ha Hb) as (r & ->). eauto.
Qed.

Lemma bshape_join (a b u : list nat) :
  bc a u -> bc b u -> exists t, bshape a b = Some t /\ bc a t /\ bc b t /\ bc t u.
Proof.
  intros Ha Hb. destruct (bshape_exists _ _ _ Ha Hb) as (t & Ht).
  exists t. destruct (bshape_bc _ _ Ht). eauto using bshape_least.
Qed.

Lemma bidx_bc (s t idx : list nat) : bc s t -> bidx s (bidx t idx) = bidx s idx.
Proof.
  revert t idx. induction s as [| d s IH]; intros [| e t] [| i idx]; simpl; try tauto.
  intros [Hd Hs]. rewrite (IH _ _ Hs). f_equal.
  destruct (Nat.eqb_spec d 1); [reflexivity |].
  destruct (Nat.eqb_spec e 1); [| reflexivity]. lia.
Qed.

Lemma bidx_in_range (s t idx : list nat) :
  bc s t -> in_range t idx -> in_range s (bidx s idx).
Proof.
  revert t idx. induction s as [| d s IH]; intros [| e t] idx; simpl; try tauto.
  - intros _ _. destruct idx; constructor.
  - intros _ _. constructor.
  - intros [Hd Hs] Hr. inversion Hr as [| i ? idx' ? Hi Hr']; subst.
    constructor; [| eapply IH; eauto].
    destruct (Nat.eqb_spec d 1); lia.
Qed.

Lemma bidx_id (s idx : list nat) : in_range s idx -> bidx s idx = idx.
Proof.
  revert idx. induction s as [| d s IH]; intros idx Hr; inversion Hr; subst; simpl.
  - reflexivity.
  - rewrite IH by assumption. f_equal.
    destruct (Nat.eqb_spec d 1); lia.
Qed.

Lemma broadcast_shape_Ok (l : list (list nat)) (t : list nat) :
  broadcast_shape l = Ok t ->
  Forall (fun s => bc s t) l /\ forall u, Forall (fun s => bc s u) l -> bc t u.
Proof.
  revert t. induction l as [| s l IH]; intros t; simpl.
  - intros [= <-]. split; [constructor | intros; exact I].
  - destruct (broadcast_shape l) as [r | e]; simpl; [| discriminate].
    destruct (bshape s r) as [t' |] eqn:Ht; [| discriminate].
    intros [= <-]. destruct (IH r eq_refl) as [Hub Hleast].
    destruct (bshape_bc _ _ Ht) as [Hs Hr]. split.
    + constructor; [assumption |].
      eapply Forall_impl; [| exact Hub]. intros a Ha. exact (bc_trans _ _ _ Ha Hr).
    + intros u Hu. inversion Hu as [| ? ? Hsu Hlu]; subst.
      eapply bshape_least; [exact Ht | exact Hsu | now apply Hleast].
Qed.

Lemma broadcast_shape_exists (l : list (list nat)) (u : list nat) :
  Forall (fun s => bc s u) l -> exists t, broadcast_shape l = Ok t /\ bc t u.
Proof.
  induction l as [| s l IH]; intros Hu; simpl.
  - exists []. split; [reflexivity | exact I].
  - inversion Hu as [| ? ? Hs Hl]; subst.
    destruct (IH Hl) as (r & -> & Hr). simpl.
    destruct (bshape_join _ _ _ Hs Hr) as (t & -> & _ & _ & Ht). eauto.
Qed.

Lemma expand_shape_nil (B : list nat) : expand_shape [] (map Z.of_nat B) = Some B.
Proof.
  induction B as [| e B IH]; simpl; [reflexivity |].
  replace (Z.of_nat e <? 0)%Z with false by (symmetry; apply Z.ltb_ge; lia).
  rewrite IH. simpl. now rewrite Nat2Z.id.
Qed.

Lemma expand_shape_of_nat (s B t : list nat) :
  expand_shape s (map Z.of_nat B) = Some t -> t = B /\ bc s B.
Proof.
  revert B t. induction s as [| d s IH]; intros [| e B] t.
  - simpl. now intros [= <-].
  - rewrite expand_shape_nil. now intros [= <-].
  - discriminate.
  - simpl.
    replace (Z.of_nat e =? -1)%Z with false by (symmetry; apply Z.eqb_neq; lia).
    simpl. destruct (Z.eqb_spec (Z.of_nat e) (Z.of_nat d)) as [E | E].
    + apply Nat2Z.inj in E. subst e.
      destruct (expand_shape s (map Z.of_nat B)) as [r |] eqn:Hr; simpl; [| discriminate].
      intros [= <-]. apply IH in Hr as [-> Hb]. auto.
    + destruct (Nat.eqb_spec d 1) as [-> |]; simpl; [| discriminate].
      replace (0 <=? Z.of_nat e)%Z with true by (symmetry; apply Z.leb_le; lia).
      destruct (expand_shape s (map Z.of_nat B)) as [r |] eqn:Hr; simpl; [| discriminate].
      intros [= <-]. apply IH in Hr as [-> Hb]. rewrite Nat2Z.id. auto.
Qed.

Lemma texpand_of_nat (t l : Tensor) (B : list nat) :
  texpand t (map Z.of_nat (rev B)) = Ok l ->
  rshape l = B /\ bc (rshape t) B /\
  forall idx, elt l idx = elt t (bidx (rshape t) idx).
Proof.
  unfold texpand. rewrite <- map_rev, rev_involutive.
  destruct (expand_shape (rshape t) (map Z.of_nat B)) as [s |] eqn:Hs; [| discriminate].
  intros [= <-]. apply expand_shape_of_nat in Hs as [-> Hb]. simpl. auto.
Qed.

Lemma binop_Ok (f : R -> R -> R) (a b r : Tensor) :
  broadcast_binop f a b = Ok r ->
  bshape (rshape a) (rshape b) = Some (rshape r) /\
  forall idx, elt r idx = f (elt a (bidx (rshape a) idx)) (elt b (bidx (rshape b) idx)).
Proof.
  unfold broadcast_binop.
  destruct (bshape (rshape a) (rshape b)) as [s |]; [| discriminate].
  intros [= <-]. simpl. auto.
Qed.

Lemma binop_join (f : R -> R -> R) (a b : Tensor) (u : list nat) :
  bc (rshape a) u -> bc (rshape b) u ->
  exists r, broadcast_binop f a b = Ok r /\ bc (rshape r) u.
Proof.
  intros Ha Hb. unfold broadcast_binop.
  destruct (bshape_join _ _ _ Ha Hb) as (t & -> & _ & _ & Ht). eauto.
Qed.

Lemma expand_shape_bc (s B : list nat) :
  bc s B -> expand_shape s (map Z.of_nat B) = Some B.
Proof.
  revert B. induction s as [| d s IH]; intros B.
  - intros _. apply expand_shape_nil.
  - destruct B as [| e B]; simpl; [tauto |]. intros [Hd Hs].
    replace (Z.of_nat e =? -1)%Z with false by (symmetry; apply Z.eqb_neq; lia).
    rewrite (IH _ Hs). simpl.
    destruct (Z.eqb_spec (Z.of_nat e) (Z.of_nat d)) as [E | E].
    + apply Nat2Z.inj in E. now subst.
    + destruct Hd as [-> | ->]; [now elim E |]. simpl.
      replace (0 <=? Z.of_nat e)%Z with true by (symmetry; apply Z.leb_le; lia).
      now rewrite Nat2Z.id.
Qed.

Lemma texpand_bc (t : Tensor) (B : list nat) :
  bc (rshape t) B ->
  texpand t (map Z.of_nat (rev B)) =
  Ok (mkTensor B (fun idx => elt t (bidx (rshape t) idx))).
Proof.
  intros Hb. unfold texpand. rewrite <- map_rev, rev_involutive.
  now rewrite (expand_shape_bc _ _ Hb).
Qed.

(** A broadcasting operation on operands that fit a common shape [u]
    succeeds, and its result is the least shape both operands fit. *)
Lemma binop_total (f : R -> R -> R) (a b : Tensor) (u : list nat) :
  bc (rshape a) u -> bc (rshape b) u ->
  exists r,
    broadcast_binop f a b = Ok r /\
    bc (rshape a) (rshape r) /\ bc (rshape b) (rshape r) /\ bc (rshape r) u /\
    (forall v, bc (rshape a) v -> bc (rshape b) v -> bc (rshape r) v) /\
    forall idx, elt r idx = f (elt a (bidx (rshape a) idx)) (elt b (bidx (rshape b) idx)).
Proof.
  intros Ha Hb. unfold broadcast_binop.
  destruct (bshape_join _ _ _ Ha Hb) as (t & Ht & Hat & Hbt & Htu). rewrite Ht.
  eexists. split; [reflexivity |]. simpl. repeat split; auto.
  intros v Hav Hbv. eapply bshape_least; eauto.
Qed.

Ltac bc_chain n :=
  match goal with
  | |- bc ?s ?s => apply bc_refl
  | H : bc ?s ?t |- bc ?s ?t => exact H
  | H : bc ?s ?m |- bc ?s ?t =>
      match n with
      | S ?k => apply (bc_trans _ _ _ H); bc_chain k
      end
  end.

Ltac bc_solve := cbn [rshape tlog tpow2 smul ssub sadd rsub tmap] in *; solve [bc_chain 4].

Ltac binop_step f a b u r :=
  let Hrun := fresh "Hrun_" r in
  let Hl := fresh "Hl_" r in
  let Hr := fresh "Hr_" r in
  let Hu := fresh "Hu_" r in
  let Hleast := fresh "Hleast_" r in
  let Helt := fresh "Helt_" r in
  destruct (@binop_total f a b u) as (r & Hrun & Hl & Hr & Hu & Hleast & Helt);
  [ try bc_solve | try bc_solve | ].

(** ** The degenerate case of log_density *)

(** C6, as the code has it: with an empty [value] and a scale [s > 0],
    [log_density(value, s)] is [alpha * log(s) - beta * s + log_normalizer],
    which is the density of [Gamma(log_normalizer, alpha + 1, beta)] (the
    shape parameter shifted by one, as the reparameterization
    [alpha = Gamma.alpha + 0.5 * dim - 1] gives at [dim = 0]), expanded to the
    shape implied by [value] and the batch shape.  It holds, and the call
    returns, whenever the fields, [value] and [s] broadcast to a common
    shape. *)
Theorem degenerate_log_density_is_shifted_gamma
    (g : GaussianGamma.t) (value s : Tensor) (u : list nat) :
  size_last value = Ok 0 ->
  positive s ->
  Forall (fun sh => bc sh u)
    [rshape (log_normalizer g); tl (rshape (info_vec g)); skipn 2 (rshape (precision g));
     rshape (alpha g); rshape (beta g); tl (rshape value); rshape s] ->
  exists r r',
    log_density g value s = Ok r /\
    Gamma.log_density (Gamma.mk (log_normalizer g) (sadd (alpha g) 1) (beta g)) s = Ok r' /\
    expands_to r' r /\
    forall idx,
      elt r idx =
      (elt (alpha g) (bidx (rshape (alpha g)) idx) * ln (elt s (bidx (rshape s) idx))
       - elt (beta g) (bidx (rshape (beta g)) idx) * elt s (bidx (rshape s) idx)
       + elt (log_normalizer g) (bidx (rshape (log_normalizer g)) idx))%R.
Proof.
  intros Hv _ Hall.
  assert (Hb5 := Hall).
  inversion Hall as [| ? ? Hln H1]; subst. inversion H1 as [| ? ? Hiv H2]; subst.
  inversion H2 as [| ? ? HP H3]; subst. inversion H3 as [| ? ? Hal H4]; subst.
  inversion H4 as [| ? ? Hbe H5]; subst. inversion H5 as [| ? ? Hva H6]; subst.
  inversion H6 as [| ? ? Hs _]; subst. clear H1 H2 H3 H4 H5 H6.
  unfold log_density. rewrite Hv. cbn [bind Nat.eqb].
  destruct (@broadcast_shape_exists
              [rshape (log_normalizer g); tl (rshape (info_vec g));
               skipn 2 (rshape (precision g)); rshape (alpha g); rshape (beta g)] u)
    as (bs & Hbs & Hbsu); [repeat constructor; assumption |].
  unfold batch_shape. rewrite Hbs. cbn [bind].
  destruct (@broadcast_shape_exists [tl (rshape value); bs] u) as (B & HB & HBu);
    [repeat constructor; assumption |].
  rewrite HB. cbn [bind].
  binop_step Rmult (alpha g) (tlog s) u a.
  binop_step Rmult (beta g) s u b.
  binop_step Rminus a b u c.
  unfold tmul, tsub, tadd. rewrite Hrun_a, Hrun_b. cbn [bind]. rewrite Hrun_c. cbn [bind].
  apply broadcast_shape_Ok in Hbs as [Hbs _]. inversion Hbs as [| ? ? Hlnbs _]; subst.
  apply broadcast_shape_Ok in HB as [HB _].
  inversion HB as [| ? ? HvB HB']; subst. inversion HB' as [| ? ? HbsB _]; subst.
  assert (HlnB : bc (rshape (log_normalizer g)) B) by (eapply bc_trans; eauto).
  rewrite (texpand_bc _ _ HlnB). cbn [bind].
  set (l := {| rshape := B |}).
  binop_step Rplus c l u r.
  rewrite Hrun_r. exists r.
  assert (Hs_r : bc (rshape s) (rshape r)) by (eapply bc_trans; [exact Hr_b |]; bc_solve).
  assert (Hal_r : bc (rshape (alpha g)) (rshape r)) by bc_solve.
  assert (Hbe_r : bc (rshape (beta g)) (rshape r)) by bc_solve.
  assert (Hln_r : bc (rshape (log_normalizer g)) (rshape r))
    by (eapply bc_trans; [exact HlnB | exact Hr_r]).
  unfold Gamma.log_density. cbn [Gamma.alpha Gamma.beta Gamma.log_normalizer].
  binop_step Rmult (ssub (sadd (alpha g) 1) 1) (tlog s) (rshape r) a'.
  binop_step Rplus (log_normalizer g) a' (rshape r) b'.
  binop_step Rmult (beta g) s (rshape r) c'.
  binop_step Rminus b' c' (rshape r) r'.
  unfold tmul, tsub, tadd. rewrite Hrun_a'. cbn [bind]. rewrite Hrun_b'. cbn [bind].
  rewrite Hrun_c'. cbn [bind]. rewrite Hrun_r'.
  exists r'. split; [reflexivity |]. split; [reflexivity |].
  assert (Hformula : forall idx,
      elt r idx =
      (elt (alpha g) (bidx (rshape (alpha g)) idx) * ln (elt s (bidx (rshape s) idx))
       - elt (beta g) (bidx (rshape (beta g)) idx) * elt s (bidx (rshape s) idx)
       + elt (log_normalizer g) (bidx (rshape (log_normalizer g)) idx))%R).
  { intros idx. rewrite Helt_r, Helt_c, Helt_a, Helt_b. subst l.
    cbn [elt rshape tlog tmap].
    rewrite !bidx_bc by bc_solve. reflexivity. }
  split; [split; [exact Hu_r' |] | exact Hformula].
  intros idx. rewrite Hformula, Helt_r', Helt_b', Helt_c', Helt_a'.
  cbn [elt rshape tlog ssub sadd tmap].
  rewrite !bidx_bc by bc_solve. ring.
Qed.

Lemma degenerate_log_density_is_shifted_gamma_witness :
  exists r r',
    log_density degenerate (vector []) (scalar 2) = Ok r /\
    Gamma.log_density
      (Gamma.mk (log_normalizer degenerate) (sadd (alpha degenerate) 1) (beta degenerate))
      (scalar 2) = Ok r' /\
    expands_to r' r /\
    forall idx,
      elt r idx =
      (elt (alpha degenerate) (bidx (rshape (alpha degenerate)) idx)
       * ln (elt (scalar 2) (bidx (rshape (scalar 2)) idx))
       - elt (beta degenerate) (bidx (rshape (beta degenerate)) idx)
         * elt (scalar 2) (bidx (rshape (scalar 2)) idx)
       + elt (log_normalizer degenerate) (bidx (rshape (log_normalizer degenerate)) idx))%R.
Proof.
  apply (@degenerate_log_density_is_shifted_gamma degenerate (vector []) (scalar 2) []).
  - reflexivity.
  - intros idx _. simpl. lra.
  - repeat constructor.
Defined.

(** C6, as the spec states it, fails: on the degenerate instance with
    [alpha = 1], [beta = 0], [log_normalizer = 0] and at the scale [s = 2 > 0],
    [log_density(empty, s)] is [log 2] while
    [Gamma(log_normalizer, alpha, beta).log_density(s)] is [0]. *)
Lemma degenerate_log_density_is_not_gamma_of_same_scalars :
  exists r1 r2,
    log_density degenerate (vector []) (scalar 2) = Ok r1 /\
    Gamma.log_density
      (Gamma.mk (log_normalizer degenerate) (alpha degenerate) (beta degenerate))
      (scalar 2) = Ok r2 /\
    elt r1 [] <> elt r2 [].
Proof.
  eexists. eexists. split; [| split].
  - unfold log_density, degenerate. evaluate. reflexivity.
  - unfold Gamma.log_density, degenerate. evaluate. reflexivity.
  - evaluate. pose proof ln_lt_2. lra.
Qed.

(** ** Finite sums *)

Lemma rsum_ext (n : nat) (f g : nat -> R) :
  (forall k, k < n -> f k = g k) -> rsum n f = rsum n g.
Proof.
  induction n as [| n IH]; intros H; simpl; [reflexivity |].
  rewrite IH by (intros k Hk; apply H; lia). rewrite H by lia. reflexivity.
Qed.

Lemma rsum_zero (n : nat) (f : nat -> R) :
  (forall k, k < n -> f k = 0%R) -> rsum n f = 0%R.
Proof.
  induction n as [| n IH]; intros H; simpl; [reflexivity |].
  rewrite IH by (intros k Hk; apply H; lia). rewrite H by lia. lra.
Qed.

Lemma rsum_trunc (m n : nat) (f : nat -> R) :
  m <= n -> (forall k, m <= k < n -> f k = 0%R) -> rsum n f = rsum m f.
Proof.
  intros Hmn. induction Hmn as [| n Hmn IH]; intros H; [reflexivity |].
  simpl. rewrite IH by (intros k Hk; apply H; lia). rewrite H by lia. lra.
Qed.

Lemma rsum_plus (n : nat) (f g : nat -> R) :
  rsum n (fun k => f k + g k)%R = (rsum n f + rsum n g)%R.
Proof. induction n as [| n IH]; simpl; [lra | rewrite IH; lra]. Qed.

Lemma rsum_scal (n : nat) (c : R) (f : nat -> R) :
  rsum n (fun k => c * f k)%R = (c * rsum n f)%R.
Proof. induction n as [| n IH]; simpl; [lra | rewrite IH; lra]. Qed.

(** ** Correctness of the factorisation and of the triangular solve *)

Section Cholesky.

Variable A : nat -> nat -> R.
Variable n : nat.
Hypothesis pivots_positive : forall j, j < n -> (0 < schur A j j j)%R.

Lemma chol_col_mul (i j k : nat) :
  (0 < schur A k k k)%R ->
  (chol_col A i k * chol_col A j k = schur A k i k * schur A k j k / schur A k k k)%R.
Proof.
  intros Hp. unfold chol_col.
  assert (Hs : (0 < sqrt (schur A k k k))%R) by now apply sqrt_lt_R0.
  assert (Hsq : (sqrt (schur A k k k) * sqrt (schur A k k k) = schur A k k k)%R)
    by (apply sqrt_sqrt; lra).
  rewrite <- Hsq at 3. field. lra.
Qed.

Lemma schur_sum (k : nat) :
  k <= n ->
  forall i j,
    schur A k i j = (A i j - rsum k (fun l => chol_col A i l * chol_col A j l))%R.
Proof.
  induction k as [| k IH]; intros Hk i j; simpl; [lra |].
  rewrite chol_col_mul by (apply pivots_positive; lia).
  rewrite (IH ltac:(lia) i j). lra.
Qed.

Lemma chol_upper_zero (i j : nat) : i < j -> chol A i j = 0%R.
Proof. intros H. unfold chol. now destruct (Nat.ltb_spec i j); [| lia]. Qed.

Lemma chol_diag_positive (i : nat) : i < n -> (0 < chol A i i)%R.
Proof.
  intros Hi. unfold chol, chol_col. rewrite Nat.ltb_irrefl.
  assert (Hp : (0 < schur A i i i)%R) by now apply pivots_positive.
  assert (Hs : (0 < sqrt (schur A i i i))%R) by now apply sqrt_lt_R0.
  apply Rdiv_lt_0_compat; assumption.
Qed.

Lemma chol_product_lower (i j : nat) :
  j <= i -> i < n ->
  rsum n (fun k => chol A i k * chol A j k)%R = A i j.
Proof.
  intros Hji Hi.
  rewrite (@rsum_trunc (S j) n)
    by (try lia; intros k Hk; rewrite (@chol_upper_zero j k) by lia; lra).
  simpl.
  rewrite (@rsum_ext j _ (fun k => chol_col A i k * chol_col A j k)%R).
  2:{ intros k Hk. unfold chol.
      destruct (Nat.ltb_spec i k); [lia |]. destruct (Nat.ltb_spec j k); [lia |].
      reflexivity. }
  pose proof (@schur_sum j ltac:(lia) i j) as Hsum.
  assert (Hp : (0 < schur A j j j)%R) by (apply pivots_positive; lia).
  unfold chol. destruct (Nat.ltb_spec i j); [lia |]. rewrite Nat.ltb_irrefl.
  rewrite chol_col_mul by assumption.
  replace (schur A j i j * schur A j j j / schur A j j j)%R
    with (schur A j i j) by (field; lra).
  lra.
Qed.

Lemma chol_product (i j : nat) :
  (forall a b, A a b = A b a) -> i < n -> j < n ->
  rsum n (fun k => chol A i k * chol A j k)%R = A i j.
Proof.
  intros Hsym Hi Hj. destruct (Nat.le_gt_cases j i) as [Hle | Hlt].
  - now apply chol_product_lower.
  - rewrite Hsym, <- (@chol_product_lower j i) by lia.
    apply rsum_ext. intros k _. lra.
Qed.

End Cholesky.

Section ForwardSubstitution.

Variable L : nat -> nat -> R.
Variable b : nat -> R.
Variable n : nat.
Hypothesis lower : forall i j, i < j -> L i j = 0%R.
Hypothesis diagonal_nonzero : forall i, i < n -> L i i <> 0%R.

Lemma fwd_rhs_sum (k i : nat) :
  fwd_rhs L b k i = (b i - rsum k (fun l => L i l * fwd_solve L b l))%R.
Proof.
  induction k as [| k IH]; simpl; [lra |].
  rewrite IH. unfold fwd_solve. unfold Rdiv. ring.
Qed.

Lemma fwd_solve_correct (i : nat) :
  i < n -> rsum n (fun j => L i j * fwd_solve L b j)%R = b i.
Proof.
  intros Hi.
  rewrite (@rsum_trunc (S i) n) by (try lia; intros k Hk; rewrite lower by lia; lra).
  simpl. unfold fwd_solve at 2. rewrite fwd_rhs_sum.
  field. now apply diagonal_nonzero.
Qed.

End ForwardSubstitution.

(** ** event_logsumexp *)

Lemma all_indices_complete (s idx : list nat) :
  in_range s idx -> In idx (all_indices s).
Proof.
  revert idx. induction s as [| d s IH]; intros idx Hr; inversion Hr as [| i ? idx' ? Hi Hr']; subst.
  - now left.
  - simpl. apply in_flat_map. exists idx'. split; [now apply IH |].
    apply in_map_iff. exists i. split; [reflexivity |]. apply in_seq. lia.
Qed.

Lemma cholesky_Ok (P L : Tensor) (n : nat) (bp : list nat) :
  rshape P = n :: n :: bp ->
  cholesky P = Ok L ->
  symmetric P ->
  is_cholesky_factor n P L /\
  forall idx, elt L idx = chol (mat_at P (tl (tl idx))) (hd 0 (tl idx)) (hd 0 idx).
Proof.
  intros HP Hc Hsym. unfold cholesky in Hc. rewrite HP, Nat.eqb_refl in Hc.
  destruct (forallb _ (all_indices bp)) eqn:Hall; [| discriminate].
  injection Hc as <-. split; [| reflexivity].
  split; [now rewrite HP |]. rewrite HP. simpl.
  intros b Hb.
  assert (Hpiv : forall j, j < n -> (0 < schur (mat_at P b) j j j)%R).
  { intros j Hj. rewrite forallb_forall in Hall.
    specialize (Hall b (all_indices_complete Hb)).
    rewrite forallb_forall in Hall. apply Rpositive_pos, Hall, in_seq. lia. }
  repeat split.
  - intros i j Hij. now apply chol_upper_zero.
  - intros i Hi. now apply chol_diag_positive with (n := n).
  - intros i j Hi Hj. rewrite (@chol_product (mat_at P b) n Hpiv i j); try assumption.
    + reflexivity.
    + intros x y. unfold mat_at. apply Hsym.
Qed.

Lemma triangular_solve_Ok (v L : Tensor) (n : nat) (bv bl wb : list nat) :
  rshape v = n :: bv ->
  rshape L = n :: n :: bl ->
  bshape bv bl = Some wb ->
  (forall b, in_range bl b ->
     (forall i j, i < j -> elt L (j :: i :: b) = 0%R) /\
     (forall i, i < n -> (0 < elt L (i :: i :: b))%R)) ->
  exists sol,
    triangular_solve (unsqueeze_last v) L = Ok sol /\
    rshape (squeeze_last sol) = n :: wb /\
    solves n L (squeeze_last sol) v bl bv.
Proof.
  intros Hv HL Hwb Hlow. unfold triangular_solve, unsqueeze_last. simpl.
  rewrite Hv, HL, !Nat.eqb_refl, Hwb. simpl.
  eexists. split; [reflexivity |]. unfold squeeze_last. simpl. split; [reflexivity |].
  intros idx Hidx i Hi. simpl in Hidx. simpl.
  destruct (bshape_bc _ _ Hwb) as [_ Hbl].
  destruct (Hlow (bidx bl idx) (bidx_in_range _ Hbl Hidx)) as [Hz Hd].
  apply (@fwd_solve_correct (mat_at L (bidx bl idx))
            (fun i' => elt v (i' :: bidx bv idx)) n).
  - intros a c Hac. unfold mat_at. now apply Hz.
  - intros a Ha. unfold mat_at. specialize (Hd a Ha). lra.
  - assumption.
Qed.

Lemma ln_sqrt_2 : ln (2 / sqrt 2) = (0.5 * ln 2)%R.
Proof.
  assert (Hs : (0 < sqrt 2)%R) by (apply sqrt_lt_R0; lra).
  assert (Hsq : (sqrt 2 * sqrt 2 = 2)%R) by (apply sqrt_sqrt; lra).
  replace (2 / sqrt 2)%R with (sqrt 2) by (rewrite <- Hsq at 2; field; lra).
  pose proof (ln_mult (sqrt 2) (sqrt 2) Hs Hs) as Hm. rewrite Hsq in Hm. lra.
Qed.

Lemma sum_last_cons (t : Tensor) (d : nat) (ds : list nat) :
  rshape t = d :: ds ->
  sum_last t = mkTensor ds (fun idx => rsum d (fun k => elt t (k :: idx))).
Proof. intros H. unfold sum_last. now rewrite H. Qed.

Lemma event_logsumexp_scenario :
  exists gam,
    event_logsumexp scenario = Ok gam /\
    elt (Gamma.alpha gam) [] = 2%R /\
    elt (Gamma.beta gam) [] = 0.5%R /\
    elt (Gamma.log_normalizer gam) [] = (0.5 * ln (2 * PI) - 0.5 * ln 2)%R.
Proof.
  eexists. split.
  - unfold event_logsumexp, scenario. evaluate.
    unfold cholesky. evaluate. unfold mat_at; cbn.
    rewrite Rpositive_true by lra. evaluate. reflexivity.
  - evaluate. unfold fwd_solve, chol, chol_col, mat_at. evaluate.
    rewrite ln_sqrt_2. unfold Rdiv. rewrite !Rmult_0_l. repeat split; lra.
Qed.

(** C1, with its scenario as the code computes it: when [precision] is
    symmetric and the runtime factors it as [L], [event_logsumexp()] returns
    a [Gamma] with [alpha' = alpha - 0.5 n + 1],
    [beta' = beta - 0.5 sum(w^2)] for the solution [w] of [L w = info_vec],
    where [L L^T = precision], and
    [log_normalizer' = log_normalizer + 0.5 n log(2 pi) - sum(log(diag L))];
    on the scenario instance this is [alpha' = 2.0], [beta' = 0.5] and
    [log_normalizer' = 0.5 log(2 pi) - 0.5 log 2]. *)
Theorem event_logsumexp_formula :
  (forall (g : GaussianGamma.t) (L : Tensor) (n : nat) (bi bp u : list nat),
     rshape (info_vec g) = n :: bi ->
     rshape (precision g) = n :: n :: bp ->
     Forall (fun sh => bc sh u)
       [rshape (log_normalizer g); bi; bp; rshape (alpha g); rshape (beta g)] ->
     symmetric (precision g) ->
     cholesky (precision g) = Ok L ->
     exists (w : Tensor) (gam : Gamma.t),
       event_logsumexp g = Ok gam /\
       is_cholesky_factor n (precision g) L /\
       bshape bi bp = Some (tl (rshape w)) /\
       solves n L w (info_vec g) bp bi /\
       rshape (Gamma.alpha gam) = rshape (alpha g) /\
       bshape (rshape (beta g)) (tl (rshape w)) = Some (rshape (Gamma.beta gam)) /\
       bshape (rshape (log_normalizer g)) bp = Some (rshape (Gamma.log_normalizer gam)) /\
       forall idx,
         elt (Gamma.alpha gam) idx = (elt (alpha g) idx - 0.5 * INR n + 1)%R /\
         elt (Gamma.beta gam) idx =
           (elt (beta g) (bidx (rshape (beta g)) idx)
            - 0.5 * rsum n (fun k => elt w (k :: bidx (tl (rshape w)) idx)
                                     * elt w (k :: bidx (tl (rshape w)) idx)))%R /\
         elt (Gamma.log_normalizer gam) idx =
           (elt (log_normalizer g) (bidx (rshape (log_normalizer g)) idx)
            + (0.5 * INR n * ln (2 * PI)
               - rsum n (fun k => ln (elt L (k :: k :: bidx bp idx)))))%R) /\
  (exists gam,
     event_logsumexp scenario = Ok gam /\
     elt (Gamma.alpha gam) [] = 2%R /\
     elt (Gamma.beta gam) [] = 0.5%R /\
     elt (Gamma.log_normalizer gam) [] = (0.5 * ln (2 * PI) - 0.5 * ln 2)%R).
Proof.
  split.
  - intros g L n bi bp u Hiv HP Hall Hsym Hchol.
    inversion Hall as [| ? ? Hln H1]; subst. inversion H1 as [| ? ? Hbi H2]; subst.
    inversion H2 as [| ? ? Hbp H3]; subst. inversion H3 as [| ? ? Hal H4]; subst.
    inversion H4 as [| ? ? Hbe _]; subst. clear H1 H2 H3 H4.
    destruct (cholesky_Ok HP Hchol Hsym) as [Hfac HLelt].
    assert (HL : rshape L = n :: n :: bp) by (destruct Hfac as [-> _]; exact HP).
    destruct (bshape_join _ _ _ Hbi Hbp) as (wb & Hwb & Hbi_wb & Hbp_wb & Hwb_u).
    destruct (@triangular_solve_Ok (info_vec g) L n bi bp wb Hiv HL Hwb)
      as (sol & Hsol & Hw & Hsolves).
    { intros b Hb. destruct Hfac as [_ Hfac]. rewrite HP in Hfac.
      destruct (Hfac b Hb) as (Hz & Hd & _). split; assumption. }
    unfold event_logsumexp, dim, size_last. rewrite Hiv. cbn [bind].
    rewrite Hchol. cbn [bind]. rewrite Hsol. cbn [bind].
    set (w := squeeze_last sol) in *.
    assert (Hu2 : sum_last (tpow2 w)
                  = mkTensor wb (fun idx => rsum n (fun k => elt (tpow2 w) (k :: idx))))
      by (apply sum_last_cons; exact Hw).
    rewrite Hu2.
    binop_step Rminus (beta g)
      (smul 0.5 (mkTensor wb (fun idx => rsum n (fun k => elt (tpow2 w) (k :: idx))))) u be.
    unfold tsub. rewrite Hrun_be. cbn [bind].
    unfold diagonal_last2. rewrite HL. cbn [bind]. rewrite Nat.min_id.
    match goal with
    | |- context [sum_last (tlog ?d)] =>
        rewrite (@sum_last_cons (tlog d) n bp eq_refl)
    end.
    binop_step Rplus (log_normalizer g)
      (rsub (0.5 * INR n * ln (2 * PI))
         (mkTensor bp (fun idx =>
            rsum n (fun k => elt (tlog (mkTensor (n :: bp)
                     (fun idx0 => elt L (hd 0 idx0 :: hd 0 idx0 :: tl idx0)))) (k :: idx))))) u lg.
    unfold tadd. rewrite Hrun_lg. cbn [bind].
    exists w. eexists. split; [reflexivity |].
    cbn [Gamma.alpha Gamma.beta Gamma.log_normalizer].
    rewrite Hw. cbn [tl].
    split; [exact Hfac |]. split; [exact Hwb |]. split; [exact Hsolves |].
    split; [reflexivity |].
    apply binop_Ok in Hrun_be as [Hsh_be _]. apply binop_Ok in Hrun_lg as [Hsh_lg _].
    split; [exact Hsh_be |]. split; [exact Hsh_lg |].
    intros idx. split; [reflexivity |]. split.
    + rewrite Helt_be. cbn [elt rshape smul tmap tpow2]. reflexivity.
    + rewrite Helt_lg. cbn [elt rshape rsub tmap tlog hd tl]. reflexivity.
  - exact event_logsumexp_scenario.
Qed.

Lemma scenario_symmetric : symmetric (precision scenario).
Proof.
  intros b i j. unfold scenario, matrix. simpl.
  destruct i as [| i]; destruct j as [| j]; try reflexivity.
  - now destruct j.
  - now destruct i.
  - now destruct i, j.
Qed.

Lemma scenario_cholesky : exists L, cholesky (precision scenario) = Ok L.
Proof.
  unfold cholesky, scenario. evaluate. unfold mat_at; cbn.
  rewrite Rpositive_true by lra. evaluate. eauto.
Qed.

Lemma event_logsumexp_formula_witness :
  exists (L w : Tensor) (gam : Gamma.t),
    cholesky (precision scenario) = Ok L /\
    event_logsumexp scenario = Ok gam /\
    is_cholesky_factor 1 (precision scenario) L /\
    solves 1 L w (info_vec scenario) [] [] /\
    forall idx,
      elt (Gamma.alpha gam) idx = (elt (alpha scenario) idx - 0.5 * INR 1 + 1)%R.
Proof.
  destruct scenario_cholesky as (L & HL).
  destruct (proj1 event_logsumexp_formula scenario L 1 [] [] [])
    as (w & gam & Hrun & Hfac & _ & Hsolves & _ & _ & _ & Helt).
  - reflexivity.
  - reflexivity.
  - repeat constructor.
  - exact scenario_symmetric.
  - exact HL.
  - exists L, w, gam.
    split; [exact HL |]. split; [exact Hrun |]. split; [exact Hfac |].
    split; [exact Hsolves |]. intros idx. apply Helt.
Defined.

(** C1, as the spec states its concrete scenario, fails: on that instance
    [event_logsumexp()] yields [alpha' = 1.5 - 0.5 + 1 = 2.0], not [1.0]. *)
Lemma event_logsumexp_scenario_alpha_is_not_one :
  exists gam,
    event_logsumexp scenario = Ok gam /\
    elt (Gamma.alpha gam) [] = 2%R /\
    elt (Gamma.alpha gam) [] <> 1%R.
Proof.
  destruct event_logsumexp_scenario as (gam & Hrun & Ha & _).
  exists gam. repeat split; try assumption. rewrite Ha. lra.
Qed.


(** ** Preservation of the shape invariant *)

Ltac split_raise H :=
  repeat match type of H with
  | context [bind ?m _] => destruct m eqn:?; cbn [bind] in H
  | context [match ?x with _ => _ end] => destruct x eqn:?
  | context [if ?x then _ else _] => destruct x eqn:?
  end;
  try discriminate H.

Lemma size_last_raise (t : Tensor) (e : exn) : size_last t = Raise e -> not_assertion e.
Proof. unfold size_last. intros H. split_raise H. injection H as <-. intros ?; discriminate. Qed.

Lemma broadcast_shape_raise (l : list (list nat)) (e : exn) :
  broadcast_shape l = Raise e -> not_assertion e.
Proof.
  induction l as [| s l IH]; simpl; [discriminate |].
  intros H. destruct (broadcast_shape l); cbn [bind] in H.
  - split_raise H. injection H as <-. intros ?; discriminate.
  - injection H as <-. now apply IH.
Qed.

Lemma binop_raise (f : R -> R -> R) (a b : Tensor) (e : exn) :
  broadcast_binop f a b = Raise e -> not_assertion e.
Proof. unfold broadcast_binop. intros H. split_raise H. injection H as <-. intros ?; discriminate. Qed.

Lemma texpand_raise (t : Tensor) (sizes : list Z) (e : exn) :
  texpand t sizes = Raise e -> not_assertion e.
Proof. unfold texpand. intros H. split_raise H. injection H as <-. intros ?; discriminate. Qed.

Lemma treshape_raise (t : Tensor) (sizes : list Z) (e : exn) :
  treshape t sizes = Raise e -> not_assertion e.
Proof. unfold treshape. intros H. split_raise H. injection H as <-. intros ?; discriminate. Qed.

Lemma index_axes_raise (items : list index_item) (s : list nat) (e : exn) :
  index_axes items s = Raise e -> not_assertion e.
Proof.
  revert s. induction items as [| it items IH]; intros s; simpl; [discriminate |].
  destruct it as [z | a]; destruct s as [| d s];
    try (intros [= <-]; intros ?; discriminate).
  - destruct (wrap_index d z); [| intros [= <-]; intros ?; discriminate].
    destruct (index_axes items s) eqn:E; cbn [bind]; [discriminate |].
    intros [= <-]. eapply IH; eauto.
  - destruct (index_axes items s) eqn:E; cbn [bind]; [discriminate |].
    intros [= <-]. eapply IH; eauto.
Qed.

Lemma tgetitem_raise (t : Tensor) (index : list index_item) (e : exn) :
  tgetitem t index = Raise e -> not_assertion e.
Proof.
  unfold tgetitem. destruct (index_axes _ _) eqn:E; cbn [bind]; [discriminate |].
  intros [= <-]. eapply index_axes_raise; eauto.
Qed.

Lemma tcat_raise (ts : list Tensor) (dim : Z) (e : exn) :
  tcat ts dim = Raise e -> not_assertion e.
Proof.
  unfold tcat. destruct ts as [| t ts]; [intros [= <-]; intros ?; discriminate |].
  destruct (existsb _ _); [intros [= <-]; intros ?; discriminate |].
  destruct (filter _ _); [discriminate |].
  unfold tcat_kept. intros H. split_raise H; injection H as <-; intros ?; discriminate.
Qed.

Lemma pad1_raise (t : Tensor) (l r : Z) (e : exn) : pad1 t l r = Raise e -> not_assertion e.
Proof. unfold pad1. intros H. split_raise H; injection H as <-; intros ?; discriminate. Qed.

Lemma pad2_raise (t : Tensor) (l r : Z) (e : exn) :
  pad2 t l r = Raise e -> not_assertion e.
Proof. unfold pad2. intros H. split_raise H; injection H as <-; intros ?; discriminate. Qed.

Lemma index_last_raise (t : Tensor) (p : LongTensor) (e : exn) :
  index_last t p = Raise e -> not_assertion e.
Proof. unfold index_last. intros H. split_raise H; injection H as <-; intros ?; discriminate. Qed.

Lemma index_last_but_one_raise (t : Tensor) (p : LongTensor) (e : exn) :
  index_last_but_one t p = Raise e -> not_assertion e.
Proof.
  unfold index_last_but_one. intros H. split_raise H; injection H as <-; intros ?; discriminate.
Qed.

Lemma slice_last_raise (t : Tensor) (a : slice) (e : exn) :
  slice_last t a = Raise e -> not_assertion e.
Proof. unfold slice_last. intros H. split_raise H; injection H as <-; intros ?; discriminate. Qed.

Lemma slice_last2_raise (t : Tensor) (a b : slice) (e : exn) :
  slice_last2 t a b = Raise e -> not_assertion e.
Proof. unfold slice_last2. intros H. split_raise H; injection H as <-; intros ?; discriminate. Qed.

Lemma matmul_batched_raise (a b : Tensor) (e : exn) :
  matmul_batched a b = Raise e -> not_assertion e.
Proof.
  unfold matmul_batched. intros H. split_raise H; injection H as <-; intros ?; discriminate.
Qed.

Lemma matmul_raise (a b : Tensor) (e : exn) : matmul a b = Raise e -> not_assertion e.
Proof.
  unfold matmul. intros H.
  split_raise H; try (injection H as <-);
    try (intros ?; discriminate); eauto using matmul_batched_raise.
Qed.

Lemma not_assertion_not_constructor (e : exn) :
  not_assertion e -> ~ constructor_assertion e.
Proof. intros H [E | [E | E]]; exact (H _ E). Qed.

Lemma preserves_bind {A : Type} (m : result A) (k : A -> result GaussianGamma.t) :
  (forall e, m = Raise e -> not_assertion e) ->
  (forall a, m = Ok a -> preserves_invariant (k a)) ->
  preserves_invariant (bind m k).
Proof.
  intros Hr Ho. destruct m as [a | e]; cbn [bind]; [now apply Ho |].
  simpl. apply not_assertion_not_constructor. now apply Hr.
Qed.

Lemma preserves_init (ln iv P a b : Tensor) :
  shape_invariant iv P -> preserves_invariant (init ln iv P a b).
Proof. intros H. rewrite (init_ok _ _ _ H). exact H. Qed.

Lemma app_suffix_unique {A : Type} (l1 l2 s1 s2 : list A) :
  l1 ++ s1 = l2 ++ s2 -> length s1 = length s2 -> s1 = s2.
Proof.
  revert l2. induction l1 as [| x l1 IH]; intros [| y l2] H Hlen; simpl in H.
  - assumption.
  - apply (f_equal (@length A)) in H. simpl in H. rewrite length_app in H. lia.
  - apply (f_equal (@length A)) in H. simpl in H. rewrite length_app in H. lia.
  - injection H as _ H. eauto.
Qed.

Lemma slice_len_all (d : nat) : slice_len slice_all d = d.
Proof. unfold slice_len, slice_bounds. simpl. lia. Qed.

Lemma index_axes_all (k : nat) (s : list nat) (r : list nat * (list nat -> list nat)) :
  index_axes (repeat (Slice slice_all) k) s = Ok r -> fst r = s /\ k <= length s.
Proof.
  revert s r. induction k as [| k IH]; intros s r; simpl.
  - intros [= <-]. simpl. split; [reflexivity | lia].
  - destruct s as [| d s]; [discriminate |].
    destruct (index_axes (repeat (Slice slice_all) k) s) as [r' |] eqn:E; cbn [bind];
      [| discriminate].
    intros [= <-]. apply IH in E as [E Hk]. simpl. rewrite E, slice_len_all.
    split; [reflexivity | lia].
Qed.

Lemma index_axes_trailing (items : list index_item) (k : nat) (s : list nat)
    (r : list nat * (list nat -> list nat)) :
  index_axes (items ++ repeat (Slice slice_all) k) s = Ok r ->
  exists pre pre' suf, length suf = k /\ s = pre' ++ suf /\ fst r = pre ++ suf.
Proof.
  revert s r. induction items as [| it items IH]; intros s r.
  - simpl. intros H. apply index_axes_all in H as [E Hk].
    exists (firstn (length s - k) s), (firstn (length s - k) s), (skipn (length s - k) s).
    rewrite E, firstn_skipn, length_skipn. repeat split. lia.
  - simpl. destruct it as [z | a]; destruct s as [| d s]; try discriminate.
    + destruct (wrap_index d z); [| discriminate].
      destruct (index_axes (items ++ repeat (Slice slice_all) k) s) as [r' |] eqn:E;
        cbn [bind]; [| discriminate].
      intros [= <-]. apply IH in E as (pre & pre' & suf & Hlen & -> & E).
      exists pre, (d :: pre'), suf. simpl. auto.
    + destruct (index_axes (items ++ repeat (Slice slice_all) k) s) as [r' |] eqn:E;
        cbn [bind]; [| discriminate].
      intros [= <-]. apply IH in E as (pre & pre' & suf & Hlen & -> & E).
      exists (slice_len a d :: pre), (d :: pre'), suf. simpl. rewrite E. auto.
Qed.

Lemma tgetitem_trailing (t t' : Tensor) (index : list index_item) (k : nat)
    (ev bs : list nat) :
  rshape t = ev ++ bs -> length ev = k ->
  tgetitem t (index ++ repeat (Slice slice_all) k) = Ok t' ->
  exists bs', rshape t' = ev ++ bs'.
Proof.
  intros Ht Hk. unfold tgetitem.
  destruct (index_axes _ _) as [r |] eqn:E; cbn [bind]; [| discriminate].
  intros [= <-]. simpl.
  apply index_axes_trailing in E as (pre & pre' & suf & Hlen & Hs & E).
  rewrite Ht, rev_app_distr in Hs.
  assert (Hsuf : rev ev = suf)
    by (apply (app_suffix_unique _ _ _ _ Hs); rewrite length_rev; lia).
  exists (rev pre). rewrite E, rev_app_distr, <- Hsuf, rev_involutive. reflexivity.
Qed.

Lemma expand_shape_head (d : nat) (s : list nat) (zs : list Z) (t : list nat) :
  expand_shape (d :: s) (Z.of_nat d :: zs) = Some t ->
  exists t', t = d :: t' /\ expand_shape s zs = Some t'.
Proof.
  simpl. rewrite Z.eqb_refl, orb_true_r.
  destruct (expand_shape s zs) as [t' |]; simpl; [| discriminate].
  intros [= <-]. eauto.
Qed.

Lemma texpand_trailing1 (t t' : Tensor) (batch : list Z) (n : nat) (bs : list nat) :
  rshape t = n :: bs ->
  texpand t (batch ++ [Z.of_nat n]) = Ok t' ->
  exists bs', rshape t' = n :: bs'.
Proof.
  intros Ht. unfold texpand. rewrite Ht, rev_app_distr. simpl rev. simpl app.
  destruct (expand_shape _ _) as [s |] eqn:E; [| discriminate].
  intros [= <-]. apply expand_shape_head in E as (s' & -> & _). simpl. eauto.
Qed.

Lemma texpand_trailing2 (t t' : Tensor) (batch : list Z) (n : nat) (bs : list nat) :
  rshape t = n :: n :: bs ->
  texpand t (batch ++ [Z.of_nat n; Z.of_nat n]) = Ok t' ->
  exists bs', rshape t' = n :: n :: bs'.
Proof.
  intros Ht. unfold texpand. rewrite Ht, rev_app_distr. simpl rev. simpl app.
  destruct (expand_shape _ _) as [s |] eqn:E; [| discriminate].
  intros [= <-]. apply expand_shape_head in E as (s' & -> & E).
  apply expand_shape_head in E as (s'' & -> & _). simpl. eauto.
Qed.

Lemma reshape_shape_head (N n : nat) (zs : list Z) (s : list nat) :
  reshape_shape N (Z.of_nat n :: zs) = Some s -> exists s', s = n :: s'.
Proof.
  unfold reshape_shape.
  destruct (existsb _ _); [discriminate |].
  destruct (length (Z.of_nat n :: zs) - _) as [| [| k]]; [| | discriminate].
  - destruct (_ =? N); [| discriminate]. intros [= <-]. simpl.
    rewrite Nat2Z.id. eauto.
  - destruct (_ || _); [discriminate |]. intros [= <-]. simpl.
    replace (Z.of_nat n =? -1)%Z with false by (symmetry; apply Z.eqb_neq; lia).
    rewrite Nat2Z.id. eauto.
Qed.

Lemma reshape_shape_head2 (N n : nat) (zs : list Z) (s : list nat) :
  reshape_shape N (Z.of_nat n :: Z.of_nat n :: zs) = Some s -> exists s', s = n :: n :: s'.
Proof.
  unfold reshape_shape.
  destruct (existsb _ _); [discriminate |].
  destruct (length (Z.of_nat n :: Z.of_nat n :: zs) - _) as [| [| k]]; [| | discriminate].
  - destruct (_ =? N); [| discriminate]. intros [= <-]. simpl.
    rewrite Nat2Z.id. eauto.
  - destruct (_ || _); [discriminate |]. intros [= <-]. simpl.
    replace (Z.of_nat n =? -1)%Z with false by (symmetry; apply Z.eqb_neq; lia).
    rewrite Nat2Z.id. eauto.
Qed.

Lemma treshape_trailing1 (t t' : Tensor) (batch : list Z) (n : nat) :
  treshape t (batch ++ [Z.of_nat n]) = Ok t' -> exists bs', rshape t' = n :: bs'.
Proof.
  unfold treshape. rewrite rev_app_distr. simpl rev. simpl app.
  destruct (reshape_shape _ _) as [s |] eqn:E; [| discriminate].
  intros [= <-]. apply reshape_shape_head in E as (s' & ->). simpl. eauto.
Qed.

Lemma treshape_trailing2 (t t' : Tensor) (batch : list Z) (n : nat) :
  treshape t (batch ++ [Z.of_nat n; Z.of_nat n]) = Ok t' ->
  exists bs', rshape t' = n :: n :: bs'.
Proof.
  unfold treshape. rewrite rev_app_distr. simpl rev. simpl app.
  destruct (reshape_shape _ _) as [s |] eqn:E; [| discriminate].
  intros [= <-]. apply reshape_shape_head2 in E as (s' & ->). simpl. eauto.
Qed.

Lemma set_nth_app (p v : nat) (ev bs : list nat) :
  length ev <= p -> set_nth p v (ev ++ bs) = ev ++ set_nth (p - length ev) v bs.
Proof.
  revert p. induction ev as [| x ev IH]; intros p Hp; simpl.
  - now rewrite Nat.sub_0_r.
  - destruct p as [| p]; simpl in *; [lia |]. rewrite IH by lia. reflexivity.
Qed.

Lemma tcat_trailing (t0 t : Tensor) (rest : list Tensor) (dim : Z) (ev bs : list nat) :
  rshape t0 = ev ++ bs ->
  (0 <= dim < Z.of_nat (length bs))%Z ->
  tcat (t0 :: rest) dim = Ok t ->
  exists bs', rshape t = ev ++ bs'.
Proof.
  intros Ht Hdim.
  destruct ev as [| x ev]; [intros _; exists (rshape t); reflexivity |].
  assert (Hkept : cat_skipped t0 = false).
  { unfold cat_skipped. rewrite Ht. destruct bs as [| b bs]; [simpl in Hdim; lia |].
    simpl. rewrite andb_comm. now destruct ev. }
  set (ev' := x :: ev) in *. clearbody ev'.
  unfold tcat. destruct (existsb _ _); [discriminate |].
  cbn [filter]. rewrite Hkept. cbn [negb].
  unfold tcat_kept, ndim. rewrite Ht, length_app.
  replace (dim <? 0)%Z with false by (symmetry; apply Z.ltb_ge; lia).
  destruct (negb _); [discriminate |].
  destruct (forallb _ _); [| discriminate].
  intros [= <-]. simpl rshape. rewrite set_nth_app by lia. eauto.
Qed.

Lemma bshape_head (n : nat) (a b s : list nat) :
  bshape (n :: a) (n :: b) = Some s -> exists s', s = n :: s'.
Proof.
  simpl. unfold bdim. rewrite Nat.eqb_refl.
  destruct (bshape a b); [| discriminate]. intros [= <-]. eauto.
Qed.

Lemma binop_trailing1 (f : R -> R -> R) (a b r : Tensor) (n : nat) (ba bb : list nat) :
  rshape a = n :: ba -> rshape b = n :: bb ->
  broadcast_binop f a b = Ok r -> exists bs, rshape r = n :: bs.
Proof.
  intros Ha Hb H. apply binop_Ok in H as [H _]. rewrite Ha, Hb in H.
  apply bshape_head in H as (s' & H). eauto.
Qed.

Lemma binop_trailing2 (f : R -> R -> R) (a b r : Tensor) (n : nat) (ba bb : list nat) :
  rshape a = n :: n :: ba -> rshape b = n :: n :: bb ->
  broadcast_binop f a b = Ok r -> exists bs, rshape r = n :: n :: bs.
Proof.
  intros Ha Hb H. apply binop_Ok in H as [H _]. rewrite Ha, Hb in H.
  simpl in H. unfold bdim in H. rewrite Nat.eqb_refl in H.
  destruct (bshape ba bb); [| discriminate]. injection H as H. eauto.
Qed.

Lemma matmul_shape (a b r : Tensor) (k m k' p : nat) (ba bb : list nat) :
  rshape a = k :: m :: ba -> rshape b = p :: k' :: bb ->
  matmul a b = Ok r -> exists bs, rshape r = p :: m :: bs.
Proof.
  intros Ha Hb. unfold matmul, matmul_batched. rewrite Ha, Hb.
  destruct (k =? k'); [| discriminate].
  destruct (bshape ba bb); [| discriminate].
  intros [= <-]. simpl. eauto.
Qed.

Section Preservation.

Variable g : GaussianGamma.t.
Hypothesis g_valid : valid g.

Ltac step lem := apply preserves_bind; [intros ?; apply lem | intros ? ?].

Lemma expand_preserves (batch : list Z) : preserves_invariant (expand g batch).
Proof.
  destruct g_valid as (n & bi & bp & Hiv & HP).
  unfold expand, dim, size_last. rewrite Hiv. cbn [bind].
  step texpand_raise. step texpand_raise. step texpand_raise.
  step texpand_raise. step texpand_raise.
  apply preserves_init.
  destruct (texpand_trailing1 _ _ Hiv H0) as (bi' & Hiv').
  destruct (texpand_trailing2 _ _ HP H1) as (bp' & HP').
  now exists n, bi', bp'.
Qed.

Lemma reshape_preserves (batch : list Z) : preserves_invariant (reshape g batch).
Proof.
  destruct g_valid as (n & bi & bp & Hiv & HP).
  unfold reshape, dim, size_last. rewrite Hiv. cbn [bind].
  step treshape_raise. step treshape_raise. step treshape_raise.
  step treshape_raise. step treshape_raise.
  apply preserves_init.
  destruct (treshape_trailing1 _ _ _ H0) as (bi' & Hiv').
  destruct (treshape_trailing2 _ _ _ H1) as (bp' & HP').
  now exists n, bi', bp'.
Qed.

Lemma getitem_preserves (index : list index_item) : preserves_invariant (getitem g index).
Proof.
  destruct g_valid as (n & bi & bp & Hiv & HP).
  unfold getitem.
  step tgetitem_raise. step tgetitem_raise. step tgetitem_raise.
  step tgetitem_raise. step tgetitem_raise.
  apply preserves_init.
  destruct (@tgetitem_trailing _ _ index 1 [n] bi Hiv eq_refl H0) as (bi' & Hiv').
  destruct (@tgetitem_trailing _ _ index 2 [n; n] bp HP eq_refl H1) as (bp' & HP').
  now exists n, bi', bp'.
Qed.

Lemma event_pad_preserves (left right : Z) : preserves_invariant (event_pad g left right).
Proof.
  destruct g_valid as (n & bi & bp & Hiv & HP).
  unfold event_pad.
  step pad1_raise. step pad2_raise.
  apply preserves_init.
  unfold pad1 in H. rewrite Hiv in H. unfold pad2 in H0. rewrite HP in H0.
  destruct (overcropped n left right); [discriminate |]. simpl in H0.
  injection H as <-. injection H0 as <-.
  eexists _, _, _. simpl. split; reflexivity.
Qed.

Lemma event_permute_preserves (perm : LongTensor) :
  preserves_invariant (event_permute g perm).
Proof.
  destruct g_valid as (n & bi & bp & Hiv & HP).
  unfold event_permute, dim, size_last. rewrite Hiv. cbn [bind].
  destruct (shape_eqb (lshape perm) [n]) eqn:E;
    [| simpl; intros [H | [H | H]]; discriminate].
  apply shape_eqb_eq in E. unfold lshape in E.
  apply (f_equal (@rev nat)) in E. rewrite rev_involutive in E. simpl in E.
  step index_last_raise. step index_last_raise. step index_last_but_one_raise.
  apply preserves_init.
  unfold index_last in H, H0. rewrite Hiv in H. rewrite HP in H0.
  destruct (index_ok n perm); [| discriminate].
  injection H as <-. injection H0 as <-.
  unfold index_last_but_one in H1. simpl in H1. rewrite E in H1. simpl in H1.
  destruct (index_ok n perm); [| discriminate]. injection H1 as <-.
  rewrite E. eexists _, _, _. simpl. split; reflexivity.
Qed.

Lemma add_preserves (other : GaussianGamma.t) :
  valid other -> preserves_invariant (add g other).
Proof.
  intros (m & bi' & bp' & Hiv' & HP').
  destruct g_valid as (n & bi & bp & Hiv & HP).
  unfold add, dim, size_last. rewrite Hiv, Hiv'. cbn [bind].
  destruct (Nat.eqb_spec n m) as [<- |];
    [| simpl; intros [H | [H | H]]; discriminate].
  step binop_raise. step binop_raise. step binop_raise.
  step binop_raise. step binop_raise.
  apply preserves_init.
  destruct (binop_trailing1 _ _ _ Hiv Hiv' H0) as (ci & Hci).
  destruct (binop_trailing2 _ _ _ HP HP' H1) as (cp & Hcp).
  now exists n, ci, cp.
Qed.

Lemma condition_preserves (value : Tensor) : preserves_invariant (condition g value).
Proof.
  destruct g_valid as (n & bi & bp & Hiv & HP).
  unfold condition, dim.
  step size_last_raise. rename a into k, H into Hk.
  unfold size_last at 1 2. rewrite Hiv. cbn [bind].
  destruct (k <=? n); [| simpl; intros [H | [H | H]]; discriminate].
  step slice_last_raise. step slice_last_raise.
  step slice_last2_raise. step slice_last2_raise. step slice_last2_raise.
  step matmul_raise. step binop_raise. step matmul_raise.
  step binop_raise. step binop_raise. step binop_raise. step binop_raise.
  apply preserves_init.
  unfold size_last in Hk. destruct (rshape value) as [| k' bv] eqn:Hv; [discriminate |].
  unfold slice_last in H. rewrite Hiv in H. injection H as <-.
  unfold slice_last2 in H1, H2. rewrite HP in H1, H2. injection H1 as <-. injection H2 as <-.
  assert (Hu : rshape (unsqueeze_last value) = 1 :: k' :: bv)
    by (simpl; rewrite Hv; reflexivity).
  match type of H4 with
  | matmul ?pab _ = _ =>
      destruct (@matmul_shape pab (unsqueeze_last value) a4 _ _ _ _ _ _ eq_refl Hu H4)
        as (bs & Hpb)
  end.
  assert (Hsq : rshape (squeeze_last a4) = slice_len (slice_to (Z.of_nat n - Z.of_nat k)) n :: bs)
    by (unfold squeeze_last; rewrite Hpb; reflexivity).
  match type of H5 with
  | tsub ?ia _ = _ =>
      destruct (@binop_trailing1 Rminus ia (squeeze_last a4) a5 _ _ _ eq_refl Hsq H5)
        as (ci & Hci)
  end.
  eexists _, ci, bp. split; [exact Hci | reflexivity].
Qed.

Lemma cat_preserves (rest : list GaussianGamma.t) (dim : Z) (bs : list nat) :
  batch_shape g = Ok bs ->
  length (tl (rshape (info_vec g))) = length bs ->
  length (skipn 2 (rshape (precision g))) = length bs ->
  (- Z.of_nat (length bs) <= dim < Z.of_nat (length bs))%Z ->
  preserves_invariant (cat (g :: rest) dim).
Proof.
  intros Hbs Hli Hlp Hdim.
  destruct g_valid as (n & bi & bp & Hiv & HP).
  rewrite Hiv in Hli. rewrite HP in Hlp. simpl in Hli, Hlp.
  unfold cat.
  assert (Hd : exists d,
             (if (dim <? 0)%Z
              then bs0 <- batch_shape g ;; Ok (dim + Z.of_nat (length bs0))%Z
              else Ok dim) = Ok d /\ (0 <= d < Z.of_nat (length bs))%Z).
  { rewrite Hbs. cbn [bind]. destruct (Z.ltb_spec dim 0); eexists; split; try reflexivity; lia. }
  destruct Hd as (d & -> & Hd). cbn [bind].
  step tcat_raise. step tcat_raise. step tcat_raise. step tcat_raise. step tcat_raise.
  apply preserves_init.
  simpl map in H0, H1.
  destruct (@tcat_trailing _ _ _ d [n] bi Hiv ltac:(lia) H0) as (bi' & Hiv').
  destruct (@tcat_trailing _ _ _ d [n; n] bp HP ltac:(lia) H1) as (bp' & HP').
  now exists n, bi', bp'.
Qed.

End Preservation.

(** C10, as the code has it: applied to instances that satisfy the
    constructor's shape invariant, [expand], [reshape], batch indexing,
    [event_pad], [event_permute], [__add__] and [condition] never fail an
    assertion of the constructor, and what they return satisfies the
    invariant; so does [cat] when the first part's [info_vec] and
    [precision] carry every axis of its batch shape and [dim] is an axis of
    that batch shape. *)
Theorem operations_preserve_shape_invariant (g : GaussianGamma.t) :
  valid g ->
  (forall batch, preserves_invariant (expand g batch)) /\
  (forall batch, preserves_invariant (reshape g batch)) /\
  (forall index, preserves_invariant (getitem g index)) /\
  (forall left right, preserves_invariant (event_pad g left right)) /\
  (forall perm, preserves_invariant (event_permute g perm)) /\
  (forall other, valid other -> preserves_invariant (add g other)) /\
  (forall value, preserves_invariant (condition g value)) /\
  (forall rest dim bs,
      batch_shape g = Ok bs ->
      length (tl (rshape (info_vec g))) = length bs ->
      length (skipn 2 (rshape (precision g))) = length bs ->
      (- Z.of_nat (length bs) <= dim < Z.of_nat (length bs))%Z ->
      preserves_invariant (cat (g :: rest) dim)).
Proof.
  intros Hg. repeat split; intros.
  - now apply expand_preserves.
  - now apply reshape_preserves.
  - now apply getitem_preserves.
  - now apply event_pad_preserves.
  - now apply event_permute_preserves.
  - now apply add_preserves.
  - now apply condition_preserves.
  - now apply cat_preserves with (bs := bs).
Qed.

Lemma operations_preserve_shape_invariant_witness :
  (forall batch, preserves_invariant (expand batched batch)) /\
  (forall batch, preserves_invariant (reshape batched batch)) /\
  (forall index, preserves_invariant (getitem batched index)) /\
  (forall left right, preserves_invariant (event_pad batched left right)) /\
  (forall perm, preserves_invariant (event_permute batched perm)) /\
  (forall other, valid other -> preserves_invariant (add batched other)) /\
  (forall value, preserves_invariant (condition batched value)) /\
  (forall rest dim, (-1 <= dim < 1)%Z -> preserves_invariant (cat (batched :: rest) dim)) /\
  (exists g', cat [batched; batched] 0 = Ok g' /\ valid g').
Proof.
  assert (Hg : valid batched) by (exists 1, [2], [2]; split; reflexivity).
  destruct (@operations_preserve_shape_invariant batched Hg)
    as (H1 & H2 & H3 & H4 & H5 & H6 & H7 & H8).
  do 7 (split; [assumption |]).
  assert (Hcat : forall rest dim, (-1 <= dim < 1)%Z ->
                 preserves_invariant (cat (batched :: rest) dim)).
  { intros rest dim Hdim.
    apply (H8 rest dim [2]); [reflexivity | reflexivity | reflexivity | simpl; lia]. }
  split; [exact Hcat |].
  assert (Hrun : exists g', cat [batched; batched] 0 = Ok g')
    by (unfold cat, batched; evaluate; eauto).
  destruct Hrun as (g' & Hrun).
  pose proof (Hcat [batched] 0%Z ltac:(lia)) as Hp.
  rewrite Hrun in Hp. exists g'. split; [exact Hrun | exact Hp].
Defined.

(** C10, as the spec states it, fails for [cat]: the parts below satisfy the
    shape invariant and have batch shape [(3,)], every [torch.cat] along
    batch dimension 0 succeeds, and yet the constructor's assertion at line
    71 fires, because [info_vec] and [precision], which carry no batch axis,
    are concatenated along an event axis. *)
Lemma cat_of_unexpanded_parts_fails_constructor :
  valid unexpanded /\
  batch_shape unexpanded = Ok [3] /\
  cat [unexpanded; unexpanded] 0 = Raise (AssertionError 71) /\
  ~ preserves_invariant (cat [unexpanded; unexpanded] 0).
Proof.
  assert (Hcat : cat [unexpanded; unexpanded] 0 = Raise (AssertionError 71))
    by (unfold cat, unexpanded; now evaluate).
  split; [exists 2, [], []; split; reflexivity |].
  split; [reflexivity |]. split; [exact Hcat |].
  rewrite Hcat. simpl. unfold constructor_assertion. tauto.
Qed.

(** ** The value of log_density *)

Lemma bidx_cons_lt (n k : nat) (s idx : list nat) :
  k < n -> bidx (n :: s) (k :: idx) = k :: bidx s idx.
Proof. intros H. simpl. destruct (Nat.eqb_spec n 1); [f_equal; lia | reflexivity]. Qed.

Lemma binop_total_cons (f : R -> R -> R) (a b : Tensor) (n : nat) (sa sb u : list nat) :
  rshape a = n :: sa -> rshape b = n :: sb -> bc sa u -> bc sb u ->
  exists r t,
    broadcast_binop f a b = Ok r /\ rshape r = n :: t /\
    bc sa t /\ bc sb t /\ bc t u /\
    forall k idx, k < n ->
      elt r (k :: idx) = f (elt a (k :: bidx sa idx)) (elt b (k :: bidx sb idx)).
Proof.
  intros Ha Hb Hsa Hsb.
  destruct (@binop_total f a b (n :: u)) as (r & Hrun & Hl & Hr & Hu & _ & Helt).
  { rewrite Ha. simpl. auto. }
  { rewrite Hb. simpl. auto. }
  rewrite Ha in Hl. rewrite Hb in Hr.
  destruct (rshape r) as [| d t] eqn:Hsh; simpl in Hl; [tauto |].
  destruct (binop_Ok _ _ _ Hrun) as [Hbs _]. rewrite Ha, Hb, Hsh in Hbs.
  apply bshape_head in Hbs as (t' & [= -> ->]).
  exists r, t'. simpl in Hl, Hr, Hu. repeat split; try tauto.
  intros k idx Hk. rewrite Helt, Ha, Hb, !bidx_cons_lt by assumption. reflexivity.
Qed.

Lemma matmul_total (a b : Tensor) (k m p : nat) (ba bb u : list nat) :
  rshape a = k :: m :: ba -> rshape b = p :: k :: bb -> bc ba u -> bc bb u ->
  exists r t,
    matmul a b = Ok r /\ rshape r = p :: m :: t /\
    bc ba t /\ bc bb t /\ bc t u /\
    forall j i idx,
      elt r (j :: i :: idx) =
      rsum k (fun l => elt a (l :: i :: bidx ba idx) * elt b (j :: l :: bidx bb idx))%R.
Proof.
  intros Ha Hb Hba Hbb. unfold matmul, matmul_batched. rewrite Ha, Hb, Nat.eqb_refl.
  destruct (bshape_join _ _ _ Hba Hbb) as (t & -> & Hat & Hbt & Htu).
  eexists _, t. split; [reflexivity |]. simpl. auto.
Qed.

Ltac binop_cons f a b n sa sb u r t :=
  let Hrun := fresh "Hrun_" r in
  let Hsh := fresh "Hsh_" r in
  let Hl := fresh "Hl_" r in
  let Hr := fresh "Hr_" r in
  let Hu := fresh "Hu_" r in
  let Helt := fresh "Helt_" r in
  destruct (@binop_total_cons f a b n sa sb u) as (r & t & Hrun & Hsh & Hl & Hr & Hu & Helt);
  [ try reflexivity; try assumption | try reflexivity; try assumption
  | try bc_solve | try bc_solve | ].

Lemma log_density_nonempty (g : GaussianGamma.t) (value s : Tensor)
    (n : nat) (bi bp bv u : list nat) :
  rshape (info_vec g) = S n :: bi ->
  rshape (precision g) = S n :: S n :: bp ->
  rshape value = S n :: bv ->
  Forall (fun sh => bc sh u) (batch_shapes g value s) ->
  exists r,
    log_density g value s = Ok r /\
    bc (rshape r) u /\
    Forall (fun sh => bc sh (rshape r)) (batch_shapes g value s) /\
    forall idx, elt r idx = log_density_formula g value s idx.
Proof.
  intros Hiv HP Hv Hall. unfold batch_shapes in *. rewrite Hiv, HP, Hv in *. simpl tl in *. simpl skipn in *.
  inversion Hall as [| ? ? Hln H1]; subst. inversion H1 as [| ? ? Hbi H2]; subst.
  inversion H2 as [| ? ? Hbp H3]; subst. inversion H3 as [| ? ? Hal H4]; subst.
  inversion H4 as [| ? ? Hbe H5]; subst. inversion H5 as [| ? ? Hbv H6]; subst.
  inversion H6 as [| ? ? Hs _]; subst. clear H1 H2 H3 H4 H5 H6 Hall.
  unfold log_density, size_last. rewrite Hv. cbn [bind Nat.eqb].
  destruct (@matmul_total (precision g) (unsqueeze_last value) (S n) (S n) 1 bp bv u)
    as (mm & j1 & Hrun_mm & Hsh_mm & Hbp_j1 & Hbv_j1 & Hj1_u & Helt_mm);
    [assumption | simpl; now rewrite Hv | assumption | assumption |].
  rewrite Hrun_mm. cbn [bind].
  assert (Hsq : rshape (smul (-0.5) (squeeze_last mm)) = S n :: j1)
    by (unfold squeeze_last; rewrite Hsh_mm; reflexivity).
  binop_cons Rplus (smul (-0.5) (squeeze_last mm)) (info_vec g) (S n) j1 bi u r1 j2.
  unfold tadd at 1. rewrite Hrun_r1. cbn [bind].
  binop_cons Rmult value r1 (S n) bv j2 u vr j3.
  unfold tmul at 1. rewrite Hrun_vr. cbn [bind].
  rewrite (sum_last_cons _ Hsh_vr).
  set (q := mkTensor j3 (fun idx => rsum (S n) (fun k => elt vr (k :: idx)))).
  assert (Hq_u : bc (rshape q) u) by exact Hu_vr.
  binop_step Rmult (alpha g) (tlog s) u a.
  binop_step Rminus q (beta g) u b.
  binop_step Rmult b s u c.
  binop_step Rplus a c u d.
  binop_step Rplus d (log_normalizer g) u r.
  unfold tmul, tsub, tadd. rewrite Hrun_a. cbn [bind]. rewrite Hrun_b. cbn [bind].
  rewrite Hrun_c. cbn [bind]. rewrite Hrun_d. cbn [bind]. rewrite Hrun_r.
  exists r. split; [reflexivity |]. split; [exact Hu_r |].
  assert (Hc_r : bc (rshape c) (rshape r)) by bc_solve.
  assert (Hb_r : bc (rshape b) (rshape r)) by bc_solve.
  assert (Hj3_r : bc j3 (rshape r)) by (apply (bc_trans _ _ _ Hl_b Hb_r)).
  assert (Hj2_r : bc j2 (rshape r)) by bc_solve.
  assert (Hj1_r : bc j1 (rshape r)) by bc_solve.
  assert (Hs_r : bc (rshape s) (rshape r)) by bc_solve.
  assert (Hbv_r : bc bv (rshape r)) by bc_solve.
  assert (Hbp_r : bc bp (rshape r)) by bc_solve.
  assert (Hbi_r : bc bi (rshape r)) by bc_solve.
  assert (Hbe_r : bc (rshape (beta g)) (rshape r)) by bc_solve.
  assert (Hal_r : bc (rshape (alpha g)) (rshape r)) by bc_solve.
  split; [repeat constructor; assumption |].
  intros idx. unfold log_density_formula. rewrite Hiv, HP, Hv. cbn [hd tl skipn].
  rewrite Helt_r, Helt_d, Helt_a, Helt_c, Helt_b. subst q. cbn [elt rshape tlog tmap].
  rewrite !bidx_bc by bc_solve.
  f_equal. f_equal. f_equal. f_equal.
  apply rsum_ext. intros k Hk.
  rewrite Helt_vr, Helt_r1 by assumption.
  cbn [smul tmap elt]. unfold squeeze_last. rewrite Hsh_mm. cbn [elt].
  rewrite Helt_mm. cbn [unsqueeze_last elt tl].
  rewrite !bidx_bc by bc_solve. reflexivity.
Qed.

Lemma log_density_empty (g : GaussianGamma.t) (value s : Tensor) (bi bv u : list nat) :
  rshape (info_vec g) = 0 :: bi ->
  rshape value = 0 :: bv ->
  Forall (fun sh => bc sh u) (batch_shapes g value s) ->
  exists r,
    log_density g value s = Ok r /\
    bc (rshape r) u /\
    Forall (fun sh => bc sh (rshape r)) (batch_shapes g value s) /\
    forall idx, elt r idx = log_density_formula g value s idx.
Proof.
  intros Hiv Hv Hall. unfold batch_shapes in *.
  inversion Hall as [| ? ? Hln H1]; subst. inversion H1 as [| ? ? Hbi H2]; subst.
  inversion H2 as [| ? ? Hbp H3]; subst. inversion H3 as [| ? ? Hal H4]; subst.
  inversion H4 as [| ? ? Hbe H5]; subst. inversion H5 as [| ? ? Hbv H6]; subst.
  inversion H6 as [| ? ? Hs _]; subst. clear H1 H2 H3 H4 H5 H6.
  unfold log_density, size_last. rewrite Hv. cbn [bind Nat.eqb].
  destruct (@broadcast_shape_exists
              [rshape (log_normalizer g); tl (rshape (info_vec g));
               skipn 2 (rshape (precision g)); rshape (alpha g); rshape (beta g)] u)
    as (bs & Hbs & Hbsu); [repeat constructor; assumption |].
  unfold batch_shape. rewrite Hbs. cbn [bind tl].
  rewrite Hv in Hbv. cbn [tl] in Hbv.
  destruct (@broadcast_shape_exists [bv; bs] u) as (B & HB & HBu);
    [repeat constructor; assumption |].
  rewrite HB. cbn [bind].
  binop_step Rmult (alpha g) (tlog s) u a.
  binop_step Rmult (beta g) s u b.
  binop_step Rminus a b u c.
  unfold tmul, tsub, tadd. rewrite Hrun_a, Hrun_b. cbn [bind]. rewrite Hrun_c. cbn [bind].
  apply broadcast_shape_Ok in Hbs as [Hbs _].
  inversion Hbs as [| ? ? Hln_bs H1]; subst. inversion H1 as [| ? ? Hbi_bs H2]; subst.
  inversion H2 as [| ? ? Hbp_bs _]; subst. clear H1 H2.
  apply broadcast_shape_Ok in HB as [HB _].
  inversion HB as [| ? ? Hbv_B HB']; subst. inversion HB' as [| ? ? Hbs_B _]; subst.
  assert (Hln_B : bc (rshape (log_normalizer g)) B) by (eapply bc_trans; eauto).
  rewrite (texpand_bc _ _ Hln_B). cbn [bind].
  set (l := {| rshape := B |}).
  assert (HlB : rshape l = B) by reflexivity.
  binop_step Rplus c l u r.
  rewrite Hrun_r. exists r. split; [reflexivity |]. split; [exact Hu_r |].
  rewrite HlB in Hr_r.
  assert (Hs_r : bc (rshape s) (rshape r)) by (eapply bc_trans; [exact Hr_b |]; bc_solve).
  assert (Hal_r : bc (rshape (alpha g)) (rshape r)) by bc_solve.
  assert (Hbe_r : bc (rshape (beta g)) (rshape r)) by bc_solve.
  assert (Hln_r : bc (rshape (log_normalizer g)) (rshape r)) by bc_solve.
  assert (Hbs_r : bc bs (rshape r)) by bc_solve.
  split.
  - repeat constructor; try assumption.
    + exact (bc_trans _ _ _ Hbi_bs Hbs_r).
    + exact (bc_trans _ _ _ Hbp_bs Hbs_r).
    + exact (bc_trans _ _ _ Hbv_B Hr_r).
  - intros idx. unfold log_density_formula. rewrite Hiv. cbn [hd rsum].
    rewrite Helt_r, Helt_c, Helt_a, Helt_b. subst l.
    cbn [elt rshape tlog tmap].
    rewrite !bidx_bc by bc_solve. ring.
Qed.

(** The value of [log_density]: on an instance that satisfies the shape
    invariant, at a [value] whose trailing size is [dim()], and when all the
    batch shapes broadcast to a common shape, [log_density] returns the
    tensor of [log_density_formula], whose shape is the least shape that all
    the batch shapes fit. *)
Lemma log_density_spec (g : GaussianGamma.t) (value s : Tensor)
    (n : nat) (bv u : list nat) :
  valid g ->
  dim g = Ok n ->
  rshape value = n :: bv ->
  Forall (fun sh => bc sh u) (batch_shapes g value s) ->
  exists r,
    log_density g value s = Ok r /\
    bc (rshape r) u /\
    Forall (fun sh => bc sh (rshape r)) (batch_shapes g value s) /\
    forall idx, elt r idx = log_density_formula g value s idx.
Proof.
  intros (m & bi & bp & Hiv & HP) Hdim Hv Hall.
  unfold dim, size_last in Hdim. rewrite Hiv in Hdim. injection Hdim as ->.
  destruct n as [| n].
  - now apply log_density_empty with (bi := bi) (bv := bv) (u := u).
  - now apply log_density_nonempty with (n := n) (bi := bi) (bp := bp) (bv := bv) (u := u).
Qed.

(** ** __add__ *)

Lemma bshape_cons_inv (n d : nat) (a b t : list nat) :
  bshape (n :: a) (n :: b) = Some (d :: t) -> d = n /\ bshape a b = Some t.
Proof.
  simpl. unfold bdim. rewrite Nat.eqb_refl.
  destruct (bshape a b); [| discriminate]. intros [= -> ->]. auto.
Qed.

(** A broadcasting operation on matrices of equal size. *)
Lemma binop_total_cons2 (f : R -> R -> R) (a b : Tensor) (n : nat) (sa sb u : list nat) :
  rshape a = n :: n :: sa -> rshape b = n :: n :: sb -> bc sa u -> bc sb u ->
  exists r t,
    broadcast_binop f a b = Ok r /\ rshape r = n :: n :: t /\
    bshape sa sb = Some t /\ bc t u /\
    forall j i idx, j < n -> i < n ->
      elt r (j :: i :: idx) = f (elt a (j :: i :: bidx sa idx)) (elt b (j :: i :: bidx sb idx)).
Proof.
  intros Ha Hb Hsa Hsb.
  destruct (@binop_total f a b (n :: n :: u)) as (r & Hrun & _ & _ & Hu & _ & Helt).
  { rewrite Ha. simpl. auto. }
  { rewrite Hb. simpl. auto. }
  destruct (binop_Ok _ _ _ Hrun) as [Hbs _]. rewrite Ha, Hb in Hbs.
  simpl in Hbs. unfold bdim in Hbs. rewrite Nat.eqb_refl in Hbs.
  destruct (bshape sa sb) as [t |] eqn:Hbs'; [| discriminate].
  injection Hbs as Hsh. symmetry in Hsh.
  exists r, t. rewrite Hsh in Hu. simpl in Hu. repeat split; try tauto.
  intros j i idx Hj Hi. rewrite Helt, Ha, Hb. simpl.
  destruct (Nat.eqb_spec n 1); [| reflexivity].
  now replace j with 0 by lia; replace i with 0 by lia.
Qed.

Lemma binop_cons_shape (f : R -> R -> R) (a b r : Tensor) (n : nat) (sa sb t : list nat) :
  broadcast_binop f a b = Ok r ->
  rshape a = n :: sa -> rshape b = n :: sb -> rshape r = n :: t ->
  bshape sa sb = Some t.
Proof.
  intros Hrun Ha Hb Hr. apply binop_Ok in Hrun as [H _]. rewrite Ha, Hb, Hr in H.
  now apply bshape_cons_inv in H.
Qed.

(** [c] is the elementwise sum of [a] and [b], broadcast against each other. *)
Lemma tadd_elementwise (a b c : Tensor) :
  tadd a b = Ok c -> elementwise_sum a b c.
Proof. intros H. now apply binop_Ok in H. Qed.

Lemma batch_shapes_bc (g : GaussianGamma.t) (value s : Tensor)
    (n m k : nat) (bi bp bv u : list nat) :
  rshape (info_vec g) = n :: bi ->
  rshape (precision g) = m :: k :: bp ->
  rshape value = n :: bv ->
  Forall (fun sh => bc sh u) (batch_shapes g value s) <->
  bc (rshape (log_normalizer g)) u /\ bc bi u /\ bc bp u /\
  bc (rshape (alpha g)) u /\ bc (rshape (beta g)) u /\ bc bv u /\ bc (rshape s) u.
Proof.
  intros Hiv HP Hv. unfold batch_shapes. rewrite Hiv, HP, Hv. cbn [tl skipn]. split.
  - intros H. inversion H as [| ? ? Hln H1]; subst. inversion H1 as [| ? ? Hbi H2]; subst.
    inversion H2 as [| ? ? Hbp H3]; subst. inversion H3 as [| ? ? Hal H4]; subst.
    inversion H4 as [| ? ? Hbe H5]; subst. inversion H5 as [| ? ? Hbv H6]; subst.
    inversion H6 as [| ? ? Hs _]; subst. tauto.
  - intros (? & ? & ? & ? & ? & ? & ?). repeat constructor; assumption.
Qed.

Lemma quadratic_additive (n : nat) (v : nat -> R) (P P1 P2 : nat -> nat -> R)
    (iv iv1 iv2 : nat -> R) :
  (forall i j, i < n -> j < n -> P i j = (P1 i j + P2 i j)%R) ->
  (forall i, i < n -> iv i = (iv1 i + iv2 i)%R) ->
  rsum n (fun i => v i * (-0.5 * rsum n (fun j => P i j * v j) + iv i))%R =
  (rsum n (fun i => v i * (-0.5 * rsum n (fun j => P1 i j * v j) + iv1 i))
   + rsum n (fun i => v i * (-0.5 * rsum n (fun j => P2 i j * v j) + iv2 i)))%R.
Proof.
  intros HP Hiv. rewrite <- rsum_plus. apply rsum_ext. intros i Hi.
  rewrite (Hiv i Hi).
  rewrite (@rsum_ext n (fun j => P i j * v j)%R (fun j => P1 i j * v j + P2 i j * v j)%R)
    by (intros j Hj; rewrite (HP i j Hi Hj); ring).
  rewrite rsum_plus. ring.
Qed.

Lemma add_log_density (g1 g2 : GaussianGamma.t) (value s : Tensor)
    (n : nat) (bv u : list nat) :
  valid g1 -> valid g2 ->
  dim g1 = Ok n -> dim g2 = Ok n ->
  rshape value = n :: bv ->
  Forall (fun sh => bc sh u) (batch_shapes g1 value s ++ batch_shapes g2 value s) ->
  exists (g : GaussianGamma.t) (r r1 r2 r12 : Tensor),
    add g1 g2 = Ok g /\
    tadd (log_normalizer g1) (log_normalizer g2) = Ok (log_normalizer g) /\
    tadd (info_vec g1) (info_vec g2) = Ok (info_vec g) /\
    tadd (precision g1) (precision g2) = Ok (precision g) /\
    tadd (alpha g1) (alpha g2) = Ok (alpha g) /\
    tadd (beta g1) (beta g2) = Ok (beta g) /\
    log_density g value s = Ok r /\
    log_density g1 value s = Ok r1 /\
    log_density g2 value s = Ok r2 /\
    tadd r1 r2 = Ok r12 /\
    tensor_eq r r12.
Proof.
  intros Hg1 Hg2 Hd1 Hd2 Hv Hall.
  assert (Hall1 : Forall (fun sh => bc sh u) (batch_shapes g1 value s))
    by (apply Forall_app in Hall; tauto).
  assert (Hall2 : Forall (fun sh => bc sh u) (batch_shapes g2 value s))
    by (apply Forall_app in Hall; tauto).
  clear Hall.
  destruct Hg1 as (n1 & bi1 & bp1 & Hiv1 & HP1).
  destruct Hg2 as (n2 & bi2 & bp2 & Hiv2 & HP2).
  assert (n1 = n) by (unfold dim, size_last in Hd1; rewrite Hiv1 in Hd1; congruence).
  assert (n2 = n) by (unfold dim, size_last in Hd2; rewrite Hiv2 in Hd2; congruence).
  subst n1 n2.
  destruct (proj1 (@batch_shapes_bc g1 value s _ _ _ _ _ _ u Hiv1 HP1 Hv) Hall1)
    as (Hln1 & Hbi1_u & Hbp1_u & Hal1 & Hbe1 & Hbv & Hs).
  destruct (proj1 (@batch_shapes_bc g2 value s _ _ _ _ _ _ u Hiv2 HP2 Hv) Hall2)
    as (Hln2 & Hbi2_u & Hbp2_u & Hal2 & Hbe2 & _ & _).
  (* the sum *)
  binop_step Rplus (log_normalizer g1) (log_normalizer g2) u lg.
  destruct (@binop_total_cons Rplus (info_vec g1) (info_vec g2) n bi1 bi2 u)
    as (iv & bi & Hrun_iv & Hsh_iv & Hbi1 & Hbi2 & Hbi_u & Helt_iv); try assumption.
  destruct (@binop_total_cons2 Rplus (precision g1) (precision g2) n bp1 bp2 u)
    as (P & bp & Hrun_P & Hsh_P & Hbs_P & Hbp_u & Helt_P); try assumption.
  destruct (bshape_bc _ _ Hbs_P) as [Hbp1 Hbp2].
  binop_step Rplus (alpha g1) (alpha g2) u al.
  binop_step Rplus (beta g1) (beta g2) u be.
  set (g := GaussianGamma.mk lg iv P al be).
  assert (Hadd : add g1 g2 = Ok g).
  { unfold add, dim, size_last. rewrite Hiv1, Hiv2. cbn [bind]. rewrite Nat.eqb_refl.
    unfold tadd. rewrite Hrun_lg. cbn [bind]. rewrite Hrun_iv. cbn [bind].
    rewrite Hrun_P. cbn [bind]. rewrite Hrun_al. cbn [bind]. rewrite Hrun_be. cbn [bind].
    apply init_ok. now exists n, bi, bp. }
  assert (Hvalid : valid g) by (now exists n, bi, bp).
  assert (Hdim : dim g = Ok n) by (unfold dim, size_last; simpl; now rewrite Hsh_iv).
  (* the three densities *)
  destruct (@log_density_spec g value s n bv u Hvalid Hdim Hv)
    as (r & Hrun_r & Hr_u & Hr_all & Helt_r).
  { apply (@batch_shapes_bc g value s _ _ _ _ _ _ u Hsh_iv Hsh_P Hv). tauto. }
  destruct (@log_density_spec g1 value s n bv u) as (r1 & Hrun_r1 & Hr1_u & Hr1_all & Helt_r1);
    [now exists n, bi1, bp1 | assumption | assumption | assumption |].
  destruct (@log_density_spec g2 value s n bv u) as (r2 & Hrun_r2 & Hr2_u & Hr2_all & Helt_r2);
    [now exists n, bi2, bp2 | assumption | assumption | assumption |].
  binop_step Rplus r1 r2 u r12.
  exists g, r, r1, r2, r12.
  do 10 (split; [assumption |]).
  (* the batch shapes below each result *)
  destruct (proj1 (@batch_shapes_bc g value s _ _ _ _ _ _ (rshape r) Hsh_iv Hsh_P Hv) Hr_all)
    as (Hlg_r & Hbi_r & Hbp_r & Hal_r & Hbe_r & Hbv_r & Hs_r).
  destruct (proj1 (@batch_shapes_bc g1 value s _ _ _ _ _ _ (rshape r1) Hiv1 HP1 Hv) Hr1_all)
    as (Hln1_r1 & Hbi1_r1 & Hbp1_r1 & Hal1_r1 & Hbe1_r1 & Hbv_r1 & Hs_r1).
  destruct (proj1 (@batch_shapes_bc g2 value s _ _ _ _ _ _ (rshape r2) Hiv2 HP2 Hv) Hr2_all)
    as (Hln2_r2 & Hbi2_r2 & Hbp2_r2 & Hal2_r2 & Hbe2_r2 & Hbv_r2 & Hs_r2).
  cbn [log_normalizer alpha beta g] in Hlg_r, Hal_r, Hbe_r.
  assert (Hbs_iv : bshape bi1 bi2 = Some bi) by exact (binop_cons_shape _ _ _ Hrun_iv Hiv1 Hiv2 Hsh_iv).
  (* the two results have the same shape *)
  assert (Hr1_r : bc (rshape r1) (rshape r)).
  { destruct (@log_density_spec g1 value s n bv (rshape r)) as (r1' & Hrun' & Hb' & _);
      [now exists n, bi1, bp1 | assumption | assumption | |].
    - apply (@batch_shapes_bc g1 value s _ _ _ _ _ _ (rshape r) Hiv1 HP1 Hv).
      repeat split; try assumption; bc_solve.
    - rewrite Hrun_r1 in Hrun'. now injection Hrun' as <-. }
  assert (Hr2_r : bc (rshape r2) (rshape r)).
  { destruct (@log_density_spec g2 value s n bv (rshape r)) as (r2' & Hrun' & Hb' & _);
      [now exists n, bi2, bp2 | assumption | assumption | |].
    - apply (@batch_shapes_bc g2 value s _ _ _ _ _ _ (rshape r) Hiv2 HP2 Hv).
      repeat split; try assumption; bc_solve.
    - rewrite Hrun_r2 in Hrun'. now injection Hrun' as <-. }
  assert (Hr_le : bc (rshape r) (rshape r12)).
  { destruct (@log_density_spec g value s n bv (rshape r12)) as (r' & Hrun' & Hb' & _);
      [assumption | assumption | assumption | |].
    - apply (@batch_shapes_bc g value s _ _ _ _ _ _ (rshape r12) Hsh_iv Hsh_P Hv).
      cbn [log_normalizer alpha beta g].
      repeat split.
      + apply Hleast_lg; bc_solve.
      + eapply bshape_least; [exact Hbs_iv | bc_solve | bc_solve].
      + eapply bshape_least; [exact Hbs_P | bc_solve | bc_solve].
      + apply Hleast_al; bc_solve.
      + apply Hleast_be; bc_solve.
      + bc_solve.
      + bc_solve.
    - rewrite Hrun_r in Hrun'. now injection Hrun' as <-. }
  assert (Hshape : rshape r = rshape r12).
  { apply bc_antisym; [assumption |]. now apply Hleast_r12. }
  split; [exact Hshape |].
  intros idx _.
  rewrite Helt_r, Helt_r12, Helt_r1, Helt_r2. unfold log_density_formula.
  cbn [g log_normalizer info_vec precision alpha beta].
  rewrite Hiv1, HP1, Hiv2, HP2, Hsh_iv, Hsh_P, Hv. cbn [hd tl skipn].
  rewrite Helt_al, Helt_be, Helt_lg.
  rewrite !bidx_bc by bc_solve.
  rewrite (@quadratic_additive n
             (fun i => elt value (i :: bidx bv idx))
             (fun i j => elt P (j :: i :: bidx bp idx))
             (fun i j => elt (precision g1) (j :: i :: bidx bp1 idx))
             (fun i j => elt (precision g2) (j :: i :: bidx bp2 idx))
             (fun i => elt iv (i :: bidx bi idx))
             (fun i => elt (info_vec g1) (i :: bidx bi1 idx))
             (fun i => elt (info_vec g2) (i :: bidx bi2 idx))).
  - ring.
  - intros i j Hi Hj. rewrite Helt_P by assumption. now rewrite !bidx_bc by bc_solve.
  - intros i Hi. rewrite Helt_iv by assumption. now rewrite !bidx_bc by bc_solve.
Qed.

(** C5: for two instances of equal [dim()] whose batch shapes broadcast
    (with those of [value] and [s]) to a common shape, [g1 + g2] is the
    instance of the elementwise sums of the five fields, and its
    log-density at any [value] and [s] is the sum of the two log-densities:
    same shape, same entries; when the two [dim()] differ, [g1 + g2] fails. *)
Theorem add_multiplies_densities :
  (forall (g1 g2 : GaussianGamma.t) (value s : Tensor) (n : nat) (bv u : list nat),
      valid g1 -> valid g2 ->
      dim g1 = Ok n -> dim g2 = Ok n ->
      rshape value = n :: bv ->
      Forall (fun sh => bc sh u) (batch_shapes g1 value s ++ batch_shapes g2 value s) ->
      exists (g : GaussianGamma.t) (r r1 r2 r12 : Tensor),
        add g1 g2 = Ok g /\
        elementwise_sum (log_normalizer g1) (log_normalizer g2) (log_normalizer g) /\
        elementwise_sum (info_vec g1) (info_vec g2) (info_vec g) /\
        elementwise_sum (precision g1) (precision g2) (precision g) /\
        elementwise_sum (alpha g1) (alpha g2) (alpha g) /\
        elementwise_sum (beta g1) (beta g2) (beta g) /\
        log_density g value s = Ok r /\
        log_density g1 value s = Ok r1 /\
        log_density g2 value s = Ok r2 /\
        tadd r1 r2 = Ok r12 /\
        tensor_eq r r12) /\
  (forall (g1 g2 : GaussianGamma.t) (n m : nat),
      dim g1 = Ok n -> dim g2 = Ok m -> n <> m ->
      add g1 g2 = Raise (AssertionError 155)).
Proof.
  split.
  - intros g1 g2 value s n bv u Hg1 Hg2 Hd1 Hd2 Hv Hall.
    destruct (@add_log_density g1 g2 value s n bv u Hg1 Hg2 Hd1 Hd2 Hv Hall)
      as (g & r & r1 & r2 & r12 & Hadd & Hln & Hiv & HP & Hal & Hbe & Hr & Hr1 & Hr2 & Hr12 & Heq).
    exists g, r, r1, r2, r12.
    repeat (split; [first [assumption | now apply tadd_elementwise] |]). assumption.
  - intros g1 g2 n m H1 H2 Hne. unfold add. rewrite H1, H2. cbn [bind].
    now destruct (Nat.eqb_spec n m).
Qed.

Lemma add_multiplies_densities_witness :
  exists (g : GaussianGamma.t) (r r1 r2 r12 : Tensor),
    add scenario scenario = Ok g /\
    elementwise_sum (alpha scenario) (alpha scenario) (alpha g) /\
    log_density g (vector [1%R]) (scalar 2) = Ok r /\
    log_density scenario (vector [1%R]) (scalar 2) = Ok r1 /\
    log_density scenario (vector [1%R]) (scalar 2) = Ok r2 /\
    tadd r1 r2 = Ok r12 /\
    tensor_eq r r12.
Proof.
  destruct (proj1 add_multiplies_densities scenario scenario (vector [1%R]) (scalar 2) 1 [] [])
    as (g & r & r1 & r2 & r12 & Hadd & _ & _ & _ & Hal & _ & Hr & Hr1 & Hr2 & Hr12 & Heq).
  - exists 1, [], []. split; reflexivity.
  - exists 1, [], []. split; reflexivity.
  - reflexivity.
  - reflexivity.
  - reflexivity.
  - repeat constructor.
  - exists g, r, r1, r2, r12. tauto.
Defined.

(** ** Further properties of log_density *)

(** X1: on an instance that satisfies the shape invariant, at a [value]
    whose trailing size is [dim()], and when the batch shapes of the fields,
    of [value] and of [s] broadcast to a common shape, [log_density] returns
    the tensor of the documented formula
    [alpha * log(s) + s * (-0.5 * value^T precision value + value^T info_vec - beta)
     + log_normalizer], in both of its branches; the shape of the result is
    the broadcast of those batch shapes. *)
Theorem log_density_computes_documented_formula
    (g : GaussianGamma.t) (value s : Tensor) (n : nat) (bv u : list nat) :
  valid g ->
  dim g = Ok n ->
  rshape value = n :: bv ->
  Forall (fun sh => bc sh u) (batch_shapes g value s) ->
  exists r,
    log_density g value s = Ok r /\
    broadcast_shape (batch_shapes g value s) = Ok (rshape r) /\
    forall idx, elt r idx = log_density_formula g value s idx.
Proof.
  intros Hg Hd Hv Hall.
  destruct (@log_density_spec g value s n bv u Hg Hd Hv Hall) as (r & Hrun & _ & Hub & Helt).
  exists r. split; [exact Hrun |]. split; [| exact Helt].
  destruct (broadcast_shape_exists _ Hall) as (t & Ht & _).
  rewrite Ht. f_equal.
  destruct (broadcast_shape_Ok _ Ht) as [Ht_ub Ht_least].
  apply bc_antisym; [now apply Ht_least |].
  destruct (@log_density_spec g value s n bv t Hg Hd Hv Ht_ub) as (r' & Hrun' & Hb & _).
  rewrite Hrun in Hrun'. now injection Hrun' as <-.
Qed.

Lemma log_density_computes_documented_formula_witness :
  exists r,
    log_density scenario2 (vector [1; 1]%R) (scalar 2) = Ok r /\
    broadcast_shape (batch_shapes scenario2 (vector [1; 1]%R) (scalar 2)) = Ok (rshape r) /\
    forall idx, elt r idx = log_density_formula scenario2 (vector [1; 1]%R) (scalar 2) idx.
Proof.
  apply (@log_density_computes_documented_formula scenario2 (vector [1; 1]%R) (scalar 2) 2 [] []).
  - exists 2, [], []. split; reflexivity.
  - reflexivity.
  - reflexivity.
  - repeat constructor.
Defined.

(** X2: [log_density] does not accept a [value] of the wrong length: on an
    instance that satisfies the shape invariant, a [value] whose trailing
    size is neither 0 nor [dim()] makes the matrix product fail with a
    [RuntimeError], and a 0-dimensional [value] raises [IndexError]. *)
Theorem log_density_rejects_wrong_length :
  (forall (g : GaussianGamma.t) (value s : Tensor) (n m : nat),
      valid g -> dim g = Ok n -> size_last value = Ok m -> m <> 0 -> m <> n ->
      log_density g value s = Raise RuntimeError) /\
  (forall (g : GaussianGamma.t) (value s : Tensor),
      rshape value = [] -> log_density g value s = Raise IndexError).
Proof.
  split.
  - intros g value s n m (n' & bi & bp & Hiv & HP) Hd Hm Hm0 Hmn.
    unfold dim, size_last in Hd. rewrite Hiv in Hd. injection Hd as ->.
    unfold log_density. rewrite Hm. cbn [bind].
    destruct (Nat.eqb_spec m 0) as [| _]; [contradiction |].
    unfold size_last in Hm. destruct (rshape value) as [| m' bv] eqn:Hv; [discriminate |].
    injection Hm as ->.
    unfold matmul, matmul_batched. cbn [unsqueeze_last rshape]. rewrite HP, Hv.
    destruct (Nat.eqb_spec n m); [congruence | reflexivity].
  - intros g value s Hv. unfold log_density, size_last. now rewrite Hv.
Qed.

Lemma log_density_rejects_wrong_length_witness :
  log_density scenario (vector [1; 1]%R) (scalar 2) = Raise RuntimeError /\
  log_density scenario (scalar 1) (scalar 2) = Raise IndexError.
Proof.
  destruct log_density_rejects_wrong_length as [Hlen Hdim0]. split.
  - apply (Hlen scenario (vector [1; 1]%R) (scalar 2) 1 2).
    + exists 1, [], []. split; reflexivity.
    + reflexivity.
    + reflexivity.
    + discriminate.
    + discriminate.
  - apply Hdim0. reflexivity.
Defined.

(** ** Further properties of condition *)

Lemma slice_to_bounds (n k : nat) :
  k <= n ->
  slice_lo (slice_to (Z.of_nat n - Z.of_nat k)) n = 0 /\
  slice_len (slice_to (Z.of_nat n - Z.of_nat k)) n = n - k.
Proof.
  intros H. unfold slice_lo, slice_len, slice_to, slice_bounds, clamp_index. simpl.
  destruct (Z.ltb_spec (Z.of_nat n - Z.of_nat k) 0); split; lia.
Qed.

Lemma slice_from_bounds (n k : nat) :
  k <= n ->
  slice_lo (slice_from (Z.of_nat n - Z.of_nat k)) n = n - k /\
  slice_len (slice_from (Z.of_nat n - Z.of_nat k)) n = k.
Proof.
  intros H. unfold slice_lo, slice_len, slice_from, slice_bounds, clamp_index. simpl.
  destruct (Z.ltb_spec (Z.of_nat n - Z.of_nat k) 0); split; lia.
Qed.

Lemma condition_Ok (g : GaussianGamma.t) (value : Tensor) (n k : nat) (bi bp bv u : list nat) :
  rshape (info_vec g) = n :: bi ->
  rshape (precision g) = n :: n :: bp ->
  rshape value = k :: bv ->
  k <= n ->
  Forall (fun sh => bc sh u) [bi; bp; bv; rshape (beta g)] ->
  exists g' t,
    condition g value = Ok g' /\
    log_normalizer g' = log_normalizer g /\
    alpha g' = alpha g /\
    rshape (precision g') = (n - k) :: (n - k) :: bp /\
    (forall j i b, elt (precision g') (j :: i :: b) = elt (precision g) (j :: i :: b)) /\
    rshape (info_vec g') = (n - k) :: t /\
    bc bi t /\ bc bp t /\ bc bv t /\ bc t u /\
    (forall i idx, i < n - k ->
      elt (info_vec g') (i :: idx) =
      (elt (info_vec g) (i :: bidx bi idx)
       - rsum k (fun j => elt (precision g) ((n - k + j)%nat :: i :: bidx bp idx)
                          * elt value (j :: bidx bv idx)))%R) /\
    bc (rshape (beta g)) (rshape (beta g')) /\
    bc bi (rshape (beta g')) /\ bc bp (rshape (beta g')) /\ bc bv (rshape (beta g')) /\
    bc (rshape (beta g')) u /\
    forall idx,
      elt (beta g') idx =
      (elt (beta g) (bidx (rshape (beta g)) idx)
       - 0.5 * rsum k (fun i =>
                 rsum k (fun j =>
                   elt (precision g) ((n - k + j)%nat :: (n - k + i)%nat :: bidx bp idx)
                   * elt value (j :: bidx bv idx))
                 * elt value (i :: bidx bv idx))
       + rsum k (fun i => elt value (i :: bidx bv idx)
                          * elt (info_vec g) ((n - k + i)%nat :: bidx bi idx)))%R.
Proof.
  intros Hiv HP Hv Hk Hall.
  inversion Hall as [| ? ? Hbi H1]; subst. inversion H1 as [| ? ? Hbp H2]; subst.
  inversion H2 as [| ? ? Hbv H3]; subst. inversion H3 as [| ? ? Hbe _]; subst.
  clear H1 H2 H3 Hall.
  destruct (slice_to_bounds Hk) as [Hlo_a Hlen_a].
  destruct (slice_from_bounds Hk) as [Hlo_b Hlen_b].
  unfold condition, dim, size_last. rewrite Hv, Hiv. cbn [bind].
  destruct (Nat.leb_spec k n) as [_ |]; [| lia].
  unfold slice_last, slice_last2. rewrite Hiv, HP. cbn [bind].
  rewrite Hlo_a, Hlen_a, Hlo_b, Hlen_b.
  match goal with
  | |- context [matmul ?pab (unsqueeze_last value)] =>
      destruct (@matmul_total pab (unsqueeze_last value) k (n - k) 1 bp bv u)
        as (pb & t1 & Hrun_pb & Hsh_pb & Hbp_t1 & Hbv_t1 & Ht1_u & Helt_pb);
      [reflexivity | simpl; now rewrite Hv | assumption | assumption |]
  end.
  rewrite Hrun_pb. cbn [bind].
  assert (Hsq : rshape (squeeze_last pb) = (n - k) :: t1)
    by (unfold squeeze_last; rewrite Hsh_pb; reflexivity).
  match goal with
  | |- context [tsub ?ia (squeeze_last pb)] =>
      destruct (@binop_total_cons Rminus ia (squeeze_last pb) (n - k) bi t1 u)
        as (iv' & t & Hrun_iv & Hsh_iv & Hbi_t & Ht1_t & Ht_u & Helt_iv);
      [reflexivity | exact Hsq | assumption | assumption |]
  end.
  unfold tsub at 1. rewrite Hrun_iv. cbn [bind].
  match goal with
  | |- context [matmul ?pbb (unsqueeze_last value)] =>
      destruct (@matmul_total pbb (unsqueeze_last value) k k 1 bp bv u)
        as (qb & t3 & Hrun_qb & Hsh_qb & Hbp_t3 & Hbv_t3 & Ht3_u & Helt_qb);
      [reflexivity | simpl; now rewrite Hv | assumption | assumption |]
  end.
  rewrite Hrun_qb. cbn [bind].
  assert (Hsq' : rshape (squeeze_last qb) = k :: t3)
    by (unfold squeeze_last; rewrite Hsh_qb; reflexivity).
  destruct (@binop_total_cons Rmult (squeeze_last qb) value k t3 bv u)
    as (qbb & t4 & Hrun_qbb & Hsh_qbb & Ht3_t4 & Hbv_t4 & Ht4_u & Helt_qbb); try assumption.
  unfold tmul at 1. rewrite Hrun_qbb. cbn [bind].
  rewrite (sum_last_cons _ Hsh_qbb).
  match goal with
  | |- context [tsub (beta g) ?q] =>
      destruct (@binop_total Rminus (beta g) q u)
        as (b1 & Hrun_b1 & Hbe_b1 & Ht4_b1 & Hb1_u & _ & Helt_b1);
      [assumption | exact Ht4_u |]
  end.
  unfold tsub at 1. rewrite Hrun_b1. cbn [bind].
  match goal with
  | |- context [tmul value ?ib] =>
      destruct (@binop_total_cons Rmult value ib k bv bi u)
        as (vb & t5 & Hrun_vb & Hsh_vb & Hbv_t5 & Hbi_t5 & Ht5_u & Helt_vb);
      [assumption | reflexivity | assumption | assumption |]
  end.
  unfold tmul at 1. rewrite Hrun_vb. cbn [bind].
  rewrite (sum_last_cons _ Hsh_vb).
  match goal with
  | |- context [tadd b1 ?q] =>
      destruct (@binop_total Rplus b1 q u)
        as (b2 & Hrun_b2 & Hb1_b2 & Ht5_b2 & Hb2_u & _ & Helt_b2);
      [assumption | exact Ht5_u |]
  end.
  unfold tadd at 1. rewrite Hrun_b2. cbn [bind].
  rewrite init_ok by (exists (n - k), t, bp; split; [exact Hsh_iv | reflexivity]).
  cbn [rshape smul tmap] in Ht4_b1, Ht5_b2.
  eexists _, t. split; [reflexivity |].
  cbn [log_normalizer alpha beta precision info_vec rshape elt hd tl].
  repeat (split; [first [reflexivity | assumption] |]).
  split; [exact (bc_trans _ _ _ Hbp_t1 Ht1_t) |].
  split; [exact (bc_trans _ _ _ Hbv_t1 Ht1_t) |].
  split; [assumption |].
  split.
  { intros i idx Hi. rewrite Helt_iv by assumption. cbn [elt hd tl].
    unfold squeeze_last. rewrite Hsh_pb. cbn [elt]. rewrite Helt_pb.
    cbn [elt hd tl unsqueeze_last]. rewrite !bidx_bc by assumption. reflexivity. }
  split; [exact (bc_trans _ _ _ Hbe_b1 Hb1_b2) |].
  split; [solve [bc_chain 4] |]. split; [solve [bc_chain 4] |]. split; [solve [bc_chain 4] |].
  split; [assumption |].
  intros idx. rewrite Helt_b2. cbn [rshape elt]. rewrite Helt_b1. cbn [rshape elt smul tmap].
  rewrite (@bidx_bc _ _ idx Hbe_b1).
  f_equal; [f_equal; f_equal |].
  - apply rsum_ext. intros i Hi. rewrite Helt_qbb by assumption.
    unfold squeeze_last. rewrite Hsh_qb. cbn [elt]. rewrite Helt_qb.
    cbn [elt hd tl unsqueeze_last].
    rewrite !bidx_bc by (solve [bc_chain 4]). reflexivity.
  - apply rsum_ext. intros i Hi. rewrite Helt_vb by assumption. cbn [elt hd tl].
    rewrite !bidx_bc by (solve [bc_chain 4]). reflexivity.
Qed.

(** X3: [g.condition(y).dim() == g.dim() - y.size(-1)].  On an instance that
    satisfies the shape invariant, for a [value] no longer than [dim()] and
    when the batch shapes broadcast to a common shape, [condition] returns an
    instance of dimension [dim() - k] that keeps [log_normalizer] and [alpha],
    whose [precision] is the leading block [P_aa] and whose [info_vec] is
    [info_a - P_ab value]. *)
Theorem condition_reduces_dimension
    (g : GaussianGamma.t) (value : Tensor) (n k : nat) (bv u : list nat) :
  valid g ->
  dim g = Ok n ->
  rshape value = k :: bv ->
  k <= n ->
  Forall (fun sh => bc sh u)
    [tl (rshape (info_vec g)); skipn 2 (rshape (precision g)); bv; rshape (beta g)] ->
  exists g',
    condition g value = Ok g' /\
    dim g' = Ok (n - k) /\
    log_normalizer g' = log_normalizer g /\
    alpha g' = alpha g /\
    firstn 2 (rshape (precision g')) = [n - k; n - k] /\
    (forall j i b, elt (precision g') (j :: i :: b) = elt (precision g) (j :: i :: b)) /\
    forall i idx, i < n - k ->
      elt (info_vec g') (i :: idx) =
      (elt (info_vec g) (i :: bidx (tl (rshape (info_vec g))) idx)
       - rsum k (fun j =>
           elt (precision g)
               ((n - k + j)%nat :: i :: bidx (skipn 2 (rshape (precision g))) idx)
           * elt value (j :: bidx bv idx)))%R.
Proof.
  intros (n' & bi & bp & Hiv & HP) Hd Hv Hk Hall.
  unfold dim, size_last in Hd. rewrite Hiv in Hd. injection Hd as ->.
  rewrite Hiv, HP in Hall |- *. cbn [tl skipn] in Hall |- *.
  destruct (@condition_Ok g value n k bi bp bv u Hiv HP Hv Hk Hall)
    as (g' & t & Hrun & Hln & Hal & HP' & HPelt & Hiv' & _ & _ & _ & _ & Hivelt & _).
  exists g'. split; [exact Hrun |].
  split; [unfold dim, size_last; now rewrite Hiv' |].
  split; [exact Hln |]. split; [exact Hal |].
  split; [now rewrite HP' |]. split; [exact HPelt | exact Hivelt].
Qed.

Lemma condition_reduces_dimension_witness :
  exists g',
    condition scenario2 (vector [1%R]) = Ok g' /\
    dim g' = Ok (2 - 1) /\
    log_normalizer g' = log_normalizer scenario2 /\
    alpha g' = alpha scenario2 /\
    firstn 2 (rshape (precision g')) = [2 - 1; 2 - 1].
Proof.
  destruct (@condition_reduces_dimension scenario2 (vector [1%R]) 2 1 [] [])
    as (g' & Hrun & Hd & Hln & Hal & HP & _).
  - exists 2, [], []. split; reflexivity.
  - reflexivity.
  - reflexivity.
  - lia.
  - repeat constructor.
  - exists g'. tauto.
Defined.

(** ** Further properties of __add__ *)

Lemma bdim_comm (x y : nat) : bdim x y = bdim y x.
Proof.
  unfold bdim.
  destruct (Nat.eqb_spec x y) as [-> | Hxy]; [now rewrite Nat.eqb_refl |].
  destruct (Nat.eqb_spec y x) as [-> | _]; [now elim Hxy |].
  destruct (Nat.eqb_spec x 1) as [-> | Hx]; destruct (Nat.eqb_spec y 1) as [-> | Hy];
    reflexivity.
Qed.

Lemma bshape_comm (a b : list nat) : bshape a b = bshape b a.
Proof.
  revert b. induction a as [| x a IH]; intros [| y b]; simpl; try reflexivity.
  now rewrite bdim_comm, IH.
Qed.

Lemma tadd_comm (a b c : Tensor) :
  tadd a b = Ok c ->
  exists c', tadd b a = Ok c' /\ tensor_eq c c'.
Proof.
  unfold tadd, broadcast_binop. rewrite (bshape_comm (rshape b)).
  destruct (bshape (rshape a) (rshape b)) as [s |]; [| discriminate].
  intros [= <-]. eexists. split; [reflexivity |].
  split; [reflexivity |]. intros idx _. simpl. apply Rplus_comm.
Qed.

Lemma tadd_assoc (a b c ab r : Tensor) :
  tadd a b = Ok ab -> tadd ab c = Ok r ->
  exists bc' r', tadd b c = Ok bc' /\ tadd a bc' = Ok r' /\ tensor_eq r r'.
Proof.
  intros Hab Hr.
  destruct (binop_Ok _ _ _ Hab) as [Hsab Helt_ab].
  destruct (binop_Ok _ _ _ Hr) as [Hsr Helt_r].
  destruct (bshape_bc _ _ Hsab) as [Ha_ab Hb_ab].
  destruct (bshape_bc _ _ Hsr) as [Hab_r Hc_r].
  assert (Ha_r : bc (rshape a) (rshape r)) by (eapply bc_trans; eauto).
  assert (Hb_r : bc (rshape b) (rshape r)) by (eapply bc_trans; eauto).
  binop_step Rplus b c (rshape r) x.
  binop_step Rplus a x (rshape r) y.
  exists x, y. split; [exact Hrun_x |]. split; [exact Hrun_y |].
  split.
  - apply bc_antisym; [| assumption].
    eapply bshape_least; [exact Hsr | | bc_solve].
    eapply bshape_least; [exact Hsab | assumption | bc_solve].
  - intros idx _. rewrite Helt_r, Helt_ab, Helt_y, Helt_x.
    rewrite !bidx_bc by bc_solve. ring.
Qed.

Lemma tensor_eq_shape_invariant (iv P iv' P' : Tensor) :
  tensor_eq iv iv' -> tensor_eq P P' -> shape_invariant iv P -> shape_invariant iv' P'.
Proof.
  intros [Hi _] [HP _] (n & bi & bp & Hiv & HPs). exists n, bi, bp.
  now rewrite <- Hi, <- HP.
Qed.

Lemma add_inv (g1 g2 g : GaussianGamma.t) :
  add g1 g2 = Ok g ->
  (exists n, dim g1 = Ok n /\ dim g2 = Ok n) /\
  tadd (log_normalizer g1) (log_normalizer g2) = Ok (log_normalizer g) /\
  tadd (info_vec g1) (info_vec g2) = Ok (info_vec g) /\
  tadd (precision g1) (precision g2) = Ok (precision g) /\
  tadd (alpha g1) (alpha g2) = Ok (alpha g) /\
  tadd (beta g1) (beta g2) = Ok (beta g) /\
  valid g.
Proof.
  unfold add. intros H.
  destruct (dim g1) as [n |]; cbn [bind] in H; [| discriminate].
  destruct (dim g2) as [m |]; cbn [bind] in H; [| discriminate].
  destruct (Nat.eqb_spec n m) as [-> |]; [| discriminate].
  invert_run H. apply init_inv in H as [-> Hinv]. simpl.
  repeat split; eauto.
Qed.

Lemma add_of_fields (g1 g2 : GaussianGamma.t) (n : nat) (l i P a b : Tensor) :
  dim g1 = Ok n -> dim g2 = Ok n ->
  tadd (log_normalizer g1) (log_normalizer g2) = Ok l ->
  tadd (info_vec g1) (info_vec g2) = Ok i ->
  tadd (precision g1) (precision g2) = Ok P ->
  tadd (alpha g1) (alpha g2) = Ok a ->
  tadd (beta g1) (beta g2) = Ok b ->
  shape_invariant i P ->
  add g1 g2 = Ok (GaussianGamma.mk l i P a b).
Proof.
  intros H1 H2 Hl Hi HP Ha Hb Hinv. unfold add. rewrite H1, H2. cbn [bind].
  rewrite Nat.eqb_refl, Hl. cbn [bind]. rewrite Hi. cbn [bind]. rewrite HP. cbn [bind].
  rewrite Ha. cbn [bind]. rewrite Hb. cbn [bind]. now apply init_ok.
Qed.

Lemma add_comm_when_defined (g1 g2 g : GaussianGamma.t) :
  add g1 g2 = Ok g ->
  exists g', add g2 g1 = Ok g' /\ same_fields g g'.
Proof.
  intros H.
  destruct (add_inv _ _ H) as ((n & H1 & H2) & Hl & Hi & HP & Ha & Hb & Hg).
  destruct (@tadd_comm _ _ _ Hl) as (l' & Hl' & El).
  destruct (@tadd_comm _ _ _ Hi) as (i' & Hi' & Ei).
  destruct (@tadd_comm _ _ _ HP) as (P' & HP' & EP).
  destruct (@tadd_comm _ _ _ Ha) as (a' & Ha' & Ea).
  destruct (@tadd_comm _ _ _ Hb) as (b' & Hb' & Eb).
  exists (GaussianGamma.mk l' i' P' a' b'). split.
  - apply add_of_fields with (n := n); try assumption.
    exact (tensor_eq_shape_invariant Ei EP Hg).
  - repeat split; simpl; first [apply El | apply Ei | apply EP | apply Ea | apply Eb].
Qed.

Lemma add_assoc_when_defined (g1 g2 g3 g12 g : GaussianGamma.t) :
  valid g1 -> valid g2 -> valid g3 ->
  add g1 g2 = Ok g12 -> add g12 g3 = Ok g ->
  exists g23 g', add g2 g3 = Ok g23 /\ add g1 g23 = Ok g' /\ same_fields g g'.
Proof.
  intros Hv1 Hv2 Hv3 H12 H.
  destruct (add_inv _ _ H12) as ((n & H1 & H2) & Hl & Hi & HP & Ha & Hb & Hg12).
  destruct (add_inv _ _ H) as ((m & H12d & H3) & Hl' & Hi' & HP' & Ha' & Hb' & Hg).
  destruct (@tadd_assoc _ _ _ _ _ Hl Hl') as (l23 & l' & Hl23 & Hl1 & El).
  destruct (@tadd_assoc _ _ _ _ _ Hi Hi') as (i23 & i' & Hi23 & Hi1 & Ei).
  destruct (@tadd_assoc _ _ _ _ _ HP HP') as (P23 & P' & HP23 & HP1 & EP).
  destruct (@tadd_assoc _ _ _ _ _ Ha Ha') as (a23 & a' & Ha23 & Ha1 & Ea).
  destruct (@tadd_assoc _ _ _ _ _ Hb Hb') as (b23 & b' & Hb23 & Hb1 & Eb).
  destruct Hv1 as (n1 & bi1 & bp1 & Hiv1 & HP1s).
  destruct Hv2 as (n2 & bi2 & bp2 & Hiv2 & HP2s).
  destruct Hv3 as (n3 & bi3 & bp3 & Hiv3 & HP3s).
  assert (n1 = n) by (unfold dim, size_last in H1; rewrite Hiv1 in H1; congruence).
  assert (n2 = n) by (unfold dim, size_last in H2; rewrite Hiv2 in H2; congruence).
  subst n1 n2.
  destruct (binop_trailing1 _ _ _ Hiv1 Hiv2 Hi) as (bi12 & Hiv12).
  assert (m = n) by (unfold dim, size_last in H12d; rewrite Hiv12 in H12d; congruence).
  subst m.
  assert (n3 = n) by (unfold dim, size_last in H3; rewrite Hiv3 in H3; congruence).
  subst n3.
  destruct (binop_trailing1 _ _ _ Hiv2 Hiv3 Hi23) as (bi23 & Hiv23).
  destruct (binop_trailing2 _ _ _ HP2s HP3s HP23) as (bp23 & HP23s).
  exists (GaussianGamma.mk l23 i23 P23 a23 b23), (GaussianGamma.mk l' i' P' a' b').
  split; [| split].
  - apply add_of_fields with (n := n); try assumption. now exists n, bi23, bp23.
  - apply add_of_fields with (n := n); try assumption.
    + unfold dim, size_last. simpl. now rewrite Hiv23.
    + exact (tensor_eq_shape_invariant Ei EP Hg).
  - repeat split; simpl; first [apply El | apply Ei | apply EP | apply Ea | apply Eb].
Qed.

Lemma batch_shape_fields (g : GaussianGamma.t) (b u : list nat) :
  batch_shape g = Ok b -> bc b u ->
  bc (rshape (log_normalizer g)) u /\ bc (tl (rshape (info_vec g))) u /\
  bc (skipn 2 (rshape (precision g))) u /\
  bc (rshape (alpha g)) u /\ bc (rshape (beta g)) u.
Proof.
  intros Hb Hu. unfold batch_shape in Hb. apply broadcast_shape_Ok in Hb as [Hub _].
  inversion Hub as [| ? ? Hln H1]; subst. inversion H1 as [| ? ? Hbi H2]; subst.
  inversion H2 as [| ? ? Hbp H3]; subst. inversion H3 as [| ? ? Hal H4]; subst.
  inversion H4 as [| ? ? Hbe _]; subst.
  repeat split; eapply bc_trans; eassumption.
Qed.

(** [g1 + g2] is defined when the two [dim()] agree and the batch shapes of
    the fields broadcast to a common shape; the sum has the same [dim()],
    and a batch shape that broadcasts to that common shape. *)
Lemma add_Ok (g1 g2 : GaussianGamma.t) (n : nat) (b1 b2 u : list nat) :
  valid g1 -> valid g2 ->
  dim g1 = Ok n -> dim g2 = Ok n ->
  batch_shape g1 = Ok b1 -> batch_shape g2 = Ok b2 ->
  bc b1 u -> bc b2 u ->
  exists g b,
    add g1 g2 = Ok g /\ valid g /\ dim g = Ok n /\ batch_shape g = Ok b /\ bc b u.
Proof.
  intros Hg1 Hg2 Hd1 Hd2 Hb1 Hb2 Hu1 Hu2.
  destruct (@batch_shape_fields g1 b1 u Hb1 Hu1) as (Hln1 & Hbi1 & Hbp1 & Hal1 & Hbe1).
  destruct (@batch_shape_fields g2 b2 u Hb2 Hu2) as (Hln2 & Hbi2 & Hbp2 & Hal2 & Hbe2).
  pose proof Hg1 as (n1 & bi1 & bp1 & Hiv1 & HP1).
  pose proof Hg2 as (n2 & bi2 & bp2 & Hiv2 & HP2).
  assert (n1 = n) by (unfold dim, size_last in Hd1; rewrite Hiv1 in Hd1; congruence).
  assert (n2 = n) by (unfold dim, size_last in Hd2; rewrite Hiv2 in Hd2; congruence).
  subst n1 n2. rewrite Hiv1, HP1 in *. rewrite Hiv2, HP2 in *. cbn [tl skipn] in *.
  binop_step Rplus (log_normalizer g1) (log_normalizer g2) u lg.
  destruct (@binop_total_cons Rplus (info_vec g1) (info_vec g2) n bi1 bi2 u)
    as (iv & bi & Hrun_iv & Hsh_iv & _ & _ & Hbi_u & _); try assumption.
  destruct (@binop_total_cons2 Rplus (precision g1) (precision g2) n bp1 bp2 u)
    as (P & bp & Hrun_P & Hsh_P & _ & Hbp_u & _); try assumption.
  binop_step Rplus (alpha g1) (alpha g2) u al.
  binop_step Rplus (beta g1) (beta g2) u be.
  set (g := GaussianGamma.mk lg iv P al be).
  assert (Hvalid : valid g) by (now exists n, bi, bp).
  destruct (@broadcast_shape_exists [rshape lg; bi; bp; rshape al; rshape be] u)
    as (b & Hb & Hbu); [repeat constructor; assumption |].
  exists g, b. split; [| split; [exact Hvalid | split; [| split; [| exact Hbu]]]].
  - unfold add, dim, size_last. rewrite Hiv1, Hiv2. cbn [bind]. rewrite Nat.eqb_refl.
    unfold tadd. rewrite Hrun_lg. cbn [bind]. rewrite Hrun_iv. cbn [bind].
    rewrite Hrun_P. cbn [bind]. rewrite Hrun_al. cbn [bind]. rewrite Hrun_be. cbn [bind].
    now apply init_ok.
  - unfold dim, size_last. cbn [g info_vec]. now rewrite Hsh_iv.
  - unfold batch_shape. cbn [g log_normalizer info_vec precision alpha beta].
    now rewrite Hsh_iv, Hsh_P.
Qed.

(** X4: [+] is commutative and associative.  For instances that satisfy the
    shape invariant, have the same [dim()] and whose batch shapes broadcast
    to a common shape, [g1 + g2], [g2 + g1], [g2 + g3], [(g1 + g2) + g3] and
    [g1 + (g2 + g3)] are all defined; [g1 + g2] and [g2 + g1] have the same
    five fields (same shapes, same entries), and so have [(g1 + g2) + g3] and
    [g1 + (g2 + g3)]. *)
Theorem add_commutative_and_associative
    (g1 g2 g3 : GaussianGamma.t) (n : nat) (b1 b2 b3 u : list nat) :
  valid g1 -> valid g2 -> valid g3 ->
  dim g1 = Ok n -> dim g2 = Ok n -> dim g3 = Ok n ->
  batch_shape g1 = Ok b1 -> batch_shape g2 = Ok b2 -> batch_shape g3 = Ok b3 ->
  bc b1 u -> bc b2 u -> bc b3 u ->
  exists g12 g21 g23 g12_3 g1_23,
    add g1 g2 = Ok g12 /\
    add g2 g1 = Ok g21 /\
    same_fields g12 g21 /\
    add g2 g3 = Ok g23 /\
    add g12 g3 = Ok g12_3 /\
    add g1 g23 = Ok g1_23 /\
    same_fields g12_3 g1_23.
Proof.
  intros Hg1 Hg2 Hg3 Hd1 Hd2 Hd3 Hb1 Hb2 Hb3 Hu1 Hu2 Hu3.
  destruct (@add_Ok g1 g2 n b1 b2 u Hg1 Hg2 Hd1 Hd2 Hb1 Hb2 Hu1 Hu2)
    as (g12 & b12 & H12 & Hg12 & Hd12 & Hb12 & Hu12).
  destruct (@add_comm_when_defined _ _ _ H12) as (g21 & H21 & E21).
  destruct (@add_Ok g12 g3 n b12 b3 u Hg12 Hg3 Hd12 Hd3 Hb12 Hb3 Hu12 Hu3)
    as (g12_3 & b & H12_3 & _).
  destruct (@add_assoc_when_defined _ _ _ _ _ Hg1 Hg2 Hg3 H12 H12_3) as (g23 & g1_23 & H23 & H1_23 & E).
  exists g12, g21, g23, g12_3, g1_23. tauto.
Qed.

Lemma add_commutative_and_associative_witness :
  exists g12 g21 g23 g12_3 g1_23,
    add scenario batched = Ok g12 /\
    add batched scenario = Ok g21 /\
    same_fields g12 g21 /\
    add batched scenario3 = Ok g23 /\
    add g12 scenario3 = Ok g12_3 /\
    add scenario g23 = Ok g1_23 /\
    same_fields g12_3 g1_23.
Proof.
  apply (@add_commutative_and_associative scenario batched scenario3 1 [] [2] [] [2]).
  - exists 1, [], []. split; reflexivity.
  - exists 1, [2], [2]. split; reflexivity.
  - exists 1, [], []. split; reflexivity.
  - reflexivity.
  - reflexivity.
  - reflexivity.
  - reflexivity.
  - reflexivity.
  - reflexivity.
  - exact I.
  - simpl. auto.
  - exact I.
Defined.

(** ** Further properties of event_logsumexp *)

Lemma forallb_true {A : Type} (f : A -> bool) (l : list A) :
  (forall x, f x = true) -> forallb f l = true.
Proof. intros H. apply forallb_forall. intros x _. apply H. Qed.

Lemma event_logsumexp_degenerate_Ok (g : GaussianGamma.t) (s : Tensor) (bi bp u : list nat) :
  rshape (info_vec g) = 0 :: bi ->
  rshape (precision g) = 0 :: 0 :: bp ->
  Forall (fun sh => bc sh u) (batch_shapes g (vector []) s) ->
  exists gam r,
    event_logsumexp g = Ok gam /\
    Gamma.log_density gam s = Ok r /\
    bc (rshape r) u /\
    Forall (fun sh => bc sh (rshape r)) (batch_shapes g (vector []) s) /\
    forall idx, elt r idx = log_density_formula g (vector []) s idx.
Proof.
  intros Hiv HP Hall.
  destruct (proj1 (@batch_shapes_bc g (vector []) s _ _ _ _ _ _ u Hiv HP eq_refl) Hall)
    as (Hln & Hbi & Hbp & Hal & Hbe & _ & Hs).
  unfold event_logsumexp, dim, size_last. rewrite Hiv. cbn [bind].
  unfold cholesky. rewrite HP. cbn [Nat.eqb seq forallb].
  rewrite forallb_true by reflexivity. cbn [bind].
  unfold triangular_solve. cbn [unsqueeze_last rshape]. rewrite Hiv.
  cbn [Nat.eqb andb].
  destruct (bshape_join _ _ _ Hbi Hbp) as (wb & Hwb & Hbi_wb & Hbp_wb & Hwb_u).
  rewrite Hwb. cbn [bind].
  unfold squeeze_last at 1. cbn [rshape].
  match goal with
  | |- context [sum_last (tpow2 ?w)] =>
      rewrite (@sum_last_cons (tpow2 w) 0 wb eq_refl)
  end.
  match goal with
  | |- context [tsub (beta g) ?q] =>
      destruct (@binop_total Rminus (beta g) q u)
        as (be & Hrun_be & Hl_be & Hr_be & Hu_be & _ & Helt_be);
      [assumption | exact Hwb_u |]
  end.
  unfold tsub at 1. rewrite Hrun_be. cbn [bind].
  unfold diagonal_last2. cbn [rshape bind Nat.min].
  match goal with
  | |- context [sum_last (tlog ?d)] =>
      rewrite (@sum_last_cons (tlog d) 0 bp eq_refl)
  end.
  match goal with
  | |- context [tadd (log_normalizer g) ?q] =>
      destruct (@binop_total Rplus (log_normalizer g) q u)
        as (lg & Hrun_lg & Hl_lg & Hr_lg & Hu_lg & _ & Helt_lg);
      [assumption | exact Hbp |]
  end.
  unfold tadd at 1. rewrite Hrun_lg. cbn [bind].
  cbn [rshape smul rsub tmap] in Hr_be, Hr_lg.
  exists (Gamma.mk lg (sadd (ssub (alpha g) (0.5 * INR 0)) 1) be).
  unfold Gamma.log_density. cbn [Gamma.alpha Gamma.beta Gamma.log_normalizer].
  binop_step Rmult (ssub (sadd (ssub (alpha g) (0.5 * INR 0)) 1) 1) (tlog s) u a.
  binop_step Rplus lg a u b.
  binop_step Rmult be s u c.
  binop_step Rminus b c u r.
  exists r. split; [reflexivity |].
  unfold tmul, tadd, tsub. rewrite Hrun_a. cbn [bind]. rewrite Hrun_b. cbn [bind].
  rewrite Hrun_c. cbn [bind]. split; [exact Hrun_r |]. split; [exact Hu_r |].
  assert (Hb_r : bc (rshape b) (rshape r)) by assumption.
  assert (Hc_r : bc (rshape c) (rshape r)) by assumption.
  assert (Hwb_r : bc wb (rshape r)) by bc_solve.
  split.
  - apply (@batch_shapes_bc g (vector []) s _ _ _ _ _ _ (rshape r) Hiv HP eq_refl).
    repeat split; try exact I; bc_solve.
  - intros idx. unfold log_density_formula. rewrite Hiv. cbn [hd rsum].
    rewrite Helt_r, Helt_b, Helt_c, Helt_a, Helt_lg, Helt_be.
    cbn [elt rshape tlog ssub sadd smul rsub tmap INR rsum].
    rewrite !bidx_bc by bc_solve. ring.
Qed.

(** X5: for an instance with no event dimension, integrating out the (empty)
    state and evaluating the resulting [Gamma] at [s] is evaluating the
    instance at the empty value:
    [g.event_logsumexp().log_density(s) == g.log_density(empty, s)], same
    shape and same entries, whenever the batch shapes of the fields and of
    [s] broadcast to a common shape. *)
Theorem event_logsumexp_of_degenerate_agrees_with_log_density
    (g : GaussianGamma.t) (s : Tensor) (bi bp u : list nat) :
  rshape (info_vec g) = 0 :: bi ->
  rshape (precision g) = 0 :: 0 :: bp ->
  Forall (fun sh => bc sh u) (batch_shapes g (vector []) s) ->
  exists gam r r',
    event_logsumexp g = Ok gam /\
    Gamma.log_density gam s = Ok r /\
    log_density g (vector []) s = Ok r' /\
    tensor_eq r r'.
Proof.
  intros Hiv HP Hall.
  destruct (@event_logsumexp_degenerate_Ok g s bi bp u Hiv HP Hall)
    as (gam & r & Hgam & Hr & _ & Hr_all & Helt_r).
  destruct (@log_density_empty g (vector []) s bi [] u Hiv eq_refl Hall)
    as (r' & Hr' & _ & Hr'_all & Helt_r').
  exists gam, r, r'. repeat (split; [assumption |]). split.
  - apply bc_antisym.
    + destruct (@event_logsumexp_degenerate_Ok g s bi bp (rshape r') Hiv HP Hr'_all)
        as (gam2 & r2 & Hgam2 & Hr2 & Hb & _).
      rewrite Hgam in Hgam2. injection Hgam2 as <-.
      rewrite Hr in Hr2. now injection Hr2 as <-.
    + destruct (@log_density_empty g (vector []) s bi [] (rshape r) Hiv eq_refl Hr_all)
        as (r2 & Hr2 & Hb & _).
      rewrite Hr' in Hr2. now injection Hr2 as <-.
  - intros idx _. now rewrite Helt_r, Helt_r'.
Qed.

Lemma event_logsumexp_of_degenerate_agrees_with_log_density_witness :
  exists gam r r',
    event_logsumexp degenerate = Ok gam /\
    Gamma.log_density gam (scalar 2) = Ok r /\
    log_density degenerate (vector []) (scalar 2) = Ok r' /\
    tensor_eq r r'.
Proof.
  apply (@event_logsumexp_of_degenerate_agrees_with_log_density degenerate (scalar 2) [] [] []).
  - reflexivity.
  - reflexivity.
  - repeat constructor.
Defined.

(** ** Further properties of expand *)

Lemma bshape_idem (a : list nat) : bshape a a = Some a.
Proof.
  induction a as [| x a IH]; simpl; [reflexivity |].
  unfold bdim. now rewrite Nat.eqb_refl, IH.
Qed.

Lemma quadratic_ext (n : nat) (v v' : nat -> R) (P P' : nat -> nat -> R) (iv iv' : nat -> R) :
  (forall i, i < n -> v i = v' i) ->
  (forall i j, i < n -> j < n -> P i j = P' i j) ->
  (forall i, i < n -> iv i = iv' i) ->
  rsum n (fun i => v i * (-0.5 * rsum n (fun j => P i j * v j) + iv i))%R =
  rsum n (fun i => v' i * (-0.5 * rsum n (fun j => P' i j * v' j) + iv' i))%R.
Proof.
  intros Hv HP Hiv. apply rsum_ext. intros i Hi.
  rewrite (Hv i Hi), (Hiv i Hi).
  rewrite (@rsum_ext n (fun j => P i j * v j)%R (fun j => P' i j * v' j)%R)
    by (intros j Hj; now rewrite (HP i j Hi Hj), (Hv j Hj)).
  reflexivity.
Qed.

Lemma expand_to_batch_shape (g : GaussianGamma.t) (n : nat) (bi bp bs : list nat) :
  rshape (info_vec g) = n :: bi ->
  rshape (precision g) = n :: n :: bp ->
  batch_shape g = Ok bs ->
  expand g (map Z.of_nat (rev bs)) =
  Ok (GaussianGamma.mk
        (mkTensor bs (fun idx => elt (log_normalizer g) (bidx (rshape (log_normalizer g)) idx)))
        (mkTensor (n :: bs) (fun idx => elt (info_vec g) (bidx (n :: bi) idx)))
        (mkTensor (n :: n :: bs) (fun idx => elt (precision g) (bidx (n :: n :: bp) idx)))
        (mkTensor bs (fun idx => elt (alpha g) (bidx (rshape (alpha g)) idx)))
        (mkTensor bs (fun idx => elt (beta g) (bidx (rshape (beta g)) idx)))) /\
  bc (rshape (log_normalizer g)) bs /\ bc bi bs /\ bc bp bs /\
  bc (rshape (alpha g)) bs /\ bc (rshape (beta g)) bs.
Proof.
  intros Hiv HP Hbs. unfold batch_shape in Hbs. rewrite Hiv, HP in Hbs. cbn [tl skipn] in Hbs.
  destruct (broadcast_shape_Ok _ Hbs) as [Hub _].
  inversion Hub as [| ? ? Hln H1]; subst. inversion H1 as [| ? ? Hbi H2]; subst.
  inversion H2 as [| ? ? Hbp H3]; subst. inversion H3 as [| ? ? Hal H4]; subst.
  inversion H4 as [| ? ? Hbe _]; subst. clear H1 H2 H3 H4 Hub.
  split; [| tauto].
  unfold expand, dim, size_last. rewrite Hiv. cbn [bind].
  rewrite (texpand_bc _ _ Hln). cbn [bind].
  replace (map Z.of_nat (rev bs) ++ [Z.of_nat n]) with (map Z.of_nat (rev (n :: bs)))
    by (simpl; now rewrite map_app).
  rewrite (@texpand_bc (info_vec g) (n :: bs)) by (rewrite Hiv; simpl; auto).
  cbn [bind].
  replace (map Z.of_nat (rev bs) ++ [Z.of_nat n; Z.of_nat n])
    with (map Z.of_nat (rev (n :: n :: bs)))
    by (simpl; now rewrite !map_app, <- app_assoc).
  rewrite (@texpand_bc (precision g) (n :: n :: bs)) by (rewrite HP; simpl; auto).
  cbn [bind].
  rewrite (texpand_bc _ _ Hal). cbn [bind]. rewrite (texpand_bc _ _ Hbe). cbn [bind].
  rewrite Hiv, HP. apply init_ok. now exists n, bs, bs.
Qed.

(** X6: expanding an instance to its own [batch_shape] gives every field the
    full batch shape ([log_normalizer], [alpha], [beta] of shape
    [batch_shape], [info_vec] of shape [batch_shape + (n,)], [precision] of
    shape [batch_shape + (n, n)]), each field being the broadcast of the
    original one, and the expanded instance has the same [log_density] as
    the original at every [value] and [s]. *)
Theorem expand_to_batch_shape_keeps_log_density
    (g : GaussianGamma.t) (value s : Tensor) (n : nat) (bv bs u : list nat) :
  valid g ->
  dim g = Ok n ->
  batch_shape g = Ok bs ->
  rshape value = n :: bv ->
  Forall (fun sh => bc sh u) (batch_shapes g value s) ->
  exists g' r r',
    expand g (map Z.of_nat (rev bs)) = Ok g' /\
    rshape (log_normalizer g') = bs /\
    rshape (info_vec g') = n :: bs /\
    rshape (precision g') = n :: n :: bs /\
    rshape (alpha g') = bs /\
    rshape (beta g') = bs /\
    expands_to (log_normalizer g) (log_normalizer g') /\
    expands_to (info_vec g) (info_vec g') /\
    expands_to (precision g) (precision g') /\
    expands_to (alpha g) (alpha g') /\
    expands_to (beta g) (beta g') /\
    log_density g value s = Ok r /\
    log_density g' value s = Ok r' /\
    tensor_eq r r'.
Proof.
  intros Hg Hd Hbs Hv Hall.
  pose proof Hg as (m & bi & bp & Hiv & HP).
  assert (m = n) as ->.
  { unfold dim, size_last in Hd. rewrite Hiv in Hd. now injection Hd. }
  destruct (@expand_to_batch_shape g n bi bp bs Hiv HP Hbs)
    as (Hrun & Hln & Hbi & Hbp & Hal & Hbe).
  set (g' := GaussianGamma.mk
        (mkTensor bs (fun idx => elt (log_normalizer g) (bidx (rshape (log_normalizer g)) idx)))
        (mkTensor (n :: bs) (fun idx => elt (info_vec g) (bidx (n :: bi) idx)))
        (mkTensor (n :: n :: bs) (fun idx => elt (precision g) (bidx (n :: n :: bp) idx)))
        (mkTensor bs (fun idx => elt (alpha g) (bidx (rshape (alpha g)) idx)))
        (mkTensor bs (fun idx => elt (beta g) (bidx (rshape (beta g)) idx)))) in *.
  assert (Hg' : valid g') by (now exists n, bs, bs).
  assert (Hd' : dim g' = Ok n) by reflexivity.
  assert (Hsame : forall w, Forall (fun sh => bc sh w) (batch_shapes g value s) <->
                            Forall (fun sh => bc sh w) (batch_shapes g' value s)).
  { intros w.
    rewrite (@batch_shapes_bc g value s n n n bi bp bv w Hiv HP Hv).
    rewrite (@batch_shapes_bc g' value s n n n bs bs bv w eq_refl eq_refl Hv).
    cbn [g' log_normalizer alpha beta rshape].
    unfold batch_shape in Hbs. rewrite Hiv, HP in Hbs. cbn [tl skipn] in Hbs.
    destruct (broadcast_shape_Ok _ Hbs) as [_ Hleast].
    split.
    - intros (? & ? & ? & ? & ? & ? & ?).
      assert (bc bs w) by (apply Hleast; repeat constructor; assumption). tauto.
    - intros (Hw & _ & _ & _ & _ & ? & ?).
      repeat split; try assumption; eapply bc_trans; eassumption. }
  destruct (@log_density_spec g value s n bv u Hg Hd Hv Hall) as (r & Hr & _ & Hub & Helt).
  destruct (@log_density_spec g' value s n bv u Hg' Hd' Hv (proj1 (Hsame u) Hall))
    as (r' & Hr' & _ & Hub' & Helt').
  exists g', r, r'.
  split; [exact Hrun |].
  do 5 (split; [reflexivity |]).
  split; [split; [exact Hln | reflexivity] |].
  split; [split; [rewrite Hiv; simpl; auto | cbn [g' info_vec elt]; now rewrite Hiv] |].
  split; [split; [rewrite HP; simpl; auto | cbn [g' precision elt]; now rewrite HP] |].
  split; [split; [exact Hal | reflexivity] |].
  split; [split; [exact Hbe | reflexivity] |].
  split; [exact Hr |]. split; [exact Hr' |].
  assert (Hshape : rshape r = rshape r').
  { apply bc_antisym.
    - destruct (@log_density_spec g value s n bv (rshape r') Hg Hd Hv (proj2 (Hsame _) Hub'))
        as (r0 & Hr0 & Hb & _).
      rewrite Hr in Hr0. now injection Hr0 as <-.
    - destruct (@log_density_spec g' value s n bv (rshape r) Hg' Hd' Hv (proj1 (Hsame _) Hub))
        as (r0 & Hr0 & Hb & _).
      rewrite Hr' in Hr0. now injection Hr0 as <-. }
  split; [exact Hshape |].
  intros idx _. rewrite Helt, Helt'. unfold log_density_formula.
  cbn [g' log_normalizer info_vec precision alpha beta rshape elt hd tl skipn].
  rewrite Hiv, HP. cbn [hd tl skipn].
  rewrite (@bidx_bc _ _ idx Hln), (@bidx_bc _ _ idx Hal), (@bidx_bc _ _ idx Hbe).
  do 3 f_equal. f_equal.
  apply quadratic_ext.
  - reflexivity.
  - intros i j Hi Hj. rewrite !bidx_cons_lt by assumption. now rewrite (@bidx_bc _ _ idx Hbp).
  - intros i Hi. rewrite bidx_cons_lt by assumption. now rewrite (@bidx_bc _ _ idx Hbi).
Qed.

Lemma expand_to_batch_shape_keeps_log_density_witness :
  exists g' r r',
    expand unexpanded (map Z.of_nat (rev [3])) = Ok g' /\
    rshape (log_normalizer g') = [3] /\
    rshape (info_vec g') = [2; 3] /\
    rshape (precision g') = [2; 2; 3] /\
    rshape (alpha g') = [3] /\
    rshape (beta g') = [3] /\
    expands_to (log_normalizer unexpanded) (log_normalizer g') /\
    expands_to (info_vec unexpanded) (info_vec g') /\
    expands_to (precision unexpanded) (precision g') /\
    expands_to (alpha unexpanded) (alpha g') /\
    expands_to (beta unexpanded) (beta g') /\
    log_density unexpanded (vector [1; 1]%R) (scalar 2) = Ok r /\
    log_density g' (vector [1; 1]%R) (scalar 2) = Ok r' /\
    tensor_eq r r'.
Proof.
  apply (@expand_to_batch_shape_keeps_log_density
           unexpanded (vector [1; 1]%R) (scalar 2) 2 [] [3] [3]).
  - exists 2, [], []. split; reflexivity.
  - reflexivity.
  - reflexivity.
  - reflexivity.
  - repeat constructor; simpl; auto.
Defined.

(** ** Further properties of event_pad *)

Lemma rsum_split (a b : nat) (F : nat -> R) :
  rsum (a + b) F = (rsum a F + rsum b (fun i => F (a + i)%nat))%R.
Proof.
  induction b as [| b IH].
  - rewrite Nat.add_0_r. simpl. lra.
  - rewrite Nat.add_succ_r. simpl. rewrite IH. lra.
Qed.

Lemma rsum_window (l n r : nat) (F : nat -> R) :
  (forall i, i < l \/ l + n <= i -> F i = 0%R) ->
  rsum (l + n + r) F = rsum n (fun i => F (l + i)).
Proof.
  intros H.
  rewrite (@rsum_trunc (l + n) (l + n + r)) by (try lia; intros k Hk; apply H; lia).
  rewrite rsum_split. rewrite (@rsum_zero l) by (intros k Hk; apply H; lia). lra.
Qed.

Lemma event_pad_Ok (g : GaussianGamma.t) (l r n : nat) (bi bp : list nat) :
  rshape (info_vec g) = n :: bi ->
  rshape (precision g) = n :: n :: bp ->
  event_pad g (Z.of_nat l) (Z.of_nat r) =
  Ok (GaussianGamma.mk
        (log_normalizer g)
        (mkTensor ((l + n + r) :: bi) (fun idx =>
           match unpad (Z.of_nat l) n (hd 0 idx) with
           | Some j => elt (info_vec g) (j :: tl idx)
           | None => 0%R
           end))
        (mkTensor ((l + n + r) :: (l + n + r) :: bp) (fun idx =>
           match unpad (Z.of_nat l) n (hd 0 idx), unpad (Z.of_nat l) n (hd 0 (tl idx)) with
           | Some j, Some i => elt (precision g) (j :: i :: tl (tl idx))
           | _, _ => 0%R
           end))
        (alpha g) (beta g)).
Proof.
  intros Hiv HP. unfold event_pad, pad1, pad2. rewrite Hiv, HP, overcropped_of_nat.
  simpl.
  replace (Z.to_nat (Z.of_nat n + Z.of_nat l + Z.of_nat r)) with (l + n + r) by lia.
  apply init_ok. eexists _, _, _; simpl; split; reflexivity.
Qed.

Lemma slice_window_bounds (l n r : nat) :
  slice_bounds (Some (Z.of_nat l)) (Some (Z.of_nat (l + n))) (l + n + r) = (l, n).
Proof.
  unfold slice_bounds, clamp_index.
  replace (Z.of_nat l <? 0)%Z with false by (symmetry; apply Z.ltb_ge; lia).
  replace (Z.of_nat (l + n) <? 0)%Z with false by (symmetry; apply Z.ltb_ge; lia).
  f_equal; lia.
Qed.

(** X7: padding the event dimension adds coordinates that the density
    ignores: for non-negative [l] and [r] and a point [x] of trailing size
    [l + n + r], [g.event_pad(l, r).log_density(x, s)] equals
    [g.log_density(x[..., l:l+n], s)]. *)
Theorem event_pad_log_density_ignores_padding
    (g : GaussianGamma.t) (x s : Tensor) (l r n : nat) (bv u : list nat) :
  valid g ->
  dim g = Ok n ->
  rshape x = (l + n + r) :: bv ->
  Forall (fun sh => bc sh u) (batch_shapes g x s) ->
  exists g' value r1 r2,
    event_pad g (Z.of_nat l) (Z.of_nat r) = Ok g' /\
    slice_last x (mkSlice (Some (Z.of_nat l)) (Some (Z.of_nat (l + n)))) = Ok value /\
    log_density g' x s = Ok r1 /\
    log_density g value s = Ok r2 /\
    tensor_eq r1 r2.
Proof.
  intros Hg Hd Hx Hall.
  pose proof Hg as (m & bi & bp & Hiv & HP).
  assert (m = n) as ->.
  { unfold dim, size_last in Hd. rewrite Hiv in Hd. now injection Hd. }
  pose proof (@event_pad_Ok g l r n bi bp Hiv HP) as Hpad.
  set (g' := GaussianGamma.mk _ _ _ _ _) in Hpad.
  set (value := mkTensor (n :: bv) (fun idx => elt x ((l + hd 0 idx) :: tl idx))).
  assert (Hslice : slice_last x (mkSlice (Some (Z.of_nat l)) (Some (Z.of_nat (l + n))))
                   = Ok value).
  { unfold slice_last, slice_len, slice_lo. rewrite Hx. cbn [slice_start slice_stop].
    now rewrite slice_window_bounds. }
  assert (Hg' : valid g') by (now exists (l + n + r), bi, bp).
  assert (Hd' : dim g' = Ok (l + n + r)) by reflexivity.
  assert (Hv : rshape value = n :: bv) by reflexivity.
  assert (Hsame : forall w, Forall (fun sh => bc sh w) (batch_shapes g x s) <->
                            Forall (fun sh => bc sh w) (batch_shapes g value s)).
  { intros w. unfold batch_shapes. now rewrite Hx, Hv. }
  assert (Hsame' : forall w, Forall (fun sh => bc sh w) (batch_shapes g x s) <->
                             Forall (fun sh => bc sh w) (batch_shapes g' x s)).
  { intros w. unfold batch_shapes. cbn [g' log_normalizer info_vec precision alpha beta rshape].
    now rewrite Hiv, HP. }
  destruct (@log_density_spec g' x s _ bv u Hg' Hd' Hx (proj1 (Hsame' u) Hall))
    as (r1 & Hr1 & _ & Hub1 & Helt1).
  destruct (@log_density_spec g value s n bv u Hg Hd Hv (proj1 (Hsame u) Hall))
    as (r2 & Hr2 & _ & Hub2 & Helt2).
  exists g', value, r1, r2.
  split; [exact Hpad |]. split; [exact Hslice |]. split; [exact Hr1 |]. split; [exact Hr2 |].
  assert (Hshape : rshape r1 = rshape r2).
  { apply bc_antisym.
    - destruct (@log_density_spec g' x s _ bv (rshape r2) Hg' Hd' Hx
                  (proj1 (Hsame' _) (proj2 (Hsame _) Hub2))) as (r0 & Hr0 & Hb & _).
      rewrite Hr1 in Hr0. now injection Hr0 as <-.
    - destruct (@log_density_spec g value s n bv (rshape r1) Hg Hd Hv
                  (proj1 (Hsame _) (proj2 (Hsame' _) Hub1))) as (r0 & Hr0 & Hb & _).
      rewrite Hr2 in Hr0. now injection Hr0 as <-. }
  split; [exact Hshape |].
  intros idx _. rewrite Helt1, Helt2. unfold log_density_formula.
  cbn [g' value log_normalizer info_vec precision alpha beta rshape elt hd tl skipn].
  rewrite Hiv, HP, Hx. cbn [hd tl skipn].
  do 3 f_equal. f_equal.
  rewrite rsum_window.
  - apply rsum_ext. intros i Hi.
    rewrite unpad_spec.
    replace ((l <=? l + i) && (l + i <? l + n)) with true
      by (symmetry; apply andb_true_iff; split; [apply Nat.leb_le | apply Nat.ltb_lt]; lia).
    replace (l + i - l) with i by lia.
    do 3 f_equal.
    rewrite rsum_window.
    + apply rsum_ext. intros j Hj.
      rewrite unpad_spec.
      replace ((l <=? l + j) && (l + j <? l + n)) with true
        by (symmetry; apply andb_true_iff; split; [apply Nat.leb_le | apply Nat.ltb_lt]; lia).
      now replace (l + j - l) with j by lia.
    + intros j Hj. rewrite unpad_spec.
      replace ((l <=? j) && (j <? l + n)) with false; [lra |].
      symmetry. apply andb_false_iff.
      destruct Hj; [left; apply Nat.leb_gt | right; apply Nat.ltb_ge]; lia.
  - intros i Hi. rewrite !unpad_spec.
    replace ((l <=? i) && (i <? l + n)) with false.
    + rewrite (@rsum_zero (l + n + r)); [lra |].
      intros j _. destruct (unpad _ _ _); lra.
    + symmetry. apply andb_false_iff.
      destruct Hi; [left; apply Nat.leb_gt | right; apply Nat.ltb_ge]; lia.
Qed.

Lemma event_pad_log_density_ignores_padding_witness :
  exists g' value r1 r2,
    event_pad scenario2 (Z.of_nat 1) (Z.of_nat 2) = Ok g' /\
    slice_last (vector [7; 1; 3; 5; 9]%R)
               (mkSlice (Some (Z.of_nat 1)) (Some (Z.of_nat (1 + 2)))) = Ok value /\
    log_density g' (vector [7; 1; 3; 5; 9]%R) (scalar 2) = Ok r1 /\
    log_density scenario2 value (scalar 2) = Ok r2 /\
    tensor_eq r1 r2.
Proof.
  apply (@event_pad_log_density_ignores_padding
           scenario2 (vector [7; 1; 3; 5; 9]%R) (scalar 2) 1 2 2 [] []).
  - exists 2, [], []. split; reflexivity.
  - reflexivity.
  - reflexivity.
  - repeat constructor.
Defined.

(** ** Further properties of event_permute *)

Lemma rsum_fold (n : nat) (F : nat -> R) :
  rsum n F = fold_right Rplus 0%R (map F (seq 0 n)).
Proof.
  induction n as [| n IH]; [reflexivity |].
  rewrite seq_S, map_app, fold_right_app. simpl. rewrite IH.
  generalize (map F (seq 0 n)). intros l.
  induction l as [| x l IHl]; simpl; [lra | rewrite <- IHl; lra].
Qed.

Lemma fold_Rplus_permutation (l l' : list R) :
  Permutation l l' -> fold_right Rplus 0%R l = fold_right Rplus 0%R l'.
Proof.
  intros H. induction H; simpl; lra.
Qed.

(** Reindexing a finite sum along a rearrangement of its index range. *)
Lemma rsum_permutation (n : nat) (sigma : nat -> nat) (F : nat -> R) :
  Permutation (map sigma (seq 0 n)) (seq 0 n) ->
  rsum n (fun i => F (sigma i)) = rsum n F.
Proof.
  intros H. rewrite !rsum_fold. rewrite <- (map_map sigma F).
  apply fold_Rplus_permutation. now apply Permutation_map.
Qed.

Lemma wrap_index_of_nat (n i : nat) : i < n -> wrap_index n (Z.of_nat i) = Some i.
Proof.
  intros H. unfold wrap_index.
  replace (Z.of_nat i <? 0)%Z with false by (symmetry; apply Z.ltb_ge; lia).
  replace (0 <=? Z.of_nat i)%Z with true by (symmetry; apply Z.leb_le; lia).
  replace (Z.of_nat i <? Z.of_nat n)%Z with true by (symmetry; apply Z.ltb_lt; lia).
  simpl. now rewrite Nat2Z.id.
Qed.

Lemma permutation_of_wrapped (n : nat) (perm : LongTensor) :
  permutation_of n perm ->
  Permutation (map (fun i => wrapped n (lelt perm [i])) (seq 0 n)) (seq 0 n).
Proof.
  intros [_ H]. apply (Permutation_map (wrapped n)) in H.
  rewrite !map_map in H.
  rewrite (@map_ext_in _ _ (fun x => wrapped n (Z.of_nat x)) (fun x => x)) in H.
  - now rewrite map_id in H.
  - intros i Hi. apply in_seq in Hi. unfold wrapped. rewrite wrap_index_of_nat; [reflexivity | lia].
Qed.

Lemma permutation_of_index_ok (n : nat) (perm : LongTensor) :
  permutation_of n perm -> index_ok n perm = true.
Proof.
  intros [Hs H]. unfold index_ok. rewrite Hs. apply forallb_forall. intros idx Hin.
  simpl in Hin. rewrite app_nil_r in Hin. apply in_map_iff in Hin as (i & <- & Hi).
  assert (Hin : In (lelt perm [i]) (map Z.of_nat (seq 0 n))).
  { eapply Permutation_in; [exact H |]. apply in_map_iff. now exists i. }
  apply in_map_iff in Hin as (k & <- & Hk). apply in_seq in Hk.
  rewrite wrap_index_of_nat; [reflexivity | lia].
Qed.

Lemma event_permute_Ok (g : GaussianGamma.t) (perm : LongTensor) (n : nat) (bi bp : list nat) :
  rshape (info_vec g) = n :: bi ->
  rshape (precision g) = n :: n :: bp ->
  permutation_of n perm ->
  exists g',
    event_permute g perm = Ok g' /\
    log_normalizer g' = log_normalizer g /\
    alpha g' = alpha g /\
    beta g' = beta g /\
    rshape (info_vec g') = n :: bi /\
    rshape (precision g') = n :: n :: bp /\
    (forall i b,
        elt (info_vec g') (i :: b) = elt (info_vec g) (wrapped n (lelt perm [i]) :: b)) /\
    (forall j i b,
        elt (precision g') (j :: i :: b) =
        elt (precision g) (wrapped n (lelt perm [j]) :: wrapped n (lelt perm [i]) :: b)).
Proof.
  intros Hiv HP Hperm. pose proof (permutation_of_index_ok Hperm) as Hok.
  destruct Hperm as [Hs _].
  unfold event_permute, dim, size_last, lshape. rewrite Hiv, Hs. cbn [bind rev app shape_eqb].
  rewrite Nat.eqb_refl. cbn [andb].
  unfold index_last at 1. rewrite Hiv, Hok, Hs. cbn [bind app length].
  unfold index_last. rewrite HP, Hok, Hs. cbn [bind app length].
  unfold index_last_but_one. cbn [rshape]. rewrite Hok, Hs. cbn [bind app length].
  rewrite init_ok by (now exists n, bi, bp).
  eexists. split; [reflexivity |]. cbn. repeat split.
Qed.

(** X8: permuting the event dimension relabels the coordinates without
    changing the density: when the entries of [perm] are a rearrangement of
    [0, ..., n - 1], [g.event_permute(perm)] is defined, keeps
    [log_normalizer], [alpha] and [beta], and
    [g.event_permute(perm).log_density(value[..., perm], s)] equals
    [g.log_density(value, s)]. *)
Theorem event_permute_preserves_log_density
    (g : GaussianGamma.t) (perm : LongTensor) (value s : Tensor) (n : nat) (bv u : list nat) :
  valid g ->
  dim g = Ok n ->
  permutation_of n perm ->
  rshape value = n :: bv ->
  Forall (fun sh => bc sh u) (batch_shapes g value s) ->
  exists g' value' r r',
    event_permute g perm = Ok g' /\
    log_normalizer g' = log_normalizer g /\
    alpha g' = alpha g /\
    beta g' = beta g /\
    index_last value perm = Ok value' /\
    log_density g value s = Ok r /\
    log_density g' value' s = Ok r' /\
    tensor_eq r r'.
Proof.
  intros Hg Hd Hperm Hv Hall.
  pose proof Hg as (m & bi & bp & Hiv & HP).
  assert (m = n) as ->.
  { unfold dim, size_last in Hd. rewrite Hiv in Hd. now injection Hd. }
  destruct (@event_permute_Ok g perm n bi bp Hiv HP Hperm)
    as (g' & Hrun & Hln & Hal & Hbe & Hiv' & HP' & Eiv & EP).
  pose proof (permutation_of_index_ok Hperm) as Hok.
  pose proof (permutation_of_wrapped Hperm) as Hsigma.
  set (sigma := fun i => wrapped n (lelt perm [i])) in *.
  set (value' := mkTensor (n :: bv) (fun idx =>
                   elt value (wrapped n (lelt perm (firstn 1 idx)) :: skipn 1 idx))).
  assert (Hidx : index_last value perm = Ok value').
  { unfold index_last. rewrite Hv, Hok. destruct Hperm as [-> _]. cbn [app length].
    reflexivity. }
  assert (Hg' : valid g') by (now exists n, bi, bp).
  assert (Hd' : dim g' = Ok n) by (unfold dim, size_last; now rewrite Hiv').
  assert (Hv' : rshape value' = n :: bv) by reflexivity.
  assert (Hsame : forall w, Forall (fun sh => bc sh w) (batch_shapes g value s) <->
                            Forall (fun sh => bc sh w) (batch_shapes g' value' s)).
  { intros w. unfold batch_shapes. now rewrite Hln, Hal, Hbe, Hiv', HP', Hiv, HP, Hv, Hv'. }
  destruct (@log_density_spec g value s n bv u Hg Hd Hv Hall) as (r & Hr & _ & Hub & Helt).
  destruct (@log_density_spec g' value' s n bv u Hg' Hd' Hv' (proj1 (Hsame u) Hall))
    as (r' & Hr' & _ & Hub' & Helt').
  exists g', value', r, r'.
  do 4 (split; [assumption |]).
  split; [exact Hidx |]. split; [exact Hr |]. split; [exact Hr' |].
  assert (Hshape : rshape r = rshape r').
  { apply bc_antisym.
    - destruct (@log_density_spec g value s n bv (rshape r') Hg Hd Hv (proj2 (Hsame _) Hub'))
        as (r0 & Hr0 & Hb & _).
      rewrite Hr in Hr0. now injection Hr0 as <-.
    - destruct (@log_density_spec g' value' s n bv (rshape r) Hg' Hd' Hv' (proj1 (Hsame _) Hub))
        as (r0 & Hr0 & Hb & _).
      rewrite Hr' in Hr0. now injection Hr0 as <-. }
  split; [exact Hshape |].
  intros idx _. rewrite Helt, Helt'. unfold log_density_formula.
  rewrite Hln, Hal, Hbe, Hiv', HP', Hiv, HP, Hv. cbn [value' rshape elt hd tl skipn firstn].
  fold sigma.
  do 3 f_equal. f_equal.
  rewrite <- (@rsum_permutation n sigma
                (fun i => elt value (i :: bidx bv idx)
                          * (-0.5 * rsum n (fun j => elt (precision g) (j :: i :: bidx bp idx)
                                                     * elt value (j :: bidx bv idx))
                             + elt (info_vec g) (i :: bidx bi idx)))%R Hsigma).
  apply rsum_ext. intros i Hi. rewrite Eiv. fold (sigma i). do 3 f_equal.
  rewrite <- (@rsum_permutation n sigma
                (fun j => elt (precision g) (j :: sigma i :: bidx bp idx)
                          * elt value (j :: bidx bv idx))%R Hsigma).
  apply rsum_ext. intros j Hj. now rewrite EP.
Qed.

Lemma event_permute_preserves_log_density_witness :
  exists g' value' r r',
    event_permute scenario2 (long_vector [1; 0]%Z) = Ok g' /\
    log_normalizer g' = log_normalizer scenario2 /\
    alpha g' = alpha scenario2 /\
    beta g' = beta scenario2 /\
    index_last (vector [3; 5]%R) (long_vector [1; 0]%Z) = Ok value' /\
    log_density scenario2 (vector [3; 5]%R) (scalar 2) = Ok r /\
    log_density g' value' (scalar 2) = Ok r' /\
    tensor_eq r r'.
Proof.
  apply (@event_permute_preserves_log_density
           scenario2 (long_vector [1; 0]%Z) (vector [3; 5]%R) (scalar 2) 2 [] []).
  - exists 2, [], []. split; reflexivity.
  - reflexivity.
  - split; [reflexivity |]. simpl. apply perm_swap.
  - reflexivity.
  - repeat constructor.
Defined.

(** ** When expand is defined *)

Lemma expand_shape_sound (s B B' : list nat) :
  expand_shape s (map Z.of_nat B) = Some B' -> bc s B.
Proof.
  revert B B'. induction s as [| d s IH]; intros B B'; [intros _; exact I |].
  destruct B as [| e B]; simpl; [discriminate |].
  replace (Z.of_nat e =? -1)%Z with false by (symmetry; apply Z.eqb_neq; lia).
  destruct (Z.eqb_spec (Z.of_nat e) (Z.of_nat d)) as [E | E]; simpl.
  - destruct (expand_shape s (map Z.of_nat B)) as [t |] eqn:Ht; [| discriminate].
    intros _. split; [left; lia | eapply IH; eassumption].
  - destruct (Nat.eqb_spec d 1) as [-> | _]; simpl; [| discriminate].
    destruct (0 <=? Z.of_nat e)%Z; [| discriminate].
    destruct (expand_shape s (map Z.of_nat B)) as [t |] eqn:Ht; [| discriminate].
    intros _. split; [now right | eapply IH; eassumption].
Qed.

Lemma texpand_cases (t : Tensor) (B : list nat) :
  (bc (rshape t) B /\
   texpand t (map Z.of_nat (rev B)) = Ok (mkTensor B (fun idx => elt t (bidx (rshape t) idx)))) \/
  (~ bc (rshape t) B /\ texpand t (map Z.of_nat (rev B)) = Raise RuntimeError).
Proof.
  destruct (expand_shape (rshape t) (map Z.of_nat B)) as [B' |] eqn:E.
  - left. apply expand_shape_sound in E. split; [exact E | now apply texpand_bc].
  - right. split.
    + intros H. apply expand_shape_bc in H. congruence.
    + unfold texpand. now rewrite <- map_rev, rev_involutive, E.
Qed.

Lemma broadcast_shape_same (B : list nat) (k : nat) :
  broadcast_shape (repeat B (S k)) = Ok B.
Proof.
  induction k as [| k IH].
  - simpl. now rewrite bshape_nil_r.
  - change (repeat B (S (S k))) with (B :: repeat B (S k)).
    cbn [broadcast_shape]. rewrite IH. cbn [bind]. now rewrite bshape_idem.
Qed.

(** X9: [expand] is defined exactly when the instance's [batch_shape]
    broadcasts to the requested shape.  On an instance that satisfies the
    shape invariant, if [batch_shape] broadcasts to [B] then [expand(B)]
    returns an instance of the same [dim()] whose [batch_shape] is [B];
    if [batch_shape] does not exist or does not broadcast to [B], [expand(B)]
    raises [RuntimeError]. *)
Theorem expand_defined_iff_batch_shape_broadcasts (g : GaussianGamma.t) (B : list nat) :
  valid g ->
  (forall bs, batch_shape g = Ok bs -> bc bs B ->
     exists g',
       expand g (map Z.of_nat (rev B)) = Ok g' /\
       batch_shape g' = Ok B /\
       dim g' = dim g) /\
  ((forall bs, batch_shape g = Ok bs -> ~ bc bs B) ->
     expand g (map Z.of_nat (rev B)) = Raise RuntimeError).
Proof.
  intros (n & bi & bp & Hiv & HP).
  assert (Hrun : expand g (map Z.of_nat (rev B)) =
                 (log_normalizer <- texpand (log_normalizer g) (map Z.of_nat (rev B)) ;;
                  info_vec <- texpand (info_vec g) (map Z.of_nat (rev (n :: B))) ;;
                  precision <- texpand (precision g) (map Z.of_nat (rev (n :: n :: B))) ;;
                  alpha <- texpand (alpha g) (map Z.of_nat (rev B)) ;;
                  beta <- texpand (beta g) (map Z.of_nat (rev B)) ;;
                  init log_normalizer info_vec precision alpha beta)).
  { unfold expand, dim, size_last. rewrite Hiv. cbn [bind].
    simpl rev. now rewrite !map_app, <- !app_assoc. }
  assert (Hall : forall bs, batch_shape g = Ok bs ->
                 (bc bs B <->
                  bc (rshape (log_normalizer g)) B /\ bc bi B /\ bc bp B /\
                  bc (rshape (alpha g)) B /\ bc (rshape (beta g)) B)).
  { intros bs Hbs. unfold batch_shape in Hbs. rewrite Hiv, HP in Hbs. cbn [tl skipn] in Hbs.
    destruct (broadcast_shape_Ok _ Hbs) as [Hub Hleast]. split.
    - intros Hb.
      inversion Hub as [| ? ? Hln H1]; subst. inversion H1 as [| ? ? Hbi H2]; subst.
      inversion H2 as [| ? ? Hbp H3]; subst. inversion H3 as [| ? ? Hal H4]; subst.
      inversion H4 as [| ? ? Hbe _]; subst.
      repeat split; eapply bc_trans; eassumption.
    - intros (? & ? & ? & ? & ?). apply Hleast. repeat constructor; assumption. }
  split.
  - intros bs Hbs Hb. apply (Hall bs Hbs) in Hb as (Hln & Hbi & Hbp & Hal & Hbe).
    rewrite Hrun.
    rewrite (texpand_bc _ _ Hln). cbn [bind].
    rewrite (@texpand_bc (info_vec g) (n :: B)) by (rewrite Hiv; simpl; auto). cbn [bind].
    rewrite (@texpand_bc (precision g) (n :: n :: B)) by (rewrite HP; simpl; auto). cbn [bind].
    rewrite (texpand_bc _ _ Hal). cbn [bind]. rewrite (texpand_bc _ _ Hbe). cbn [bind].
    rewrite init_ok by (now exists n, B, B).
    eexists. split; [reflexivity |]. split.
    + unfold batch_shape. cbn [log_normalizer info_vec precision alpha beta rshape tl skipn].
      apply (broadcast_shape_same B 4).
    + unfold dim, size_last. cbn [info_vec rshape]. now rewrite Hiv.
  - intros Hno. rewrite Hrun.
    destruct (texpand_cases (log_normalizer g) B) as [[Hln ->] | [_ ->]]; [| reflexivity].
    cbn [bind].
    destruct (texpand_cases (info_vec g) (n :: B)) as [[Hbi ->] | [_ ->]]; [| reflexivity].
    cbn [bind].
    destruct (texpand_cases (precision g) (n :: n :: B)) as [[Hbp ->] | [_ ->]]; [| reflexivity].
    cbn [bind].
    destruct (texpand_cases (alpha g) B) as [[Hal ->] | [_ ->]]; [| reflexivity].
    cbn [bind].
    destruct (texpand_cases (beta g) B) as [[Hbe ->] | [_ ->]]; [| reflexivity].
    exfalso.
    rewrite Hiv in Hbi. rewrite HP in Hbp. simpl in Hbi, Hbp.
    destruct (@broadcast_shape_exists
                [rshape (log_normalizer g); bi; bp; rshape (alpha g); rshape (beta g)] B)
      as (bs & Hbs & Hb).
    { repeat constructor; tauto. }
    apply (Hno bs); [| exact Hb].
    unfold batch_shape. now rewrite Hiv, HP.
Qed.

Lemma expand_defined_iff_batch_shape_broadcasts_witness :
  exists g',
    expand unexpanded (map Z.of_nat (rev [3; 4])) = Ok g' /\
    batch_shape g' = Ok [3; 4] /\
    dim g' = dim unexpanded.
Proof.
  assert (Hg : valid unexpanded) by (exists 2, [], []; split; reflexivity).
  apply (proj1 (@expand_defined_iff_batch_shape_broadcasts unexpanded [3; 4] Hg) [3]).
  - reflexivity.
  - simpl. auto.
Defined.

(** ** What condition does to the density *)

Lemma rsum_lin (n : nat) (c : R) (x A B v : nat -> R) :
  rsum n (fun i => x i * (c * (A i + B i) + v i))%R =
  (c * rsum n (fun i => x i * A i) + c * rsum n (fun i => x i * B i)
   + rsum n (fun i => x i * v i))%R.
Proof. induction n as [| n IH]; simpl; [ring | rewrite IH; ring]. Qed.

Lemma rsum_lin_sub (n : nat) (c : R) (x A B v : nat -> R) :
  rsum n (fun i => x i * (c * A i + (v i - B i)))%R =
  (c * rsum n (fun i => x i * A i) + rsum n (fun i => x i * v i)
   - rsum n (fun i => x i * B i))%R.
Proof. induction n as [| n IH]; simpl; [ring | rewrite IH; ring]. Qed.

Lemma rsum_bilinear_swap (m k : nat) (a b : nat -> R) (M : nat -> nat -> R) :
  rsum k (fun i => b i * rsum m (fun j => M i j * a j))%R =
  rsum m (fun j => a j * rsum k (fun i => M i j * b i))%R.
Proof.
  induction k as [| k IH]; simpl.
  - symmetry. apply rsum_zero. intros j _. ring.
  - rewrite IH.
    rewrite (@rsum_ext m (fun j => a j * (rsum k (fun i => M i j * b i) + M k j * b k))%R
               (fun j => a j * rsum k (fun i => M i j * b i) + b k * (M k j * a j))%R)
      by (intros j _; ring).
    rewrite rsum_plus, rsum_scal. reflexivity.
Qed.

(** The quadratic form of a point split into a prefix of length [m] and a
    suffix of length [k], against what [condition] computes from the
    suffix. *)
Lemma condition_discrepancy_algebra (m k : nat) (X V : nat -> R) (P : nat -> nat -> R) (be : R) :
  (forall i j, P i j = P j i) ->
  ((rsum m (fun i =>
      X i * (-0.5 * rsum m (fun j => P i j * X j)
             + (V i - rsum k (fun j => P i (m + j)%nat * X (m + j)%nat))))
    - (be
       - 0.5 * rsum k (fun i => rsum k (fun j => P (m + i)%nat (m + j)%nat * X (m + j)%nat)
                                * X (m + i)%nat)
       + rsum k (fun i => X (m + i)%nat * V (m + i)%nat)))
   - (rsum (m + k) (fun i => X i * (-0.5 * rsum (m + k) (fun j => P i j * X j) + V i)) - be)
   = rsum k (fun i => X (m + i)%nat
                      * rsum k (fun j => P (m + i)%nat (m + j)%nat * X (m + j)%nat))
     - 2 * rsum k (fun i => X (m + i)%nat * V (m + i)%nat))%R.
Proof.
  intros Hsym.
  set (Saa := rsum m (fun i => X i * rsum m (fun j => P i j * X j))%R).
  set (Sab := rsum m (fun i => X i * rsum k (fun j => P i (m + j)%nat * X (m + j)%nat))%R).
  set (Sba := rsum k (fun i => X (m + i)%nat * rsum m (fun j => P (m + i)%nat j * X j))%R).
  set (Sbb := rsum k (fun i => X (m + i)%nat
                               * rsum k (fun j => P (m + i)%nat (m + j)%nat * X (m + j)%nat))%R).
  set (Va := rsum m (fun i => X i * V i)%R).
  set (Vb := rsum k (fun i => X (m + i)%nat * V (m + i)%nat)%R).
  assert (Hfull : rsum (m + k) (fun i => X i * (-0.5 * rsum (m + k) (fun j => P i j * X j) + V i))%R
                  = (-0.5 * Saa + -0.5 * Sab + Va + (-0.5 * Sba + -0.5 * Sbb + Vb))%R).
  { rewrite (@rsum_ext (m + k) _
               (fun i => X i * (-0.5 * (rsum m (fun j => P i j * X j)
                                        + rsum k (fun j => P i (m + j)%nat * X (m + j)%nat))
                                + V i))%R)
      by (intros i _; now rewrite rsum_split).
    rewrite rsum_split. rewrite !rsum_lin. reflexivity. }
  assert (Hcond : rsum m (fun i =>
                    X i * (-0.5 * rsum m (fun j => P i j * X j)
                           + (V i - rsum k (fun j => P i (m + j)%nat * X (m + j)%nat))))%R
                  = (-0.5 * Saa + Va - Sab)%R).
  { now rewrite rsum_lin_sub. }
  assert (Hbb : rsum k (fun i => rsum k (fun j => P (m + i)%nat (m + j)%nat * X (m + j)%nat)
                                 * X (m + i)%nat)%R = Sbb).
  { apply rsum_ext. intros i _. ring. }
  assert (Hswap : Sba = Sab).
  { unfold Sba, Sab.
    rewrite (@rsum_bilinear_swap m k X (fun i => X (m + i)%nat) (fun i j => P (m + i)%nat j)).
    apply rsum_ext. intros j _. f_equal. apply rsum_ext. intros i _. now rewrite Hsym. }
  rewrite Hfull, Hcond, Hbb, Hswap. lra.
Qed.

(** X10: what [condition] does to the density.  For a symmetric
    [precision] and a point [x] of trailing size [n] split as
    [a = x[..., :n-k]] and [b = x[..., n-k:]], [g.condition(b)] and both
    densities are defined, have the same shape, and
    [g.condition(b).log_density(a, s) - g.log_density(x, s)
       = s * (b^T P_bb b - 2 b^T info_b)]:
    the two sides of the docstring's equation differ by the terms of the
    suffix alone, which [condition] moves into [beta] with the opposite
    sign. *)
Theorem condition_log_density_discrepancy
    (g : GaussianGamma.t) (x s : Tensor) (n k : nat) (bv u : list nat) :
  valid g ->
  dim g = Ok n ->
  k <= n ->
  symmetric (precision g) ->
  rshape x = n :: bv ->
  Forall (fun sh => bc sh u) (batch_shapes g x s) ->
  exists a b g' r r',
    slice_last x (slice_to (Z.of_nat n - Z.of_nat k)) = Ok a /\
    slice_last x (slice_from (Z.of_nat n - Z.of_nat k)) = Ok b /\
    condition g b = Ok g' /\
    log_density g x s = Ok r /\
    log_density g' a s = Ok r' /\
    rshape r' = rshape r /\
    forall idx,
      (elt r' idx - elt r idx =
       elt s (bidx (rshape s) idx)
       * (rsum k (fun i =>
            elt b (i :: bidx bv idx)
            * rsum k (fun j =>
                elt (precision g)
                    ((n - k + j)%nat :: (n - k + i)%nat
                     :: bidx (skipn 2 (rshape (precision g))) idx)
                * elt b (j :: bidx bv idx)))
          - 2 * rsum k (fun i =>
                  elt b (i :: bidx bv idx)
                  * elt (info_vec g)
                        ((n - k + i)%nat :: bidx (tl (rshape (info_vec g))) idx))))%R.
Proof.
  intros Hg Hd Hk Hsym Hx Hall.
  pose proof Hg as (n' & bi & bp & Hiv & HP).
  assert (n' = n) as ->.
  { unfold dim, size_last in Hd. rewrite Hiv in Hd. now injection Hd. }
  destruct (slice_to_bounds Hk) as [Hlo_a Hlen_a].
  destruct (slice_from_bounds Hk) as [Hlo_b Hlen_b].
  set (a := mkTensor ((n - k) :: bv) (fun idx => elt x ((0 + hd 0 idx) :: tl idx))).
  set (b := mkTensor (k :: bv) (fun idx => elt x ((n - k + hd 0 idx) :: tl idx))).
  assert (Ha : slice_last x (slice_to (Z.of_nat n - Z.of_nat k)) = Ok a).
  { unfold slice_last. now rewrite Hx, Hlo_a, Hlen_a. }
  assert (Hb : slice_last x (slice_from (Z.of_nat n - Z.of_nat k)) = Ok b).
  { unfold slice_last. now rewrite Hx, Hlo_b, Hlen_b. }
  assert (Hsa : rshape a = (n - k) :: bv) by reflexivity.
  assert (Hsb : rshape b = k :: bv) by reflexivity.
  assert (Hcond : forall w, Forall (fun sh => bc sh w) (batch_shapes g x s) ->
                  Forall (fun sh => bc sh w) [bi; bp; bv; rshape (beta g)]).
  { intros w Hw.
    apply (@batch_shapes_bc g x s n n n bi bp bv w Hiv HP Hx) in Hw
      as (_ & ? & ? & _ & ? & ? & _).
    repeat constructor; assumption. }
  destruct (@condition_Ok g b n k bi bp bv u Hiv HP Hsb Hk (Hcond u Hall))
    as (g' & t & Hrun & Hln & Hal & HP' & HPelt & Hiv' & Hbi_t & Hbp_t & Hbv_t & Ht_u & Hivelt
        & Hbe_tb & Hbi_tb & Hbp_tb & Hbv_tb & Htb_u & Hbeelt).
  assert (Hg' : valid g') by (now exists (n - k), t, bp).
  assert (Hd' : dim g' = Ok (n - k)) by (unfold dim, size_last; now rewrite Hiv').
  assert (Hsame : forall w, Forall (fun sh => bc sh w) (batch_shapes g x s) <->
                            Forall (fun sh => bc sh w) (batch_shapes g' a s)).
  { intros w.
    rewrite (@batch_shapes_bc g x s n n n bi bp bv w Hiv HP Hx).
    rewrite (@batch_shapes_bc g' a s (n - k) (n - k) (n - k) t bp bv w Hiv' HP' Hsa).
    rewrite Hln, Hal. split.
    - intros (Hw1 & Hw2 & Hw3 & Hw4 & Hw5 & Hw6 & Hw7).
      destruct (@condition_Ok g b n k bi bp bv w Hiv HP Hsb Hk)
        as (g'' & t'' & Hrun'' & _ & _ & _ & _ & Hiv'' & _ & _ & _ & Ht_w & _
            & _ & _ & _ & _ & Htb_w & _).
      { repeat constructor; assumption. }
      rewrite Hrun in Hrun''. injection Hrun'' as <-.
      rewrite Hiv' in Hiv''. injection Hiv'' as <-. tauto.
    - intros (Hw1 & Hw2 & Hw3 & Hw4 & Hw5 & Hw6 & Hw7).
      repeat split; try assumption; eapply bc_trans; eassumption. }
  destruct (@log_density_spec g x s n bv u Hg Hd Hx Hall) as (r & Hr & _ & Hub & Helt).
  destruct (@log_density_spec g' a s (n - k) bv u Hg' Hd' Hsa (proj1 (Hsame u) Hall))
    as (r' & Hr' & _ & Hub' & Helt').
  exists a, b, g', r, r'.
  do 5 (split; [assumption |]).
  split.
  { apply bc_antisym.
    - destruct (@log_density_spec g' a s (n - k) bv (rshape r) Hg' Hd' Hsa (proj1 (Hsame _) Hub))
        as (r0 & Hr0 & Hb0 & _).
      rewrite Hr' in Hr0. now injection Hr0 as <-.
    - destruct (@log_density_spec g x s n bv (rshape r') Hg Hd Hx (proj2 (Hsame _) Hub'))
        as (r0 & Hr0 & Hb0 & _).
      rewrite Hr in Hr0. now injection Hr0 as <-. }
  intros idx. rewrite Helt, Helt'. unfold log_density_formula.
  rewrite Hln, Hal, Hiv', HP', Hiv, HP, Hx, Hsa. cbn [hd tl skipn].
  rewrite Hbeelt. rewrite !bidx_bc by assumption.
  rewrite (@rsum_ext (n - k) _
             (fun i => elt x (i :: bidx bv idx)
                       * (-0.5 * rsum (n - k) (fun j => elt (precision g) (j :: i :: bidx bp idx)
                                                       * elt x (j :: bidx bv idx))
                          + (elt (info_vec g) (i :: bidx bi idx)
                             - rsum k (fun j =>
                                 elt (precision g) ((n - k + j)%nat :: i :: bidx bp idx)
                                 * elt x ((n - k + j)%nat :: bidx bv idx)))))%R).
  2:{ intros i Hi. rewrite (Hivelt i _ Hi). rewrite !bidx_bc by assumption.
      cbn [a b elt hd tl Nat.add]. f_equal. f_equal. f_equal.
      apply rsum_ext. intros j _. now rewrite HPelt. }
  cbn [b elt hd tl].
  pose proof (@condition_discrepancy_algebra (n - k) k
                (fun i => elt x (i :: bidx bv idx))
                (fun i => elt (info_vec g) (i :: bidx bi idx))
                (fun i j => elt (precision g) (j :: i :: bidx bp idx))
                (elt (beta g) (bidx (rshape (beta g)) idx))
                (fun i j => Hsym (bidx bp idx) i j)) as Halg.
  cbv beta in Halg. replace (n - k + k) with n in Halg by lia.
  rewrite <- Halg. ring.
Qed.

Lemma scenario2_symmetric : symmetric (precision scenario2).
Proof.
  intros b i j. unfold scenario2, matrix. simpl.
  destruct i as [| [| i]]; destruct j as [| [| j]]; try reflexivity;
    try (now destruct j); try (now destruct i).
  now destruct i, j.
Qed.

Lemma condition_log_density_discrepancy_witness :
  exists a b g' r r',
    slice_last (vector [1; 1]%R) (slice_to (Z.of_nat 2 - Z.of_nat 1)) = Ok a /\
    slice_last (vector [1; 1]%R) (slice_from (Z.of_nat 2 - Z.of_nat 1)) = Ok b /\
    condition scenario2 b = Ok g' /\
    log_density scenario2 (vector [1; 1]%R) (scalar 1) = Ok r /\
    log_density g' a (scalar 1) = Ok r' /\
    rshape r' = rshape r /\
    forall idx,
      (elt r' idx - elt r idx =
       elt (scalar 1) (bidx (rshape (scalar 1)) idx)
       * (rsum 1 (fun i =>
            elt b (i :: bidx [] idx)
            * rsum 1 (fun j =>
                elt (precision scenario2)
                    ((2 - 1 + j)%nat :: (2 - 1 + i)%nat
                     :: bidx (skipn 2 (rshape (precision scenario2))) idx)
                * elt b (j :: bidx [] idx)))
          - 2 * rsum 1 (fun i =>
                  elt b (i :: bidx [] idx)
                  * elt (info_vec scenario2)
                        ((2 - 1 + i)%nat :: bidx (tl (rshape (info_vec scenario2))) idx))))%R.
Proof.
  apply (@condition_log_density_discrepancy
           scenario2 (vector [1; 1]%R) (scalar 1) 2 1 [] []).
  - exists 2, [], []. split; reflexivity.
  - reflexivity.
  - lia.
  - exact scenario2_symmetric.
  - reflexivity.
  - repeat constructor.
Defined.

(** ** Indexing into the batch *)

Lemma wrap_index_lt (d : nat) (z : Z) (i : nat) : wrap_index d z = Some i -> i < d.
Proof.
  unfold wrap_index.
  destruct (z <? 0)%Z;
    match goal with
    | |- context [((0 <=? ?a) && (?a <? ?b))%Z] =>
        destruct (Z.leb_spec 0 a); destruct (Z.ltb_spec a b); simpl; try discriminate
    end; intros [= <-]; lia.
Qed.

Lemma clamp_index_bounds (d : nat) (z : Z) : (0 <= clamp_index d z <= Z.of_nat d)%Z.
Proof. unfold clamp_index. destruct (Z.ltb_spec z 0); lia. Qed.

Lemma slice_in_range (a : slice) (d x : nat) : x < slice_len a d -> slice_lo a d + x < d.
Proof.
  unfold slice_len, slice_lo, slice_bounds. destruct a as [[lo |] [hi |]]; simpl;
    try pose proof (clamp_index_bounds d lo); try pose proof (clamp_index_bounds d hi); lia.
Qed.

(** The source index that [index_axes] computes is in range. *)
Lemma index_axes_in_range (items : list index_item) (s sh : list nat)
    (f : list nat -> list nat) :
  index_axes items s = Ok (sh, f) ->
  forall idx, Forall2 lt idx sh -> Forall2 lt (f idx) s.
Proof.
  revert s sh f. induction items as [| it items IH]; intros s sh f.
  - simpl. intros [= <- <-]. auto.
  - destruct it as [z | a]; destruct s as [| d s]; simpl; try discriminate.
    + destruct (wrap_index d z) as [i |] eqn:Hw; [| discriminate].
      destruct (index_axes items s) as [[sh' f'] |] eqn:E; cbn [bind]; [| discriminate].
      intros [= <- <-] idx Hidx. constructor; [eapply wrap_index_lt; eassumption |].
      eapply IH; eassumption.
    + destruct (index_axes items s) as [[sh' f'] |] eqn:E; cbn [bind]; [| discriminate].
      intros [= <- <-] idx Hidx. inversion Hidx as [| x ? idx' ? Hx Hidx']; subst.
      cbn [hd tl fst snd]. constructor; [now apply slice_in_range |].
      eapply IH; eassumption.
Qed.

Lemma index_axes_slices (k : nat) (s : list nat) :
  k <= length s ->
  exists f,
    index_axes (repeat (Slice slice_all) k) s = Ok (s, f) /\
    forall idx, k <= length idx -> f idx = idx.
Proof.
  revert s. induction k as [| k IH]; intros s Hk.
  - exists (fun idx => idx). split; [reflexivity | auto].
  - destruct s as [| d s]; [simpl in Hk; lia |].
    destruct (IH s) as (f & Hf & Hid); [simpl in Hk; lia |].
    cbn [repeat index_axes]. rewrite Hf. cbn [bind fst snd]. rewrite slice_len_all.
    eexists. split; [reflexivity |].
    intros idx Hidx. destruct idx as [| x idx]; [simpl in Hidx; lia |].
    cbn [hd tl]. rewrite Hid by (simpl in Hidx; lia). reflexivity.
Qed.

(** An index tuple followed by full slices of the trailing axes acts on the
    leading axes as the tuple alone, and leaves the trailing ones. *)
Lemma index_axes_app (items : list index_item) (s sh suf : list nat)
    (f : list nat -> list nat) :
  index_axes items s = Ok (sh, f) ->
  exists f2,
    index_axes (items ++ repeat (Slice slice_all) (length suf)) (s ++ suf) = Ok (sh ++ suf, f2) /\
    forall idx e, length idx = length sh -> length e = length suf ->
      f2 (idx ++ e) = f idx ++ e.
Proof.
  revert s sh f. induction items as [| it items IH]; intros s sh f.
  - simpl. intros [= <- <-].
    destruct (@index_axes_slices (length suf) (s ++ suf)) as (f2 & Hf2 & Hid).
    { rewrite length_app. lia. }
    exists f2. split; [exact Hf2 |].
    intros idx e _ He. apply Hid. rewrite length_app. lia.
  - destruct it as [z | a]; destruct s as [| d s]; simpl; try discriminate.
    + destruct (wrap_index d z) as [i |] eqn:Hw; [| discriminate].
      destruct (index_axes items s) as [[sh' f'] |] eqn:E; cbn [bind]; [| discriminate].
      intros [= <- <-].
      destruct (IH _ _ _ E) as (f2 & -> & Hf2). cbn [bind fst snd].
      eexists. split; [reflexivity |].
      intros idx e Hidx He. cbn beta. now rewrite Hf2.
    + destruct (index_axes items s) as [[sh' f'] |] eqn:E; cbn [bind]; [| discriminate].
      intros [= <- <-].
      destruct (IH _ _ _ E) as (f2 & -> & Hf2). cbn [bind fst snd].
      eexists. split; [reflexivity |].
      intros idx e Hidx He. destruct idx as [| x idx]; [discriminate |].
      cbn [app hd tl]. injection Hidx as Hidx. now rewrite Hf2.
Qed.

(** Indexing the batch axes of a tensor whose [ev] innermost axes are event
    axes. *)
Lemma tgetitem_batch (t : Tensor) (index : list index_item) (ev B sh : list nat)
    (f : list nat -> list nat) :
  rshape t = ev ++ B ->
  index_axes index (rev B) = Ok (sh, f) ->
  exists t',
    tgetitem t (index ++ repeat (Slice slice_all) (length ev)) = Ok t' /\
    rshape t' = ev ++ rev sh /\
    forall e b, length e = length ev -> length b = length sh ->
      elt t' (e ++ b) = elt t (e ++ rev (f (rev b))).
Proof.
  intros Ht Hidx.
  destruct (@index_axes_app index (rev B) sh (rev ev) f Hidx) as (f2 & Hf2 & Hext).
  rewrite length_rev in Hf2.
  unfold tgetitem. rewrite Ht, rev_app_distr, Hf2. cbn [bind fst snd].
  eexists. split; [reflexivity |]. cbn [rshape elt]. split.
  - now rewrite rev_app_distr, rev_involutive.
  - intros e b He Hb. rewrite rev_app_distr.
    rewrite Hext by (rewrite ?length_rev; assumption).
    now rewrite rev_app_distr, rev_involutive.
Qed.

Lemma Forall2_rev_lt (l l' : list nat) : Forall2 lt l l' -> Forall2 lt (rev l) (rev l').
Proof.
  intros H. induction H as [| x y l l' Hxy _ IH]; simpl; [constructor |].
  apply Forall2_app; [exact IH | now constructor].
Qed.

(** X11: indexing into the batch selects the densities of the selected batch
    elements.  When the fields of [g], [value] and [s] all have the batch
    shape [B] (as after [expand]) and the tuple [index] is a valid index of a
    tensor of shape [B], [g[index]] is defined and
    [g[index].log_density(value[index + (slice(None),)], s[index])] equals
    [g.log_density(value, s)[index]]. *)
Theorem getitem_commutes_with_log_density
    (g : GaussianGamma.t) (value s ln' : Tensor) (index : list index_item)
    (n : nat) (B : list nat) :
  same_batch g value s n B ->
  tgetitem (log_normalizer g) index = Ok ln' ->
  exists g' value' s' r r_index r',
    getitem g index = Ok g' /\
    tgetitem value (index ++ [Slice slice_all]) = Ok value' /\
    tgetitem s index = Ok s' /\
    log_density g value s = Ok r /\
    tgetitem r index = Ok r_index /\
    log_density g' value' s' = Ok r' /\
    tensor_eq r' r_index.
Proof.
  intros (Hln & Hiv & HP & Hal & Hbe & Hv & Hs) Hidx.
  assert (Haxes : exists sh f, index_axes index (rev B) = Ok (sh, f)).
  { unfold tgetitem in Hidx. rewrite Hln in Hidx.
    destruct (index_axes index (rev B)) as [[sh f] |]; [eauto | discriminate]. }
  destruct Haxes as (sh & f & Haxes). clear Hidx ln'.
  set (phi := fun b => rev (f (rev b))).
  assert (Hphi : forall b, in_range (rev sh) b -> in_range B (phi b)).
  { intros b Hb. unfold in_range, phi in *.
    rewrite <- (rev_involutive B). apply Forall2_rev_lt.
    apply (index_axes_in_range _ _ Haxes).
    rewrite <- (rev_involutive sh). now apply Forall2_rev_lt. }
  assert (Hlen : forall b, in_range (rev sh) b -> length b = length sh).
  { intros b Hb. apply Forall2_length in Hb. now rewrite length_rev in Hb. }
  destruct (@tgetitem_batch (log_normalizer g) index [] B sh f Hln Haxes)
    as (ln1 & Hrun_ln & Hsh_ln & Helt_ln).
  destruct (@tgetitem_batch (info_vec g) index [n] B sh f Hiv Haxes)
    as (iv1 & Hrun_iv & Hsh_iv & Helt_iv).
  destruct (@tgetitem_batch (precision g) index [n; n] B sh f HP Haxes)
    as (P1 & Hrun_P & Hsh_P & Helt_P).
  destruct (@tgetitem_batch (alpha g) index [] B sh f Hal Haxes)
    as (al1 & Hrun_al & Hsh_al & Helt_al).
  destruct (@tgetitem_batch (beta g) index [] B sh f Hbe Haxes)
    as (be1 & Hrun_be & Hsh_be & Helt_be).
  destruct (@tgetitem_batch value index [n] B sh f Hv Haxes)
    as (v1 & Hrun_v & Hsh_v & Helt_v).
  destruct (@tgetitem_batch s index [] B sh f Hs Haxes)
    as (s1 & Hrun_s & Hsh_s & Helt_s).
  cbn [length repeat app] in *. rewrite app_nil_r in Hrun_ln, Hrun_al, Hrun_be, Hrun_s.
  set (g' := GaussianGamma.mk ln1 iv1 P1 al1 be1).
  assert (Hg' : valid g') by (now exists n, (rev sh), (rev sh)).
  assert (Hget : getitem g index = Ok g').
  { unfold getitem. rewrite Hrun_ln, Hrun_iv, Hrun_P, Hrun_al, Hrun_be. cbn [bind].
    now apply init_ok. }
  assert (Hg : valid g) by (now exists n, B, B).
  assert (Hd : dim g = Ok n) by (unfold dim, size_last; now rewrite Hiv).
  assert (Hd' : dim g' = Ok n) by (unfold dim, size_last; cbn [g' info_vec]; now rewrite Hsh_iv).
  destruct (@log_density_spec g value s n B B Hg Hd Hv) as (r & Hr & Hr_B & Hub & Helt).
  { unfold batch_shapes. rewrite Hln, Hiv, HP, Hal, Hbe, Hv, Hs. cbn [tl skipn].
    repeat constructor; apply bc_refl. }
  assert (Hsh_r : rshape r = B).
  { apply bc_antisym; [exact Hr_B |]. inversion Hub as [| ? ? H _]. now rewrite Hln in H. }
  destruct (@log_density_spec g' v1 s1 n (rev sh) (rev sh) Hg' Hd' Hsh_v)
    as (r' & Hr' & Hr'_B & Hub' & Helt').
  { unfold batch_shapes. cbn [g' log_normalizer info_vec precision alpha beta].
    rewrite Hsh_ln, Hsh_iv, Hsh_P, Hsh_al, Hsh_be, Hsh_v, Hsh_s. cbn [tl skipn].
    repeat constructor; apply bc_refl. }
  assert (Hsh_r' : rshape r' = rev sh).
  { apply bc_antisym; [exact Hr'_B |]. inversion Hub' as [| ? ? H _].
    cbn [g' log_normalizer] in H. now rewrite Hsh_ln in H. }
  destruct (@tgetitem_batch r index [] B sh f Hsh_r Haxes) as (ri & Hrun_ri & Hsh_ri & Helt_ri).
  cbn [length repeat app] in *. rewrite app_nil_r in Hrun_ri.
  exists g', v1, s1, r, ri, r'.
  do 6 (split; [assumption |]).
  split; [congruence |].
  intros idx Hin. rewrite Hsh_r' in Hin.
  pose proof (Hlen _ Hin) as Hl. pose proof (Hphi _ Hin) as Hp.
  assert (E_ri : elt ri idx = elt r (phi idx)) by exact (Helt_ri [] idx eq_refl Hl).
  assert (E_al : elt al1 idx = elt (alpha g) (phi idx)) by exact (Helt_al [] idx eq_refl Hl).
  assert (E_be : elt be1 idx = elt (beta g) (phi idx)) by exact (Helt_be [] idx eq_refl Hl).
  assert (E_ln : elt ln1 idx = elt (log_normalizer g) (phi idx))
    by exact (Helt_ln [] idx eq_refl Hl).
  assert (E_s : elt s1 idx = elt s (phi idx)) by exact (Helt_s [] idx eq_refl Hl).
  assert (E_v : forall i, elt v1 (i :: idx) = elt value (i :: phi idx))
    by (intros i; exact (Helt_v [i] idx eq_refl Hl)).
  assert (E_iv : forall i, elt iv1 (i :: idx) = elt (info_vec g) (i :: phi idx))
    by (intros i; exact (Helt_iv [i] idx eq_refl Hl)).
  assert (E_P : forall j i, elt P1 (j :: i :: idx) = elt (precision g) (j :: i :: phi idx))
    by (intros j i; exact (Helt_P [j; i] idx eq_refl Hl)).
  rewrite Helt', E_ri, Helt.
  unfold log_density_formula. cbn [g' log_normalizer info_vec precision alpha beta].
  rewrite Hsh_ln, Hsh_iv, Hsh_P, Hsh_al, Hsh_be, Hsh_v, Hsh_s, Hln, Hiv, HP, Hal, Hbe, Hv, Hs.
  cbn [hd tl skipn].
  rewrite (bidx_id Hin), (bidx_id Hp).
  rewrite E_al, E_be, E_ln, E_s.
  do 3 f_equal. f_equal.
  apply rsum_ext. intros i _. rewrite E_v, E_iv. do 3 f_equal.
  apply rsum_ext. intros j _. now rewrite E_v, E_P.
Qed.

Lemma getitem_commutes_with_log_density_witness :
  exists g' value' s' r r_index r',
    getitem batched [Int 1] = Ok g' /\
    tgetitem (matrix 2 1 [[3]; [5]]%R) ([Int 1] ++ [Slice slice_all]) = Ok value' /\
    tgetitem (vector [2; 4]%R) [Int 1] = Ok s' /\
    log_density batched (matrix 2 1 [[3]; [5]]%R) (vector [2; 4]%R) = Ok r /\
    tgetitem r [Int 1] = Ok r_index /\
    log_density g' value' s' = Ok r' /\
    tensor_eq r' r_index.
Proof.
  eapply (@getitem_commutes_with_log_density
            batched (matrix 2 1 [[3]; [5]]%R) (vector [2; 4]%R) _ [Int 1] 1 [2]).
  - repeat split; reflexivity.
  - reflexivity.
Defined.

(** ** What event_permute checks *)

Lemma wrap_index_in_range (d : nat) (z : Z) :
  (- Z.of_nat d <= z < Z.of_nat d)%Z ->
  wrap_index d z = Some (Z.to_nat (z mod Z.of_nat d)).
Proof.
  intros H. unfold wrap_index.
  destruct (Z.ltb_spec z 0).
  - replace (z mod Z.of_nat d)%Z with (z + Z.of_nat d)%Z.
    + replace (0 <=? z + Z.of_nat d)%Z with true by (symmetry; apply Z.leb_le; lia).
      now replace (z + Z.of_nat d <? Z.of_nat d)%Z with true by (symmetry; apply Z.ltb_lt; lia).
    + apply Z.mod_unique with (q := (-1)%Z); lia.
  - rewrite Z.mod_small by lia.
    replace (0 <=? z)%Z with true by (symmetry; apply Z.leb_le; lia).
    now replace (z <? Z.of_nat d)%Z with true by (symmetry; apply Z.ltb_lt; lia).
Qed.

Lemma wrap_index_out_of_range (d : nat) (z : Z) :
  ~ (- Z.of_nat d <= z < Z.of_nat d)%Z -> wrap_index d z = None.
Proof.
  intros H. unfold wrap_index.
  destruct (Z.ltb_spec z 0);
    match goal with
    | |- context [((0 <=? ?a) && (?a <? ?b))%Z] =>
        destruct (Z.leb_spec 0 a); destruct (Z.ltb_spec a b); simpl; try reflexivity
    end; lia.
Qed.

Lemma index_ok_vector (n : nat) (perm : LongTensor) :
  lrshape perm = [n] ->
  index_ok n perm = true <->
  forall i, i < n -> (- Z.of_nat n <= lelt perm [i] < Z.of_nat n)%Z.
Proof.
  intros Hs. unfold index_ok. rewrite Hs, forallb_forall. simpl. rewrite app_nil_r. split.
  - intros H i Hi.
    specialize (H [i]). 
    destruct (Z_le_dec (- Z.of_nat n) (lelt perm [i]));
      destruct (Z_lt_dec (lelt perm [i]) (Z.of_nat n)); try lia;
      rewrite wrap_index_out_of_range in H by lia;
      (discriminate H; apply in_map_iff; exists i; split; [reflexivity | apply in_seq; lia]).
  - intros H idx Hin. apply in_map_iff in Hin as (i & <- & Hi). apply in_seq in Hi.
    rewrite wrap_index_in_range; [reflexivity | apply H; lia].
Qed.

Lemma event_permute_gather (g : GaussianGamma.t) (perm : LongTensor) (n : nat)
    (bi bp : list nat) :
  rshape (info_vec g) = n :: bi ->
  rshape (precision g) = n :: n :: bp ->
  lrshape perm = [n] ->
  index_ok n perm = true ->
  exists g',
    event_permute g perm = Ok g' /\
    log_normalizer g' = log_normalizer g /\
    alpha g' = alpha g /\
    beta g' = beta g /\
    rshape (info_vec g') = n :: bi /\
    rshape (precision g') = n :: n :: bp /\
    (forall i b,
        elt (info_vec g') (i :: b) = elt (info_vec g) (wrapped n (lelt perm [i]) :: b)) /\
    (forall j i b,
        elt (precision g') (j :: i :: b) =
        elt (precision g) (wrapped n (lelt perm [j]) :: wrapped n (lelt perm [i]) :: b)).
Proof.
  intros Hiv HP Hs Hok.
  unfold event_permute, dim, size_last, lshape. rewrite Hiv, Hs. cbn [bind rev app shape_eqb].
  rewrite Nat.eqb_refl. cbn [andb].
  unfold index_last at 1. rewrite Hiv, Hok, Hs. cbn [bind app length].
  unfold index_last. rewrite HP, Hok, Hs. cbn [bind app length].
  unfold index_last_but_one. cbn [rshape]. rewrite Hok, Hs. cbn [bind app length].
  rewrite init_ok by (now exists n, bi, bp).
  eexists. split; [reflexivity |]. cbn. repeat split.
Qed.

(** X12: [event_permute] checks the shape and the range of [perm], not that
    it is a permutation.  For [perm] of shape [(n,)]: when every entry lies
    in [[-n, n)], the call returns an instance of the same [dim()] that keeps
    [log_normalizer], [alpha] and [beta], with
    [info_vec'[i] = info_vec[perm[i] mod n]] and
    [precision'[i, j] = precision[perm[i] mod n, perm[j] mod n]], repeated
    entries included; when some entry lies outside, it raises [IndexError]. *)
Theorem event_permute_checks_range_only
    (g : GaussianGamma.t) (perm : LongTensor) (n : nat) :
  valid g ->
  dim g = Ok n ->
  lrshape perm = [n] ->
  ((forall i, i < n -> (- Z.of_nat n <= lelt perm [i] < Z.of_nat n)%Z) ->
   exists g',
     event_permute g perm = Ok g' /\
     dim g' = Ok n /\
     log_normalizer g' = log_normalizer g /\
     alpha g' = alpha g /\
     beta g' = beta g /\
     (forall i b, i < n ->
         elt (info_vec g') (i :: b) =
         elt (info_vec g) (Z.to_nat (lelt perm [i] mod Z.of_nat n) :: b)) /\
     (forall j i b, j < n -> i < n ->
         elt (precision g') (j :: i :: b) =
         elt (precision g) (Z.to_nat (lelt perm [j] mod Z.of_nat n)
                            :: Z.to_nat (lelt perm [i] mod Z.of_nat n) :: b))) /\
  ((exists i, i < n /\ ~ (- Z.of_nat n <= lelt perm [i] < Z.of_nat n)%Z) ->
   event_permute g perm = Raise IndexError).
Proof.
  intros (n' & bi & bp & Hiv & HP) Hd Hs.
  assert (n' = n) as ->.
  { unfold dim, size_last in Hd. rewrite Hiv in Hd. now injection Hd. }
  split.
  - intros Hrange. pose proof (proj2 (@index_ok_vector n perm Hs) Hrange) as Hok.
    destruct (@event_permute_gather g perm n bi bp Hiv HP Hs Hok)
      as (g' & Hrun & Hln & Hal & Hbe & Hiv' & HP' & Eiv & EP).
    exists g'. split; [exact Hrun |].
    split; [unfold dim, size_last; now rewrite Hiv' |].
    do 3 (split; [assumption |]).
    assert (Hw : forall i, i < n ->
                 wrapped n (lelt perm [i]) = Z.to_nat (lelt perm [i] mod Z.of_nat n)).
    { intros i Hi. unfold wrapped. now rewrite wrap_index_in_range by (apply Hrange; exact Hi). }
    split.
    + intros i b Hi. now rewrite Eiv, Hw.
    + intros j i b Hj Hi. now rewrite EP, !Hw.
  - intros (i & Hi & Hout).
    assert (Hok : index_ok n perm = false).
    { destruct (index_ok n perm) eqn:E; [| reflexivity].
      exfalso. apply Hout. now apply (proj1 (@index_ok_vector n perm Hs) E). }
    unfold event_permute, dim, size_last, lshape. rewrite Hiv, Hs. cbn [bind rev app shape_eqb].
    rewrite Nat.eqb_refl. cbn [andb].
    unfold index_last at 1. now rewrite Hiv, Hok.
Qed.

Lemma event_permute_checks_range_only_witness :
  (exists g',
     event_permute scenario2 (long_vector [-1; -1]%Z) = Ok g' /\
     dim g' = Ok 2 /\
     log_normalizer g' = log_normalizer scenario2 /\
     alpha g' = alpha scenario2 /\
     beta g' = beta scenario2) /\
  event_permute scenario2 (long_vector [0; 2]%Z) = Raise IndexError.
Proof.
  assert (Hg : valid scenario2) by (exists 2, [], []; split; reflexivity).
  split.
  - destruct (proj1 (@event_permute_checks_range_only
                       scenario2 (long_vector [-1; -1]%Z) 2 Hg eq_refl eq_refl))
      as (g' & Hrun & Hd & Hln & Hal & Hbe & _).
    + intros i Hi. destruct i as [| [| i]]; simpl; lia.
    + exists g'. tauto.
  - apply (proj2 (@event_permute_checks_range_only
                    scenario2 (long_vector [0; 2]%Z) 2 Hg eq_refl eq_refl)).
    exists 1. split; [lia | simpl; lia].
Defined.

(** ** Integrating a padded instance *)

Lemma schur_zero_row (A : nat -> nat -> R) (z : nat) :
  (forall j, A z j = 0%R) -> forall k j, schur A k z j = 0%R.
Proof.
  intros Hz k. induction k as [| k IH]; intros j; simpl; [apply Hz |].
  rewrite !IH. unfold Rdiv. ring.
Qed.

Lemma Rpositive_zero : Rpositive 0 = false.
Proof. unfold Rpositive. destruct (Rlt_dec 0 0); [lra | reflexivity]. Qed.

Lemma forallb_false {A : Type} (f : A -> bool) (l : list A) (x : A) :
  In x l -> f x = false -> forallb f l = false.
Proof.
  intros Hin Hx. destruct (forallb f l) eqn:E; [| reflexivity].
  rewrite forallb_forall in E. rewrite (E x Hin) in Hx. discriminate.
Qed.

(** A matrix with a zero row has no Cholesky factor. *)
Lemma cholesky_zero_row (P : Tensor) (c z : nat) (bs b0 : list nat) :
  rshape P = c :: c :: bs ->
  in_range bs b0 ->
  z < c ->
  (forall j, elt P (j :: z :: b0) = 0%R) ->
  cholesky P = Raise RuntimeError.
Proof.
  intros HP Hb0 Hz Hrow. unfold cholesky. rewrite HP, Nat.eqb_refl.
  rewrite (@forallb_false _ _ _ b0); [reflexivity | now apply all_indices_complete |].
  apply (@forallb_false _ _ _ z); [apply in_seq; lia |].
  rewrite schur_zero_row; [apply Rpositive_zero |]. intros j. apply Hrow.
Qed.

(** X13: a padded instance cannot be integrated.  For non-negative [l] and
    [r] that are not both zero, and a batch that is not empty,
    [g.event_pad(l, r)] is defined and its [event_logsumexp()] raises
    [RuntimeError]: the padded [precision] has a zero row, so its Cholesky
    factorisation fails. *)
Theorem event_logsumexp_of_padded_raises
    (g : GaussianGamma.t) (l r : nat) (b0 : list nat) :
  valid g ->
  0 < l + r ->
  in_range (skipn 2 (rshape (precision g))) b0 ->
  exists g',
    event_pad g (Z.of_nat l) (Z.of_nat r) = Ok g' /\
    event_logsumexp g' = Raise RuntimeError.
Proof.
  intros (n & bi & bp & Hiv & HP) Hlr Hb0. rewrite HP in Hb0. cbn [skipn] in Hb0.
  eexists. split; [exact (@event_pad_Ok g l r n bi bp Hiv HP) |].
  unfold event_logsumexp, dim, size_last. cbn [info_vec precision rshape bind].
  set (z := if l =? 0 then n else 0).
  match goal with
  | |- context [cholesky ?P] =>
      rewrite (@cholesky_zero_row P (l + n + r) z bp b0); [reflexivity | reflexivity | exact Hb0 | |]
  end.
  - unfold z. destruct (Nat.eqb_spec l 0); lia.
  - intros j. cbn [elt hd tl]. rewrite !unpad_spec.
    replace ((l <=? z) && (z <? l + n)) with false.
    + now destruct ((l <=? j) && (j <? l + n)).
    + symmetry. apply andb_false_iff. unfold z.
      destruct (Nat.eqb_spec l 0) as [-> | Hl];
        [right; apply Nat.ltb_ge | left; apply Nat.leb_gt]; lia.
Qed.

Lemma event_logsumexp_of_padded_raises_witness :
  exists g',
    event_pad scenario (Z.of_nat 0) (Z.of_nat 1) = Ok g' /\
    event_logsumexp g' = Raise RuntimeError.
Proof.
  apply (@event_logsumexp_of_padded_raises scenario 0 1 []).
  - exists 1, [], []. split; reflexivity.
  - lia.
  - constructor.
Defined.

(** ** Densities of a batch, element by element *)

(** When every field, [value] and [s] have the same batch shape, each entry
    of [log_density] is computed from the entries of that batch element. *)
Lemma log_density_full_batch (g : GaussianGamma.t) (value s : Tensor) (n : nat) (B : list nat) :
  same_batch g value s n B ->
  exists r,
    log_density g value s = Ok r /\
    rshape r = B /\
    forall idx, in_range B idx ->
      elt r idx =
      (elt (alpha g) idx * ln (elt s idx)
       + (rsum n (fun i =>
            elt value (i :: idx)
            * (-0.5 * rsum n (fun j => elt (precision g) (j :: i :: idx) * elt value (j :: idx))
               + elt (info_vec g) (i :: idx)))
          - elt (beta g) idx) * elt s idx
       + elt (log_normalizer g) idx)%R.
Proof.
  intros (Hln & Hiv & HP & Hal & Hbe & Hv & Hs).
  assert (Hg : valid g) by (now exists n, B, B).
  assert (Hd : dim g = Ok n) by (unfold dim, size_last; now rewrite Hiv).
  destruct (@log_density_spec g value s n B B Hg Hd Hv) as (r & Hr & Hr_B & Hub & Helt).
  { unfold batch_shapes. rewrite Hln, Hiv, HP, Hal, Hbe, Hv, Hs. cbn [tl skipn].
    repeat constructor; apply bc_refl. }
  exists r. split; [exact Hr |]. split.
  { apply bc_antisym; [exact Hr_B |]. inversion Hub as [| ? ? H _]. now rewrite Hln in H. }
  intros idx Hin. rewrite Helt. unfold log_density_formula.
  rewrite Hln, Hiv, HP, Hal, Hbe, Hv, Hs. cbn [hd tl skipn].
  now rewrite (bidx_id Hin).
Qed.

(** ** Reshaping the batch *)

Lemma ravel_lt (s idx : list nat) : in_range s idx -> ravel s idx < numel s.
Proof.
  intros H. unfold in_range in H. induction H as [| i d idx s Hi _ IH]; simpl; [lia |].
  fold (numel s). nia.
Qed.

Lemma unravel_in_range (s : list nat) (k : nat) : k < numel s -> in_range s (unravel s k).
Proof.
  revert k. induction s as [| d s IH]; intros k Hk; simpl; [constructor |].
  simpl in Hk. fold (numel s) in Hk.
  assert (d <> 0) by (intros ->; simpl in Hk; lia).
  constructor.
  - now apply Nat.mod_upper_bound.
  - apply IH. apply Nat.Div0.div_lt_upper_bound. lia.
Qed.

Lemma unravel_cons (n : nat) (B : list nat) (i K : nat) :
  i < n -> unravel (n :: B) (i + n * K) = i :: unravel B K.
Proof.
  intros Hi. simpl. rewrite (Nat.mul_comm n K).
  rewrite Nat.Div0.mod_add, Nat.mod_small by assumption.
  rewrite Nat.div_add by lia. now rewrite Nat.div_small by assumption.
Qed.

Lemma filter_known_of_nat (l : list nat) :
  filter (fun z => negb (z =? -1)%Z) (map Z.of_nat l) = map Z.of_nat l.
Proof.
  induction l as [| x l IH]; simpl; [reflexivity |].
  replace (Z.of_nat x =? -1)%Z with false by (symmetry; apply Z.eqb_neq; lia).
  simpl. now rewrite IH.
Qed.

Lemma reshape_shape_of_nat (l : list nat) : reshape_shape (numel l) (map Z.of_nat l) = Some l.
Proof.
  unfold reshape_shape. rewrite filter_known_of_nat.
  replace (existsb (fun z => (z <? 0)%Z) (map Z.of_nat l)) with false.
  - rewrite Nat.sub_diag, map_map.
    rewrite (@map_ext _ _ (fun x => Z.to_nat (Z.of_nat x)) (fun x => x)) by apply Nat2Z.id.
    now rewrite map_id, Nat.eqb_refl.
  - symmetry. induction l as [| x l IH]; simpl; [reflexivity |].
    now replace (Z.of_nat x <? 0)%Z with false by (symmetry; apply Z.ltb_ge; lia).
Qed.

Lemma treshape_of_nat (t : Tensor) (s' : list nat) :
  numel s' = numel (rshape t) ->
  treshape t (map Z.of_nat (rev s')) =
  Ok (mkTensor s' (fun idx => elt t (unravel (rshape t) (ravel s' idx)))).
Proof.
  intros H. unfold treshape. rewrite <- map_rev, rev_involutive, <- H.
  now rewrite reshape_shape_of_nat.
Qed.

(** X14: reshaping the batch rearranges the densities in the same way.
    When the fields of [g], [value] and [s] all have the batch shape [B] and
    [B'] has as many elements as [B], [g.reshape(B')] is defined and
    [g.reshape(B').log_density(value.reshape(B' + (n,)), s.reshape(B'))]
    equals [g.log_density(value, s).reshape(B')]. *)
Theorem reshape_commutes_with_log_density
    (g : GaussianGamma.t) (value s : Tensor) (n : nat) (B B' : list nat) :
  same_batch g value s n B ->
  numel B' = numel B ->
  exists g' value' s' r r_reshaped r',
    reshape g (map Z.of_nat (rev B')) = Ok g' /\
    treshape value (map Z.of_nat (rev B') ++ [Z.of_nat n]) = Ok value' /\
    treshape s (map Z.of_nat (rev B')) = Ok s' /\
    log_density g value s = Ok r /\
    treshape r (map Z.of_nat (rev B')) = Ok r_reshaped /\
    log_density g' value' s' = Ok r' /\
    tensor_eq r' r_reshaped.
Proof.
  intros (Hln & Hiv & HP & Hal & Hbe & Hv & Hs) Hnum.
  assert (E1 : map Z.of_nat (rev B') ++ [Z.of_nat n] = map Z.of_nat (rev (n :: B')))
    by (simpl; now rewrite map_app).
  assert (E2 : map Z.of_nat (rev B') ++ [Z.of_nat n; Z.of_nat n]
               = map Z.of_nat (rev (n :: n :: B')))
    by (simpl; now rewrite !map_app, <- app_assoc).
  assert (Hnum1 : numel (n :: B') = numel (n :: B)) by (simpl; fold (numel B') (numel B); lia).
  assert (Hnum2 : numel (n :: n :: B') = numel (n :: n :: B))
    by (simpl; fold (numel B') (numel B); lia).
  set (psi := fun idx => unravel B (ravel B' idx)).
  assert (Hpsi : forall idx, in_range B' idx -> in_range B (psi idx)).
  { intros idx Hin. apply unravel_in_range. rewrite <- Hnum. now apply ravel_lt. }
  set (ln1 := mkTensor B' (fun idx => elt (log_normalizer g) (psi idx))).
  set (al1 := mkTensor B' (fun idx => elt (alpha g) (psi idx))).
  set (be1 := mkTensor B' (fun idx => elt (beta g) (psi idx))).
  set (s1 := mkTensor B' (fun idx => elt s (psi idx))).
  set (iv1 := mkTensor (n :: B')
                (fun idx => elt (info_vec g) (unravel (n :: B) (ravel (n :: B') idx)))).
  set (v1 := mkTensor (n :: B') (fun idx => elt value (unravel (n :: B) (ravel (n :: B') idx)))).
  set (P1 := mkTensor (n :: n :: B')
               (fun idx => elt (precision g) (unravel (n :: n :: B) (ravel (n :: n :: B') idx)))).
  set (g' := GaussianGamma.mk ln1 iv1 P1 al1 be1).
  assert (Hrun : reshape g (map Z.of_nat (rev B')) = Ok g').
  { unfold reshape, dim, size_last. rewrite Hiv. cbn [bind]. rewrite E1, E2.
    rewrite !treshape_of_nat by (rewrite ?Hln, ?Hiv, ?HP, ?Hal, ?Hbe; assumption).
    cbn [bind]. rewrite Hln, Hiv, HP, Hal, Hbe. now apply init_ok; exists n, B', B'. }
  assert (Hrun_v : treshape value (map Z.of_nat (rev B') ++ [Z.of_nat n]) = Ok v1).
  { rewrite E1, treshape_of_nat by (rewrite Hv; assumption). now rewrite Hv. }
  assert (Hrun_s : treshape s (map Z.of_nat (rev B')) = Ok s1).
  { rewrite treshape_of_nat by (rewrite Hs; assumption). now rewrite Hs. }
  destruct (@log_density_full_batch g value s n B) as (r & Hr & Hsh_r & Helt).
  { repeat split; assumption. }
  destruct (@log_density_full_batch g' v1 s1 n B') as (r' & Hr' & Hsh_r' & Helt').
  { repeat split; reflexivity. }
  exists g', v1, s1, r, (mkTensor B' (fun idx => elt r (psi idx))), r'.
  do 4 (split; [assumption |]).
  split; [rewrite treshape_of_nat by (rewrite Hsh_r; assumption); now rewrite Hsh_r |].
  split; [exact Hr' |].
  split; [exact Hsh_r' |].
  intros idx Hin. rewrite Hsh_r' in Hin. rewrite (Helt' idx Hin). cbn [elt].
  rewrite (Helt _ (Hpsi idx Hin)).
  cbn [g' ln1 al1 be1 s1 log_normalizer alpha beta info_vec precision elt].
  do 3 f_equal. f_equal.
  assert (Hcons : forall i, i < n ->
            unravel (n :: B) (ravel (n :: B') (i :: idx)) = i :: psi idx).
  { intros i Hi. cbn [ravel]. now apply unravel_cons. }
  apply quadratic_ext.
  - intros i Hi. cbn [v1 elt]. now rewrite Hcons.
  - intros i j Hi Hj. cbn [P1 elt ravel].
    rewrite unravel_cons by assumption. f_equal. f_equal.
    apply (Hcons i Hi).
  - intros i Hi. cbn [iv1 elt]. now rewrite Hcons.
Qed.

Lemma reshape_commutes_with_log_density_witness :
  exists g' value' s' r r_reshaped r',
    reshape batched (map Z.of_nat (rev [1; 2])) = Ok g' /\
    treshape (matrix 2 1 [[3]; [5]]%R) (map Z.of_nat (rev [1; 2]) ++ [Z.of_nat 1]) = Ok value' /\
    treshape (vector [2; 4]%R) (map Z.of_nat (rev [1; 2])) = Ok s' /\
    log_density batched (matrix 2 1 [[3]; [5]]%R) (vector [2; 4]%R) = Ok r /\
    treshape r (map Z.of_nat (rev [1; 2])) = Ok r_reshaped /\
    log_density g' value' s' = Ok r' /\
    tensor_eq r' r_reshaped.
Proof.
  apply (@reshape_commutes_with_log_density
           batched (matrix 2 1 [[3]; [5]]%R) (vector [2; 4]%R) 1 [2] [1; 2]).
  - repeat split; reflexivity.
  - reflexivity.
Defined.

(** ** Concatenating batches *)

Lemma length_set_nth (p v : nat) (l : list nat) : length (set_nth p v l) = length l.
Proof.
  revert p. induction l as [| x l IH]; intros p; destruct p; simpl; auto.
Qed.

Lemma set_nth_set_nth (p v w : nat) (l : list nat) :
  set_nth p v (set_nth p w l) = set_nth p v l.
Proof.
  revert p. induction l as [| x l IH]; intros p; destruct p; simpl; auto. now rewrite IH.
Qed.

Lemma nth_set_nth (p v : nat) (l : list nat) : p < length l -> nth p (set_nth p v l) 0 = v.
Proof.
  revert p. induction l as [| x l IH]; intros p Hp; simpl in Hp; [lia |].
  destruct p; simpl; [reflexivity | apply IH; lia].
Qed.

Lemma in_range_set_nth (p T k i : nat) (C idx : list nat) :
  in_range (set_nth p T C) idx -> i < k -> in_range (set_nth p k C) (set_nth p i idx).
Proof.
  unfold in_range. revert p idx. induction C as [| c C IH]; intros p idx H Hi.
  - destruct p; simpl in *; inversion H; subst; constructor.
  - destruct p; simpl in *; inversion H; subst; simpl; constructor; auto.
Qed.

Lemma in_range_nth_set_nth (p T : nat) (C idx : list nat) :
  in_range (set_nth p T C) idx -> p < length C -> nth p idx 0 < T.
Proof.
  unfold in_range. revert p idx. induction C as [| c C IH]; intros p idx H Hp; simpl in Hp; [lia |].
  destruct p; simpl in H; inversion H; subst; simpl; [assumption |].
  apply IH; [assumption | lia].
Qed.

Lemma locate_map {A : Type} (f : A -> Tensor) (size : A -> nat) (p : nat)
    (a0 : A) (rest : list A) (i : nat) :
  (forall a, In a (a0 :: rest) -> nth p (rshape (f a)) 0 = size a) ->
  locate p (f a0) (map f rest) i =
  (f (fst (locate_part size a0 rest i)), snd (locate_part size a0 rest i)).
Proof.
  revert a0 i. induction rest as [| a rest IH]; intros a0 i Hsize; simpl; [reflexivity |].
  rewrite (Hsize a0) by now left.
  destruct (i <? size a0); [reflexivity |].
  apply IH. intros a' Ha'. apply Hsize. now right.
Qed.

Lemma locate_part_spec {A : Type} (size : A -> nat) (a0 : A) (rest : list A) (i : nat) :
  i < total_size size (a0 :: rest) ->
  In (fst (locate_part size a0 rest i)) (a0 :: rest) /\
  snd (locate_part size a0 rest i) < size (fst (locate_part size a0 rest i)).
Proof.
  revert a0 i. induction rest as [| a rest IH]; intros a0 i Hi.
  - simpl in *. split; [now left | lia].
  - cbn [locate_part]. destruct (Nat.ltb_spec i (size a0)) as [Hlt | Hge].
    + simpl. split; [now left | assumption].
    + destruct (IH a (i - size a0)) as [Hin Hlt].
      { change (total_size size (a0 :: a :: rest))
          with (size a0 + total_size size (a :: rest)) in Hi. lia. }
      split; [now right | assumption].
Qed.

Lemma total_size_map {A : Type} (f : A -> Tensor) (size : A -> nat) (p : nat) (l : list A) :
  (forall a, In a l -> nth p (rshape (f a)) 0 = size a) ->
  fold_right (fun t acc => nth p (rshape t) 0 + acc) 0 (map f l) = total_size size l.
Proof.
  induction l as [| a l IH]; intros H; simpl; [reflexivity |].
  rewrite (H a) by now left. rewrite IH by (intros a' Ha'; apply H; now right). reflexivity.
Qed.

Lemma total_size_filter {A : Type} (size : A -> nat) (keep : A -> bool) (l : list A) :
  (forall a, In a l -> keep a = false -> size a = 0) ->
  total_size size (filter keep l) = total_size size l.
Proof.
  induction l as [| a l IH]; intros H; [reflexivity |].
  assert (IH' : total_size size (filter keep l) = total_size size l)
    by (apply IH; intros a' Ha'; apply H; now right).
  cbn [filter]. destruct (keep a) eqn:E.
  - change (size a + total_size size (filter keep l) = size a + total_size size l).
    now rewrite IH'.
  - change (total_size size (filter keep l) = size a + total_size size l).
    rewrite IH', (H a (or_introl eq_refl) E). reflexivity.
Qed.

(** Leaving out parts of size 0 does not move the coordinates of a
    concatenation. *)
Lemma locate_part_filter {A : Type} (size : A -> nat) (keep : A -> bool)
    (a0 : A) (rest : list A) (b0 : A) (rest' : list A) (i : nat) :
  (forall a, In a (a0 :: rest) -> keep a = false -> size a = 0) ->
  filter keep (a0 :: rest) = b0 :: rest' ->
  i < total_size size (a0 :: rest) ->
  locate_part size b0 rest' i = locate_part size a0 rest i.
Proof.
  revert a0 b0 rest' i. induction rest as [| a rest IH]; intros a0 b0 rest' i Hdrop Hf Hi.
  - cbn [filter] in Hf. destruct (keep a0); [| discriminate]. now injection Hf as <- <-.
  - assert (Hdrop' : forall a', In a' (a :: rest) -> keep a' = false -> size a' = 0)
      by (intros a' Ha'; apply Hdrop; now right).
    change (total_size size (a0 :: a :: rest)) with (size a0 + total_size size (a :: rest)) in Hi.
    pose proof (@total_size_filter A size keep (a :: rest) Hdrop') as Ht.
    change (filter keep (a0 :: a :: rest))
      with (if keep a0 then a0 :: filter keep (a :: rest) else filter keep (a :: rest)) in Hf.
    remember (filter keep (a :: rest)) as fl eqn:Hf'. symmetry in Hf'.
    cbn [locate_part]. destruct (keep a0) eqn:E0.
    + injection Hf as <- <-.
      destruct fl as [| b1 rest''].
      * cbn [locate_part]. destruct (Nat.ltb_spec i (size a0)); [reflexivity |].
        unfold total_size in Ht, Hi. cbn [fold_right] in Ht, Hi. lia.
      * cbn [locate_part]. destruct (Nat.ltb_spec i (size a0)); [reflexivity |].
        apply IH; [exact Hdrop' | exact Hf' | lia].
    + rewrite (Hdrop a0 (or_introl eq_refl) E0) in *. cbn [Nat.ltb Nat.leb].
      rewrite Nat.sub_0_r. apply IH; [exact Hdrop' | now rewrite Hf' | lia].
Qed.

Lemma filter_map_comm {A B : Type} (f : A -> B) (keep : B -> bool) (l : list A) :
  filter keep (map f l) = map f (filter (fun a => keep (f a)) l).
Proof.
  induction l as [| a l IH]; simpl; [reflexivity |].
  destruct (keep (f a)); simpl; now rewrite IH.
Qed.

(** Concatenating one field of parts of which none is left out, along a batch
    axis: the parts' batch shapes are [C] with the size of the axis replaced
    by the part's own size; [ev] are the event axes of the field. *)
Lemma tcat_kept_parts {A : Type} (f : A -> Tensor) (size : A -> nat) (ev C : list nat) (d : nat)
    (a0 : A) (rest : list A) :
  d < length C ->
  (forall a, In a (a0 :: rest) ->
     rshape (f a) = ev ++ set_nth (length C - 1 - d) (size a) C) ->
  exists t,
    tcat_kept (f a0) (map f rest) (Z.of_nat d) = Ok t /\
    rshape t = ev ++ set_nth (length C - 1 - d) (total_size size (a0 :: rest)) C /\
    forall e idx, length e = length ev ->
      elt t (e ++ idx) =
      elt (f (fst (locate_part size a0 rest (nth (length C - 1 - d) idx 0))))
          (e ++ set_nth (length C - 1 - d)
                        (snd (locate_part size a0 rest (nth (length C - 1 - d) idx 0))) idx).
Proof.
  intros Hd Hsh. set (p := length C - 1 - d) in *.
  assert (Hp : p < length C) by (unfold p; lia).
  assert (Hsize : forall a, In a (a0 :: rest) -> nth (length ev + p) (rshape (f a)) 0 = size a).
  { intros a Ha. rewrite (Hsh a Ha), app_nth2_plus. now apply nth_set_nth. }
  unfold tcat_kept, ndim. rewrite (Hsh a0) by now left.
  rewrite length_app, length_set_nth.
  replace (Z.of_nat d <? 0)%Z with false by (symmetry; apply Z.ltb_ge; lia).
  replace ((0 <=? Z.of_nat d) && (Z.of_nat d <? Z.of_nat (length ev + length C)))%Z with true
    by (symmetry; apply andb_true_iff; split; [apply Z.leb_le | apply Z.ltb_lt]; lia).
  cbn [negb]. rewrite Nat2Z.id.
  replace (length ev + length C - 1 - d) with (length ev + p) by (unfold p; lia).
  assert (Hcheck : forallb (fun t => shape_eqb (set_nth (length ev + p) 0 (rshape t))
                                       (set_nth (length ev + p) 0
                                                (ev ++ set_nth p (size a0) C)))
                           (map f rest) = true).
  { apply forallb_forall. intros t Ht. apply in_map_iff in Ht as (a & <- & Ha).
    rewrite (Hsh a) by now right.
    rewrite !set_nth_app by lia. replace (length ev + p - length ev) with p by lia.
    rewrite !set_nth_set_nth. apply shape_eqb_refl. }
  rewrite Hcheck.
  eexists. split; [reflexivity |]. cbn [rshape elt]. split.
  - rewrite set_nth_app by lia. replace (length ev + p - length ev) with p by lia.
    rewrite set_nth_set_nth. f_equal. f_equal.
    change (f a0 :: map f rest) with (map f (a0 :: rest)).
    now apply total_size_map.
  - intros e idx He.
    assert (Hn : nth (length ev + p) (e ++ idx) 0 = nth p idx 0)
      by (rewrite <- He; apply app_nth2_plus).
    assert (Hset : forall v, set_nth (length ev + p) v (e ++ idx) = e ++ set_nth p v idx).
    { intros v. rewrite set_nth_app by lia. do 2 f_equal. lia. }
    rewrite Hn, Hset, (@locate_map A f size (length ev + p) a0 rest _ Hsize). reflexivity.
Qed.

(** The same for [torch.cat] itself, which leaves out the parts of shape
    [(0,)]: they hold no coordinate of the result. *)
Lemma tcat_parts {A : Type} (f : A -> Tensor) (size : A -> nat) (ev C : list nat) (d : nat)
    (a0 : A) (rest : list A) :
  d < length C ->
  (forall a, In a (a0 :: rest) ->
     rshape (f a) = ev ++ set_nth (length C - 1 - d) (size a) C) ->
  exists t,
    tcat (map f (a0 :: rest)) (Z.of_nat d) = Ok t /\
    rshape t = ev ++ set_nth (length C - 1 - d) (total_size size (a0 :: rest)) C /\
    forall e idx, length e = length ev ->
      nth (length C - 1 - d) idx 0 < total_size size (a0 :: rest) ->
      elt t (e ++ idx) =
      elt (f (fst (locate_part size a0 rest (nth (length C - 1 - d) idx 0))))
          (e ++ set_nth (length C - 1 - d)
                        (snd (locate_part size a0 rest (nth (length C - 1 - d) idx 0))) idx).
Proof.
  intros Hd Hsh. set (p := length C - 1 - d) in *.
  assert (Hp : p < length C) by (unfold p; lia).
  set (keep := fun a => negb (cat_skipped (f a))).
  assert (Hdrop : forall a, In a (a0 :: rest) -> keep a = false -> size a = 0).
  { intros a Ha Hk. unfold keep, cat_skipped in Hk. apply negb_false_iff in Hk.
    apply shape_eqb_eq in Hk.
    assert (Hs : nth (length ev + p) (rshape (f a)) 0 = size a)
      by (rewrite (Hsh a Ha), app_nth2_plus; now apply nth_set_nth).
    rewrite Hk in Hs. rewrite <- Hs. now destruct (length ev + p) as [| [| k]]. }
  assert (Hnd : existsb (fun t => ndim t =? 0) (map f (a0 :: rest)) = false).
  { destruct (existsb _ _) eqn:E; [| reflexivity].
    apply existsb_exists in E as (t & Ht & Hz). apply in_map_iff in Ht as (a & <- & Ha).
    unfold ndim in Hz. rewrite (Hsh a Ha), length_app, length_set_nth in Hz.
    apply Nat.eqb_eq in Hz. lia. }
  unfold tcat. change (map f (a0 :: rest)) with (f a0 :: map f rest) at 1.
  cbv iota. change (f a0 :: map f rest) with (map f (a0 :: rest)).
  rewrite Hnd, filter_map_comm. fold keep.
  pose proof (@total_size_filter A size keep (a0 :: rest) Hdrop) as Htotal.
  destruct (filter keep (a0 :: rest)) as [| b0 rest'] eqn:Hf.
  - cbn [map]. eexists. split; [reflexivity |]. cbn [rshape].
    rewrite <- Htotal. change (total_size size []) with 0. split.
    + assert (Hk0 : keep a0 = false).
      { destruct (keep a0) eqn:E; [| reflexivity]. cbn [filter] in Hf. rewrite E in Hf.
        discriminate. }
      pose proof (Hdrop a0 (or_introl eq_refl) Hk0) as Hz.
      unfold keep, cat_skipped in Hk0. apply negb_false_iff in Hk0.
      apply shape_eqb_eq in Hk0. rewrite <- Hk0, (Hsh a0) by now left. now rewrite Hz.
    + intros e idx _ Hlt. lia.
  - assert (Hsub : forall a, In a (b0 :: rest') -> In a (a0 :: rest)).
    { intros a Ha. rewrite <- Hf in Ha. now apply filter_In in Ha. }
    destruct (@tcat_kept_parts A f size ev C d b0 rest' Hd) as (t & Hrun & Hsht & Helt).
    { intros a Ha. apply Hsh. now apply Hsub. }
    fold p in Hsht, Helt.
    exists t. cbn [map]. split; [exact Hrun |]. split; [now rewrite <- Htotal |].
    intros e idx He Hlt. rewrite (Helt e idx He).
    now rewrite (@locate_part_filter A size keep a0 rest b0 rest' _ Hdrop Hf Hlt).
Qed.

Lemma Forall2_map_fun {A B : Type} (R : A -> B -> Prop) (f : A -> B) (l : list A) :
  (forall x, In x l -> R x (f x)) -> Forall2 R l (map f l).
Proof.
  induction l as [| x l IH]; intros H; simpl; constructor.
  - apply H. now left.
  - apply IH. intros y Hy. apply H. now right.
Qed.

(** X15: concatenating batches concatenates their densities.  For parts
    whose fields, [value] and [s] are fully batched, of the same event
    dimension and with batch shapes that agree on every axis but the batch
    axis [d], [cat(parts, d)] is defined and
    [cat(parts, d).log_density(cat(values, d), cat(ss, d))] equals
    [cat([g.log_density(value, s) for each part], d)]; a negative [dim]
    counts from the end of the batch shape, so
    [cat(parts, d - len(batch_shape))] is the same instance. *)
Theorem cat_commutes_with_log_density
    (x0 : GaussianGamma.t * Tensor * Tensor) (rest : list (GaussianGamma.t * Tensor * Tensor))
    (n d : nat) (C : list nat) :
  d < length C ->
  (forall x, In x (x0 :: rest) ->
     exists k, same_batch (fst (fst x)) (snd (fst x)) (snd x) n
                          (set_nth (length C - 1 - d) k C)) ->
  exists gcat vcat scat rs rcat r,
    cat (map (fun x => fst (fst x)) (x0 :: rest)) (Z.of_nat d) = Ok gcat /\
    cat (map (fun x => fst (fst x)) (x0 :: rest)) (Z.of_nat d - Z.of_nat (length C)) = Ok gcat /\
    tcat (map (fun x => snd (fst x)) (x0 :: rest)) (Z.of_nat d) = Ok vcat /\
    tcat (map snd (x0 :: rest)) (Z.of_nat d) = Ok scat /\
    Forall2 (fun x r => log_density (fst (fst x)) (snd (fst x)) (snd x) = Ok r) (x0 :: rest) rs /\
    tcat rs (Z.of_nat d) = Ok rcat /\
    log_density gcat vcat scat = Ok r /\
    tensor_eq r rcat.
Proof.
  intros Hd Hall. set (p := length C - 1 - d) in *.
  assert (Hp : p < length C) by (unfold p; lia).
  set (size := fun x : GaussianGamma.t * Tensor * Tensor =>
                 nth p (rshape (log_normalizer (fst (fst x)))) 0).
  assert (Hsb : forall x, In x (x0 :: rest) ->
                same_batch (fst (fst x)) (snd (fst x)) (snd x) n (set_nth p (size x) C)).
  { intros x Hx. destruct (Hall x Hx) as (k & Hk).
    assert (size x = k) as ->; [| exact Hk].
    unfold size. destruct Hk as (-> & _). now apply nth_set_nth. }
  clear Hall.
  set (T := total_size size (x0 :: rest)).
  destruct (@tcat_parts _ (fun x => log_normalizer (fst (fst x))) size [] C d x0 rest Hd)
    as (lnc & Hrun_ln & Hsh_ln & Helt_ln); [intros x Hx; apply (Hsb x Hx) |].
  destruct (@tcat_parts _ (fun x => info_vec (fst (fst x))) size [n] C d x0 rest Hd)
    as (ivc & Hrun_iv & Hsh_iv & Helt_iv); [intros x Hx; apply (Hsb x Hx) |].
  destruct (@tcat_parts _ (fun x => precision (fst (fst x))) size [n; n] C d x0 rest Hd)
    as (Pc & Hrun_P & Hsh_P & Helt_P); [intros x Hx; apply (Hsb x Hx) |].
  destruct (@tcat_parts _ (fun x => alpha (fst (fst x))) size [] C d x0 rest Hd)
    as (alc & Hrun_al & Hsh_al & Helt_al); [intros x Hx; apply (Hsb x Hx) |].
  destruct (@tcat_parts _ (fun x => beta (fst (fst x))) size [] C d x0 rest Hd)
    as (bec & Hrun_be & Hsh_be & Helt_be); [intros x Hx; apply (Hsb x Hx) |].
  destruct (@tcat_parts _ (fun x => snd (fst x)) size [n] C d x0 rest Hd)
    as (vc & Hrun_v & Hsh_v & Helt_v); [intros x Hx; apply (Hsb x Hx) |].
  destruct (@tcat_parts _ (fun x => snd x) size [] C d x0 rest Hd)
    as (sc & Hrun_s & Hsh_s & Helt_s); [intros x Hx; apply (Hsb x Hx) |].
  fold p T in Hsh_ln, Hsh_iv, Hsh_P, Hsh_al, Hsh_be, Hsh_v, Hsh_s.
  fold p in Helt_ln, Helt_iv, Helt_P, Helt_al, Helt_be, Helt_v, Helt_s.
  cbn [app] in Hsh_ln, Hsh_iv, Hsh_P, Hsh_al, Hsh_be, Hsh_v, Hsh_s.
  set (gcat := GaussianGamma.mk lnc ivc Pc alc bec).
  assert (Hcat : cat (map (fun x => fst (fst x)) (x0 :: rest)) (Z.of_nat d) = Ok gcat).
  { unfold cat.
    replace (Z.of_nat d <? 0)%Z with false by (symmetry; apply Z.ltb_ge; lia).
    cbn [bind]. rewrite !map_map. cbv beta.
    rewrite Hrun_ln, Hrun_iv, Hrun_P, Hrun_al, Hrun_be. cbn [bind].
    apply init_ok. now exists n, (set_nth p T C), (set_nth p T C). }
  assert (Hcat_neg : cat (map (fun x => fst (fst x)) (x0 :: rest))
                         (Z.of_nat d - Z.of_nat (length C)) = Ok gcat).
  { rewrite <- Hcat. unfold cat at 1.
    replace (Z.of_nat d - Z.of_nat (length C) <? 0)%Z with true
      by (symmetry; apply Z.ltb_lt; lia).
    cbn [map].
    destruct (Hsb x0 (or_introl eq_refl)) as (Hln0 & Hiv0 & HP0 & Hal0 & Hbe0 & _).
    unfold batch_shape. rewrite Hln0, Hiv0, HP0, Hal0, Hbe0. cbn [tl skipn].
    pose proof (broadcast_shape_same (set_nth p (size x0) C) 4) as Hbs.
    cbn [repeat] in Hbs. rewrite Hbs. cbn [bind].
    rewrite length_set_nth.
    replace (Z.of_nat d - Z.of_nat (length C) + Z.of_nat (length C))%Z with (Z.of_nat d) by lia.
    unfold cat.
    now replace (Z.of_nat d <? 0)%Z with false by (symmetry; apply Z.ltb_ge; lia). }
  assert (Hparts : forall x, In x (x0 :: rest) ->
            log_density (fst (fst x)) (snd (fst x)) (snd x) = Ok (density_of x) /\
            rshape (density_of x) = set_nth p (size x) C /\
            forall idx, in_range (set_nth p (size x) C) idx ->
              elt (density_of x) idx =
              (elt (alpha (fst (fst x))) idx * ln (elt (snd x) idx)
               + (rsum n (fun i =>
                    elt (snd (fst x)) (i :: idx)
                    * (-0.5 * rsum n (fun j => elt (precision (fst (fst x))) (j :: i :: idx)
                                               * elt (snd (fst x)) (j :: idx))
                       + elt (info_vec (fst (fst x))) (i :: idx)))
                  - elt (beta (fst (fst x))) idx) * elt (snd x) idx
               + elt (log_normalizer (fst (fst x))) idx)%R).
  { intros x Hx. destruct (log_density_full_batch (Hsb x Hx)) as (r & Hr & Hsh & Helt).
    unfold density_of. rewrite Hr. auto. }
  destruct (@tcat_parts _ density_of size [] C d x0 rest Hd)
    as (rc & Hrun_r & Hsh_r & Helt_r); [intros x Hx; apply (Hparts x Hx) |].
  fold p T in Hsh_r. fold p in Helt_r. cbn [app] in Hsh_r.
  destruct (@log_density_full_batch gcat vc sc n (set_nth p T C)) as (r & Hr & Hsh & Helt).
  { repeat split; assumption. }
  exists gcat, vc, sc, (map density_of (x0 :: rest)), rc, r.
  split; [exact Hcat |]. split; [exact Hcat_neg |].
  split; [exact Hrun_v |]. split; [exact Hrun_s |].
  split; [apply Forall2_map_fun; intros x Hx; apply (Hparts x Hx) |].
  split; [exact Hrun_r |]. split; [exact Hr |].
  split; [congruence |].
  intros idx Hin. rewrite Hsh in Hin. rewrite (Helt idx Hin).
  pose proof (@in_range_nth_set_nth p T C idx Hin Hp) as HltT.
  destruct (@locate_part_spec _ size x0 rest (nth p idx 0) HltT) as [Hloc_in Hloc_lt].
  set (a := fst (locate_part size x0 rest (nth p idx 0))) in *.
  set (i' := snd (locate_part size x0 rest (nth p idx 0))) in *.
  pose proof (@in_range_set_nth p T _ _ C idx Hin Hloc_lt) as Hin'.
  destruct (Hparts a Hloc_in) as (_ & _ & Helt_a).
  assert (E_r : elt rc idx = elt (density_of a) (set_nth p i' idx))
    by exact (Helt_r [] idx eq_refl HltT).
  rewrite E_r, (Helt_a _ Hin').
  cbn [gcat log_normalizer info_vec precision alpha beta].
  assert (E_al : elt alc idx = elt (alpha (fst (fst a))) (set_nth p i' idx))
    by exact (Helt_al [] idx eq_refl HltT).
  assert (E_be : elt bec idx = elt (beta (fst (fst a))) (set_nth p i' idx))
    by exact (Helt_be [] idx eq_refl HltT).
  assert (E_ln : elt lnc idx = elt (log_normalizer (fst (fst a))) (set_nth p i' idx))
    by exact (Helt_ln [] idx eq_refl HltT).
  assert (E_s : elt sc idx = elt (snd a) (set_nth p i' idx))
    by exact (Helt_s [] idx eq_refl HltT).
  assert (E_v : forall i, elt vc (i :: idx) = elt (snd (fst a)) (i :: set_nth p i' idx))
    by (intros i; exact (Helt_v [i] idx eq_refl HltT)).
  assert (E_iv : forall i, elt ivc (i :: idx) = elt (info_vec (fst (fst a))) (i :: set_nth p i' idx))
    by (intros i; exact (Helt_iv [i] idx eq_refl HltT)).
  assert (E_P : forall j i, elt Pc (j :: i :: idx)
                            = elt (precision (fst (fst a))) (j :: i :: set_nth p i' idx))
    by (intros j i; exact (Helt_P [j; i] idx eq_refl HltT)).
  rewrite E_al, E_be, E_ln, E_s.
  do 3 f_equal. f_equal.
  apply quadratic_ext.
  - intros i _. apply E_v.
  - intros i j _ _. apply E_P.
  - intros i _. apply E_iv.
Qed.

Lemma cat_commutes_with_log_density_witness :
  exists gcat vcat scat rs rcat r,
    cat (map (fun x => fst (fst x))
             [(batched, matrix 2 1 [[3]; [5]]%R, vector [2; 4]%R);
              (batched, matrix 2 1 [[1]; [2]]%R, vector [1; 1]%R)]) (Z.of_nat 0) = Ok gcat /\
    cat (map (fun x => fst (fst x))
             [(batched, matrix 2 1 [[3]; [5]]%R, vector [2; 4]%R);
              (batched, matrix 2 1 [[1]; [2]]%R, vector [1; 1]%R)])
        (Z.of_nat 0 - Z.of_nat (length [2])) = Ok gcat /\
    tcat (map (fun x => snd (fst x))
              [(batched, matrix 2 1 [[3]; [5]]%R, vector [2; 4]%R);
               (batched, matrix 2 1 [[1]; [2]]%R, vector [1; 1]%R)]) (Z.of_nat 0) = Ok vcat /\
    tcat (map snd
              [(batched, matrix 2 1 [[3]; [5]]%R, vector [2; 4]%R);
               (batched, matrix 2 1 [[1]; [2]]%R, vector [1; 1]%R)]) (Z.of_nat 0) = Ok scat /\
    Forall2 (fun x r => log_density (fst (fst x)) (snd (fst x)) (snd x) = Ok r)
            [(batched, matrix 2 1 [[3]; [5]]%R, vector [2; 4]%R);
             (batched, matrix 2 1 [[1]; [2]]%R, vector [1; 1]%R)] rs /\
    tcat rs (Z.of_nat 0) = Ok rcat /\
    log_density gcat vcat scat = Ok r /\
    tensor_eq r rcat.
Proof.
  apply (@cat_commutes_with_log_density
           (batched, matrix 2 1 [[3]; [5]]%R, vector [2; 4]%R)
           [(batched, matrix 2 1 [[1]; [2]]%R, vector [1; 1]%R)] 1 0 [2]).
  - simpl. lia.
  - intros x [<- | [<- | []]]; exists 2; repeat split; reflexivity.
Defined.

(** ** The runtime's checks on padding and concatenation *)

(** A negative amount that crops more than the event dimension holds makes
    [event_pad] fail in [pad], before the constructor is reached. *)
Lemma event_pad_overcropped_raises (g : GaussianGamma.t) (left right : Z) (n : nat) :
  valid g -> dim g = Ok n -> overcropped n left right = true ->
  event_pad g left right = Raise RuntimeError.
Proof.
  intros (n' & bi & bp & Hiv & HP) Hd Hover.
  unfold dim, size_last in Hd. rewrite Hiv in Hd. injection Hd as ->.
  unfold event_pad, pad1. now rewrite Hiv, Hover.
Qed.

(** [torch.cat] leaves a leading part of shape [(0,)] out. *)
Lemma tcat_skips_empty_part (t0 t : Tensor) (ts : list Tensor) (dim : Z) :
  cat_skipped t0 = true -> tcat (t0 :: t :: ts) dim = tcat (t :: ts) dim.
Proof.
  intros Hskip. unfold tcat. cbn [existsb filter]. rewrite Hskip. cbn [negb].
  unfold cat_skipped in Hskip. apply shape_eqb_eq in Hskip.
  unfold ndim at 1. now rewrite Hskip.
Qed.
